(** * hw2/cs285/networks/policies.py : MLPPolicy and MLPPolicyPG

    A shallow embedding of the policy classes of [cs285.networks.policies]
    and of the parts of [torch] they call.

    Conventions.
    - float32 and float64 values are idealised as real numbers ([R]); NaN and
      infinities have no counterpart, so a statement about a value that is
      "exactly" some number is a statement in real arithmetic.
    - int64 values are [Z].
    - A tensor is a nested list that remembers the shape of its elements, so
      that the shape of an empty tensor is still known.
    - Python exceptions are values of [exn]; a computation that raises keeps
      the state it had when the exception was raised. *)

From Stdlib Require Import String.
From Stdlib Require Import Reals List ZArith Bool Lia Lra.
From Stdlib Require Import Zfloor.
Import ListNotations.

#[global] Set Warnings "-register-all".

Open Scope R_scope.

(** ** Python exceptions and results *)

Inductive exn : Type :=
| ValueError
| RuntimeError
| NotImplementedError
| AttributeError.

Inductive Res (A : Type) : Type :=
| OK (a : A)
| Raise (e : exn).
Arguments OK {A} a.
Arguments Raise {A} e.

Definition res_bind {A B} (m : Res A) (f : A -> Res B) : Res B :=
  match m with
  | OK a => f a
  | Raise e => Raise e
  end.

Definition is_ok {A} (m : Res A) : bool :=
  match m with OK _ => true | Raise _ => false end.

(** ** Comparisons of reals as booleans *)

Definition Rltb (x y : R) : bool := if Rlt_dec x y then true else false.
Definition Rleb (x y : R) : bool := if Rle_dec x y then true else false.
Definition Reqb (x y : R) : bool := if Req_dec_T x y then true else false.

(** ** Tensor data

    [Stack s ts] is a tensor whose elements [ts] all have shape [s]; its own
    shape is [length ts :: s]. *)

Inductive tensor (A : Type) : Type :=
| Scalar (x : A)
| Stack (s : list nat) (ts : list (tensor A)).
Arguments Scalar {A} x.
Arguments Stack {A} s ts.

Definition shape {A} (t : tensor A) : list nat :=
  match t with
  | Scalar _ => []
  | Stack s ts => length ts :: s
  end.

Definition dim {A} (t : tensor A) : nat := length (shape t).

Fixpoint wf {A} (t : tensor A) : Prop :=
  match t with
  | Scalar _ => True
  | Stack s ts =>
      (fix all (l : list (tensor A)) : Prop :=
         match l with
         | [] => True
         | t' :: l' => (wf t' /\ shape t' = s) /\ all l'
         end) ts
  end.

(** One-dimensional and two-dimensional tensors from lists. *)
Definition of_vec {A} (v : list A) : tensor A := Stack [] (map Scalar v).
Definition of_mat {A} (cols : nat) (m : list (list A)) : tensor A :=
  Stack [cols] (map of_vec m).

Fixpoint tmap {A B} (f : A -> B) (t : tensor A) : tensor B :=
  match t with
  | Scalar x => Scalar (f x)
  | Stack s ts => Stack s (map (tmap f) ts)
  end.

(** Elementwise combination of two tensors of the same shape.  A scalar
    against a stack combines with every element of the stack. *)
Fixpoint tzip {A B C} (f : A -> B -> C) (a : tensor A) (b : tensor B)
  {struct a} : tensor C :=
  match a, b with
  | Scalar x, Scalar y => Scalar (f x y)
  | Scalar x, Stack s us => tmap (f x) (Stack s us)
  | Stack s ts, Scalar y => Stack s (map (tmap (fun x => f x y)) ts)
  | Stack s ts, Stack _ us =>
      Stack s
        ((fix go (l : list (tensor A)) (r : list (tensor B)) : list (tensor C) :=
            match l, r with
            | x :: l', y :: r' => tzip f x y :: go l' r'
            | _, _ => []
            end) ts us)
  end.

(** A tensor of shape [s] filled with [x] ([torch.full], [torch.zeros]). *)
Fixpoint full {A} (s : list nat) (x : A) : tensor A :=
  match s with
  | [] => Scalar x
  | n :: s' => Stack s' (repeat (full s' x) n)
  end.

Definition zeros (s : list nat) : tensor R := full s 0.

(** The entries of a tensor in row-major order. *)
Fixpoint flatten {A} (t : tensor A) : list A :=
  match t with
  | Scalar x => [x]
  | Stack _ ts => flat_map flatten ts
  end.

Definition numel {A} (t : tensor A) : nat := length (flatten t).

Definition Rsum (l : list R) : R := fold_right Rplus 0 l.

Definition tsum (t : tensor R) : R := Rsum (flatten t).

(** *** Broadcasting

    Shapes are aligned at their last dimension, the shorter one is filled
    up with leading 1s, and two sizes are compatible when they are equal or
    one of them is 1. *)

Fixpoint broadcast_dims (a b : list nat) : option (list nat) :=
  match a, b with
  | [], [] => Some []
  | x :: a', y :: b' =>
      match broadcast_dims a' b' with
      | None => None
      | Some r =>
          if (x =? y)%nat then Some (x :: r)
          else if (x =? 1)%nat then Some (y :: r)
          else if (y =? 1)%nat then Some (x :: r)
          else None
      end
  | _, _ => None
  end.

Definition pad_shape (n : nat) (s : list nat) : list nat :=
  repeat 1%nat (n - length s) ++ s.

Definition broadcast_shapes (a b : list nat) : option (list nat) :=
  let n := Nat.max (length a) (length b) in
  broadcast_dims (pad_shape n a) (pad_shape n b).

(** [expand s t] is [t] viewed at the shape [s] it broadcasts to
    ([Tensor.expand]): missing leading dimensions are added and dimensions of
    size 1 are repeated. *)
Fixpoint expand {A} (s : list nat) (t : tensor A) {struct s} : tensor A :=
  match s with
  | [] => t
  | n :: s' =>
      if (dim t <? length s)%nat then Stack s' (repeat (expand s' t) n)
      else
        match t with
        | Scalar _ => t
        | Stack _ [t0] => Stack s' (repeat (expand s' t0) n)
        | Stack _ ts => Stack s' (map (expand s') ts)
        end
  end.

(** Sum over the first dimension of [Stack s ts]. *)
Definition sum0 (s : list nat) (ts : list (tensor R)) : tensor R :=
  fold_right (tzip Rplus) (zeros s) ts.

(** [sum_to s0 g] sums [g] down to the shape [s0] that was broadcast to the
    shape of [g] ([Tensor.sum_to_size]); the result always has shape [s0]. *)
Fixpoint sum_lead (k : nat) (g : tensor R) : tensor R :=
  match k with
  | O => g
  | S k' =>
      match g with
      | Scalar _ => g
      | Stack s ts => sum_lead k' (sum0 s ts)
      end
  end.

Fixpoint sum_keep (s0 : list nat) (g : tensor R) {struct s0} : tensor R :=
  match s0 with
  | [] => Scalar (tsum g)
  | n :: s0' =>
      match g with
      | Scalar _ => Stack s0' (repeat (sum_keep s0' g) n)
      | Stack s ts =>
          if (length ts =? n)%nat then Stack s0' (map (sum_keep s0') ts)
          else Stack s0' (repeat (sum_keep s0' (sum0 s ts)) n)
      end
  end.

Definition sum_to (s0 : list nat) (g : tensor R) : tensor R :=
  sum_keep s0 (sum_lead (dim g - length s0) g).

(** *** The last dimension

    [to_rows t] views a tensor of shape [s ++ [n]] as a tensor of shape [s]
    whose entries are the rows of length [n]; a 0-dimensional tensor counts
    as one row of length 1, as torch does when [dim=-1] is applied to it.
    [of_rows n] is the inverse for rows of length [n]. *)

Definition scalar_values {A} (ts : list (tensor A)) : list A :=
  flat_map (fun t => match t with Scalar x => [x] | Stack _ _ => [] end) ts.

Fixpoint to_rows {A} (t : tensor A) : tensor (list A) :=
  match t with
  | Scalar x => Scalar [x]
  | Stack [] ts => Scalar (scalar_values ts)
  | Stack (n :: s') ts => Stack (removelast (n :: s')) (map to_rows ts)
  end.

Fixpoint of_rows {A} (n : nat) (t : tensor (list A)) : tensor A :=
  match t with
  | Scalar row => of_vec row
  | Stack s ts => Stack (s ++ [n]) (map (of_rows n) ts)
  end.

Definition last_dim {A} (t : tensor A) : nat := last (shape t) 1%nat.

Definition batch_shape_of {A} (t : tensor A) : list nat := removelast (shape t).

(** [Tensor.sum(dim=-1)]. *)
Definition tsum_last (t : tensor R) : tensor R := tmap Rsum (to_rows t).

(** The inverse view of [tsum_last] for gradients: every entry repeated [n]
    times along a new last dimension. *)
Definition expand_last (n : nat) (g : tensor R) : tensor R :=
  of_rows n (tmap (fun x => repeat x n) g).

Definition logsumexp_row (row : list R) : R := ln (Rsum (map exp row)).

Definition softmax_row (row : list R) : list R :=
  map (fun x => exp x / Rsum (map exp row)) row.

(** [Tensor.logsumexp(dim=-1, keepdim=True)] and [softmax(dim=-1)]. *)
Definition tlogsumexp_keep (t : tensor R) : tensor R :=
  of_rows 1 (tmap (fun row => [logsumexp_row row]) (to_rows t)).

Definition tsoftmax (t : tensor R) : tensor R :=
  of_rows (last_dim t) (tmap softmax_row (to_rows t)).

(** [Tensor.gather(-1, index)] for one index per row, and the row a
    gradient is scattered back to. *)
Definition gather_row (row : list R) (z : Z) : R := nth (Z.to_nat z) row 0.

Definition one_hot (n : nat) (z : Z) (g : R) : list R :=
  map (fun i => if (i =? Z.to_nat z)%nat then g else 0) (seq 0 n).

(** The first index of a largest entry ([argmax] over one row). *)
Fixpoint argmax_from (best : R) (besti : nat) (i : nat) (l : list R) : nat :=
  match l with
  | [] => besti
  | x :: l' =>
      if Rltb best x then argmax_from x i (S i) l'
      else argmax_from best besti (S i) l'
  end.

Definition argmax (l : list R) : nat :=
  match l with
  | [] => O
  | x :: l' => argmax_from x O 1 l'
  end.

Definition tall {A} (p : A -> bool) (t : tensor A) : bool := forallb p (flatten t).

(** Reshape a list of entries in row-major order to a tensor of shape [s]. *)
Definition numel_of (s : list nat) : nat := fold_right Nat.mul 1%nat s.

Fixpoint reshape {A} (s : list nat) (d : A) (l : list A) : tensor A :=
  match s with
  | [] => Scalar (hd d l)
  | n :: s' =>
      Stack s'
        (map (fun i => reshape s' d (skipn (i * numel_of s') l)) (seq 0 n))
  end.

(** ** Monads

    [Res] carries exceptions; [G] also reads the autograd mode
    ([torch.is_grad_enabled()]). *)

Class Monad (m : Type -> Type) : Type := {
  ret : forall {A}, A -> m A;
  bind : forall {A B}, m A -> (A -> m B) -> m B
}.

Notation "x <- c1 ;; c2" := (bind c1 (fun x => c2))
  (at level 61, c1 at next level, right associativity).
Notation "c1 ;; c2" := (bind c1 (fun _ => c2))
  (at level 61, right associativity).

#[global] Instance Res_Monad : Monad Res :=
  {| ret := fun A a => OK a; bind := fun A B => @res_bind A B |}.

Definition G (A : Type) : Type := bool -> Res A.

#[global] Instance G_Monad : Monad G :=
  {| ret := fun A a _ => OK a;
     bind := fun A B (m : G A) (f : A -> G B) ge =>
               match m ge with
               | OK a => f a ge
               | Raise e => Raise e
               end |}.

Definition raiseG {A} (e : exn) : G A := fun _ => Raise e.

(** ** torch tensors and autograd

    A parameter of the policy is named by a reference; the optimizer and the
    autograd graph hold references, the policy object holds the values. *)

Inductive ParamRef : Type :=
| Ref_logstd
| Ref_logits_net (i : nat)
| Ref_mean_net (i : nat).

Definition ParamRef_eqb (a b : ParamRef) : bool :=
  match a, b with
  | Ref_logstd, Ref_logstd => true
  | Ref_logits_net i, Ref_logits_net j => (i =? j)%nat
  | Ref_mean_net i, Ref_mean_net j => (i =? j)%nat
  | _, _ => false
  end.

(** What a backward pass hands to the parameters: one gradient tensor per
    path of the graph that ends in a parameter. *)
Definition Contribs : Type := list (ParamRef * tensor R).

(** A float tensor; [grad_fn] is the recorded backward function, present
    exactly when the tensor requires grad. *)
Record FloatTensor : Type := {
  data : tensor R;
  grad_fn : option (tensor R -> Contribs)
}.

Inductive Tensor : Type :=
| TFloat (x : FloatTensor)
| TLong (x : tensor Z).

(** numpy arrays carry no graph. *)
Inductive ndarray : Type :=
| NdFloat (a : tensor R)
| NdInt (a : tensor Z).

Definition requires_grad (x : FloatTensor) : bool :=
  match grad_fn x with Some _ => true | None => false end.

Definition back (x : FloatTensor) (g : tensor R) : Contribs :=
  match grad_fn x with Some n => n g | None => [] end.

(** The result of an operation: the graph is recorded when grad mode is on
    and some input requires grad. *)
Definition mk (ge req : bool) (d : tensor R) (n : tensor R -> Contribs)
  : FloatTensor :=
  {| data := d; grad_fn := if ge && req then Some n else None |}.

Definition plain_tensor (d : tensor R) : FloatTensor :=
  {| data := d; grad_fn := None |}.

(** Elementwise function of one tensor, with its derivative. *)
Definition unop (f df : R -> R) (x : FloatTensor) : G FloatTensor :=
  fun ge =>
    OK (mk ge (requires_grad x) (tmap f (data x))
          (fun g => back x (tzip Rmult g (tmap df (data x))))).

(** Elementwise function of two tensors with broadcasting, with its two
    partial derivatives; the gradient of a broadcast input is summed back to
    the shape of the input. *)
Definition binop (f dfa dfb : R -> R -> R) (a b : FloatTensor)
  : G FloatTensor :=
  fun ge =>
    match broadcast_shapes (shape (data a)) (shape (data b)) with
    | None => Raise RuntimeError
    | Some s =>
        let ea := expand s (data a) in
        let eb := expand s (data b) in
        OK (mk ge (requires_grad a || requires_grad b) (tzip f ea eb)
              (fun g =>
                 back a (sum_to (shape (data a))
                           (tzip Rmult g (tzip dfa ea eb)))
                 ++ back b (sum_to (shape (data b))
                              (tzip Rmult g (tzip dfb ea eb)))))
    end.

Definition torch_exp : FloatTensor -> G FloatTensor := unop exp exp.
Definition torch_log : FloatTensor -> G FloatTensor := unop ln (fun x => / x).
Definition torch_neg : FloatTensor -> G FloatTensor :=
  unop Ropp (fun _ => -1).
Definition torch_pow2 : FloatTensor -> G FloatTensor :=
  unop (fun x => x ^ 2) (fun x => 2 * x).
Definition torch_rmul (c : R) : FloatTensor -> G FloatTensor :=
  unop (fun x => c * x) (fun _ => c).
Definition torch_sub_const (c : R) : FloatTensor -> G FloatTensor :=
  unop (fun x => x - c) (fun _ => 1).

Definition torch_add : FloatTensor -> FloatTensor -> G FloatTensor :=
  binop Rplus (fun _ _ => 1) (fun _ _ => 1).
Definition torch_sub : FloatTensor -> FloatTensor -> G FloatTensor :=
  binop Rminus (fun _ _ => 1) (fun _ _ => -1).
Definition torch_mul : FloatTensor -> FloatTensor -> G FloatTensor :=
  binop Rmult (fun _ y => y) (fun x _ => x).
Definition torch_div : FloatTensor -> FloatTensor -> G FloatTensor :=
  binop Rdiv (fun _ y => / y) (fun x y => - x / (y * y)).

(** [x.sum(dim=-1)]. *)
Definition torch_sum_last (x : FloatTensor) : G FloatTensor :=
  fun ge =>
    OK (mk ge (requires_grad x) (tsum_last (data x))
          (fun g => back x (expand_last (last_dim (data x)) g))).

(** [x.mean()]: the mean of all entries, a 0-dimensional tensor.  For an
    empty tensor torch returns NaN, which has no counterpart among the
    reals: the quotient below is then 0 / 0, which is 0 in [R].  Statements
    about the value of a mean are meant for tensors that are not empty. *)
Definition torch_mean (x : FloatTensor) : G FloatTensor :=
  fun ge =>
    OK (mk ge (requires_grad x)
          (Scalar (tsum (data x) / INR (numel (data x))))
          (fun g =>
             back x (tmap (fun _ => tsum g / INR (numel (data x))) (data x)))).

(** [x.logsumexp(dim=-1, keepdim=True)]. *)
Definition torch_logsumexp_keep (x : FloatTensor) : G FloatTensor :=
  fun ge =>
    OK (mk ge (requires_grad x) (tlogsumexp_keep (data x))
          (fun g =>
             back x (tzip Rmult (expand (shape (data x)) g)
                       (tsoftmax (data x))))).

(** [x.expand(s)]. *)
Definition torch_expand (s : list nat) (x : FloatTensor) : G FloatTensor :=
  fun ge =>
    OK (mk ge (requires_grad x) (expand s (data x))
          (fun g => back x (sum_to (shape (data x)) g))).

(** [torch.distributions.utils.broadcast_all] on two tensors. *)
Definition broadcast_all (a b : FloatTensor) : G (FloatTensor * FloatTensor) :=
  match broadcast_shapes (shape (data a)) (shape (data b)) with
  | None => raiseG RuntimeError
  | Some s =>
      a' <- torch_expand s a ;;
      b' <- torch_expand s b ;;
      ret (a', b')
  end.

(** ** torch.distributions *)

Inductive Distribution : Type :=
| Categorical (logits : FloatTensor)
| Normal (loc scale : FloatTensor).

(** [Categorical(logits=logits)]: the scores are normalised in log space, by
    subtracting their log-sum-exp over the last dimension. *)
Definition Categorical_init (logits : FloatTensor) : G Distribution :=
  if (dim (data logits) <? 1)%nat then raiseG ValueError
  else
    lse <- torch_logsumexp_keep logits ;;
    normalized <- torch_sub logits lse ;;
    ret (Categorical normalized).

(** [Normal(loc, scale)]: both are broadcast to one shape, and the scale is
    checked to be positive. *)
Definition Normal_init (loc scale : FloatTensor) : G Distribution :=
  ls <- broadcast_all loc scale ;;
  if tall (Rltb 0) (data (snd ls)) then ret (Normal (fst ls) (snd ls))
  else raiseG ValueError.

(** [Distribution._validate_sample], the shape part: the shape of the value
    and the batch shape are compared from the last dimension backwards. *)
Definition shapes_compatible (actual expected : list nat) : bool :=
  forallb (fun ij => negb (negb (fst ij =? 1)%nat && negb (snd ij =? 1)%nat
                           && negb (fst ij =? snd ij)%nat))
    (combine (rev actual) (rev expected)).

(** [constraints.integer_interval(lo, hi).check]. *)
Definition in_integer_interval (lo hi : Z) (x : R) : bool :=
  Reqb (IZR (Zfloor x)) x && Rleb (IZR lo) x && Rleb x (IZR hi).

(** [Tensor.long()] on one entry: truncation towards zero. *)
Definition Rtrunc (x : R) : Z := if Rleb 0 x then Zfloor x else Zceil x.

Definition Categorical_log_prob (logits value : FloatTensor) : G FloatTensor :=
  fun ge =>
    let n := last_dim (data logits) in
    let batch_shape := batch_shape_of (data logits) in
    if negb (shapes_compatible (shape (data value)) batch_shape)
    then Raise ValueError
    else if negb (tall (in_integer_interval 0 (Z.of_nat n - 1)) (data value))
    then Raise ValueError
    else
      let index := tmap Rtrunc (data value) in
      match broadcast_shapes (shape index) batch_shape with
      | None => Raise RuntimeError
      | Some sb =>
          let index := expand sb index in
          let log_pmf := expand (sb ++ [n]) (data logits) in
          let gathered :=
            if (n =? 0)%nat then zeros (sb ++ [0%nat])
            else tzip gather_row (to_rows log_pmf) index in
          OK (mk ge (requires_grad logits) gathered
                (fun g =>
                   back logits
                     (sum_to (shape (data logits))
                        (of_rows n (tzip (one_hot n) index g)))))
      end.

Definition Normal_log_prob (loc scale value : FloatTensor) : G FloatTensor :=
  if negb (shapes_compatible (shape (data value)) (shape (data loc)))
  then raiseG ValueError
  else
    var <- torch_pow2 scale ;;
    log_scale <- torch_log scale ;;
    diff <- torch_sub value loc ;;
    sq <- torch_pow2 diff ;;
    nsq <- torch_neg sq ;;
    var2 <- torch_rmul 2 var ;;
    quot <- torch_div nsq var2 ;;
    rest <- torch_sub quot log_scale ;;
    torch_sub_const (ln (sqrt (2 * PI))) rest.

Definition log_prob (d : Distribution) (value : FloatTensor) : G FloatTensor :=
  match d with
  | Categorical logits => Categorical_log_prob logits value
  | Normal loc scale => Normal_log_prob loc scale value
  end.

(** ** Parameters, networks and the optimizer *)

Record nn_Parameter : Type := {
  p_data : tensor R;
  p_grad : option (tensor R)
}.

(** A parameter seen as a tensor: a leaf of the graph that always requires
    grad and accumulates what reaches it, reduced to its own shape as the
    autograd engine does for every gradient it hands over. *)
Definition as_tensor (r : ParamRef) (p : nn_Parameter) : FloatTensor :=
  {| data := p_data p;
     grad_fn := Some (fun g => [(r, sum_to (shape (p_data p)) g)]) |}.

(** A network as [build_mlp] returns it: its parameters, the function it
    computes from the values of its parameters and an input, and the
    backward function of that computation, which maps a gradient of the
    output to one gradient per parameter. *)
Record Module : Type := {
  parameters : list nn_Parameter;
  fwd : list (tensor R) -> tensor R -> Res (tensor R);
  bwd : list (tensor R) -> tensor R -> tensor R -> list (tensor R)
}.

Definition Module_call (ref : nat -> ParamRef) (net : Module)
  (x : FloatTensor) : G FloatTensor :=
  fun ge =>
    let w := map p_data (parameters net) in
    match fwd net w (data x) with
    | Raise e => Raise e
    | OK y =>
        OK (mk ge (negb (length w =? 0)%nat) y
              (fun g => combine (map ref (seq 0 (length w)))
                          (bwd net w (data x) g)))
    end.

Record AdamState : Type := {
  step : nat;
  exp_avg : tensor R;
  exp_avg_sq : tensor R
}.

Record Adam : Type := {
  params : list ParamRef;
  lr : R;
  beta1 : R;
  beta2 : R;
  eps : R;
  state : list (ParamRef * AdamState)
}.

(** [optim.Adam(parameters, learning_rate)] with the defaults
    betas = (0.9, 0.999) and eps = 1e-8. *)
Definition Adam_init (parameters : list ParamRef) (learning_rate : R)
  : Res Adam :=
  if Rltb learning_rate 0 then Raise ValueError
  else
    match parameters with
    | [] => Raise ValueError
    | _ =>
        OK {| params := parameters; lr := learning_rate;
              beta1 := 9 / 10; beta2 := 999 / 1000; eps := / 10 ^ 8;
              state := [] |}
    end.

Fixpoint lookup_state (r : ParamRef) (l : list (ParamRef * AdamState))
  : option AdamState :=
  match l with
  | [] => None
  | (r', s) :: l' => if ParamRef_eqb r r' then Some s else lookup_state r l'
  end.

Fixpoint store_state (r : ParamRef) (s : AdamState)
  (l : list (ParamRef * AdamState)) : list (ParamRef * AdamState) :=
  match l with
  | [] => [(r, s)]
  | (r', s') :: l' =>
      if ParamRef_eqb r r' then (r, s) :: l' else (r', s') :: store_state r s l'
  end.

(** One Adam step on one parameter with gradient [grad]; returns the new
    value of the parameter and its new optimizer state. *)
Definition adam_update (o : Adam) (st : AdamState) (param grad : tensor R)
  : tensor R * AdamState :=
  let step_t := S (step st) in
  let exp_avg' :=
    tzip (fun m g => m + (1 - beta1 o) * (g - m)) (exp_avg st) grad in
  let exp_avg_sq' :=
    tzip (fun v g => beta2 o * v + (1 - beta2 o) * (g * g))
      (exp_avg_sq st) grad in
  let bias_correction1 := 1 - beta1 o ^ step_t in
  let bias_correction2 := 1 - beta2 o ^ step_t in
  let step_size := lr o / bias_correction1 in
  let bias_correction2_sqrt := sqrt bias_correction2 in
  let denom :=
    tmap (fun v => sqrt v / bias_correction2_sqrt + eps o) exp_avg_sq' in
  (tzip (fun p u => p - step_size * u) param (tzip Rdiv exp_avg' denom),
   {| step := step_t; exp_avg := exp_avg'; exp_avg_sq := exp_avg_sq' |}).

(** ** The policy object *)

Record MLPPolicy : Type := {
  logits_net : option Module;
  mean_net : option Module;
  logstd : option nn_Parameter;
  optimizer : Adam;
  discrete : bool
}.

(** The random number generator of torch, as the streams of standard normal
    and of unit exponential draws it will produce, and the position in
    them. *)
Record Generator : Type := {
  normal_draws : nat -> R;
  exponential_draws : nat -> R;
  offset : nat
}.

Record World : Type := {
  self : MLPPolicy;
  grad_enabled : bool;
  default_generator : Generator
}.

Definition M (A : Type) : Type := World -> Res A * World.

#[global] Instance M_Monad : Monad M :=
  {| ret := fun A a w => (OK a, w);
     bind := fun A B (m : M A) (f : A -> M B) w =>
               match m w with
               | (OK a, w') => f a w'
               | (Raise e, w') => (Raise e, w')
               end |}.

Definition raise {A} (e : exn) : M A := fun w => (Raise e, w).
Definition liftG {A} (m : G A) : M A := fun w => (m (grad_enabled w), w).
Definition liftR {A} (m : Res A) : M A := fun w => (m, w).
Definition get_self : M MLPPolicy := fun w => (OK (self w), w).
Definition put_self (p : MLPPolicy) : M unit :=
  fun w => (OK tt, {| self := p; grad_enabled := grad_enabled w;
                      default_generator := default_generator w |}).

(** Reading an attribute that [__init__] may not have set. *)
Definition attr {A} (a : option A) : M A :=
  match a with
  | Some x => ret x
  | None => raise AttributeError
  end.

(** [torch.no_grad()]: grad mode is off inside and restored on the way out,
    also when the body raises. *)
Definition no_grad {A} (m : M A) : M A :=
  fun w =>
    let prev := grad_enabled w in
    let rw := m {| self := self w; grad_enabled := false;
                   default_generator := default_generator w |} in
    (fst rw, {| self := self (snd rw); grad_enabled := prev;
                default_generator := default_generator (snd rw) |}).

(** *** Parameters through references *)

Fixpoint list_set {A} (l : list A) (i : nat) (x : A) : list A :=
  match l, i with
  | [], _ => []
  | _ :: l', O => x :: l'
  | y :: l', S i' => y :: list_set l' i' x
  end.

Definition module_get (m : option Module) (i : nat) : option nn_Parameter :=
  match m with
  | Some net => nth_error (parameters net) i
  | None => None
  end.

Definition module_set (m : option Module) (i : nat) (v : nn_Parameter)
  : option Module :=
  match m with
  | Some net =>
      Some {| parameters := list_set (parameters net) i v;
              fwd := fwd net; bwd := bwd net |}
  | None => None
  end.

Definition get_param (p : MLPPolicy) (r : ParamRef) : option nn_Parameter :=
  match r with
  | Ref_logstd => logstd p
  | Ref_logits_net i => module_get (logits_net p) i
  | Ref_mean_net i => module_get (mean_net p) i
  end.

Definition set_param (p : MLPPolicy) (r : ParamRef) (v : nn_Parameter)
  : MLPPolicy :=
  match r with
  | Ref_logstd =>
      {| logits_net := logits_net p; mean_net := mean_net p;
         logstd := match logstd p with Some _ => Some v | None => None end;
         optimizer := optimizer p; discrete := discrete p |}
  | Ref_logits_net i =>
      {| logits_net := module_set (logits_net p) i v; mean_net := mean_net p;
         logstd := logstd p; optimizer := optimizer p;
         discrete := discrete p |}
  | Ref_mean_net i =>
      {| logits_net := logits_net p; mean_net := module_set (mean_net p) i v;
         logstd := logstd p; optimizer := optimizer p;
         discrete := discrete p |}
  end.

Definition set_optimizer (p : MLPPolicy) (o : Adam) : MLPPolicy :=
  {| logits_net := logits_net p; mean_net := mean_net p; logstd := logstd p;
     optimizer := o; discrete := discrete p |}.

(** *** [optimizer.zero_grad()], [loss.backward()], [optimizer.step()] *)

Definition clear_grad (p : MLPPolicy) (r : ParamRef) : MLPPolicy :=
  match get_param p r with
  | Some v => set_param p r {| p_data := p_data v; p_grad := None |}
  | None => p
  end.

Definition optimizer_zero_grad : M unit :=
  self <- get_self ;;
  put_self (fold_left clear_grad (params (optimizer self)) self).

Definition accumulate (p : MLPPolicy) (c : ParamRef * tensor R) : MLPPolicy :=
  match get_param p (fst c) with
  | Some v =>
      set_param p (fst c)
        {| p_data := p_data v;
           p_grad := Some match p_grad v with
                          | None => snd c
                          | Some g0 => tzip Rplus g0 (snd c)
                          end |}
  | None => p
  end.

Definition backward (loss : FloatTensor) : M unit :=
  match grad_fn loss with
  | None => raise RuntimeError
  | Some node =>
      if (dim (data loss) =? 0)%nat then
        self <- get_self ;;
        put_self (fold_left accumulate (node (Scalar 1)) self)
      else raise RuntimeError
  end.

Definition adam_step_param (p : MLPPolicy) (r : ParamRef) : MLPPolicy :=
  match get_param p r with
  | None => p
  | Some v =>
      match p_grad v with
      | None => p
      | Some grad =>
          let o := optimizer p in
          let st :=
            match lookup_state r (state o) with
            | Some st => st
            | None => {| step := 0;
                         exp_avg := tmap (fun _ => 0) (p_data v);
                         exp_avg_sq := tmap (fun _ => 0) (p_data v) |}
            end in
          let new := adam_update o st (p_data v) grad in
          set_optimizer
            (set_param p r {| p_data := fst new; p_grad := Some grad |})
            {| params := params o; lr := lr o; beta1 := beta1 o;
               beta2 := beta2 o; eps := eps o;
               state := store_state r (snd new) (state o) |}
      end
  end.

Definition optimizer_step : M unit :=
  self <- get_self ;;
  put_self (fold_left adam_step_param (params (optimizer self)) self).

(** *** Sampling *)

(** A tensor of shape [s] of fresh draws, taken in row-major order. *)
Definition draw (stream : Generator -> nat -> R) (s : list nat)
  : M (tensor R) :=
  fun w =>
    let g := default_generator w in
    let n := numel_of s in
    (OK (reshape s 0 (map (stream g) (seq (offset g) n))),
     {| self := self w; grad_enabled := grad_enabled w;
        default_generator :=
          {| normal_draws := normal_draws g;
             exponential_draws := exponential_draws g;
             offset := (offset g + n)%nat |} |}).

(** [Categorical.sample()]: one draw of [torch.multinomial] per row of the
    probabilities, which for one draw is the index of the largest
    [probs / q] with [q] unit exponential noise. *)
Definition Categorical_sample (logits : FloatTensor) : M Tensor :=
  let probs := tsoftmax (data logits) in
  if (last_dim (data logits) =? 0)%nat then raise RuntimeError
  else
    q <- draw exponential_draws (shape probs) ;;
    ret (TLong (tmap (fun row => Z.of_nat (argmax row))
                  (to_rows (tzip Rdiv probs q)))).

(** [Normal.rsample()]: [loc + eps * scale] with [eps] standard normal. *)
Definition Normal_rsample (loc scale : FloatTensor) : M Tensor :=
  eps <- draw normal_draws (shape (data loc)) ;;
  scaled <- liftG (torch_mul (plain_tensor eps) scale) ;;
  x <- liftG (torch_add loc scaled) ;;
  ret (TFloat x).

(** [Normal.sample()]: the same draw without a graph. *)
Definition Normal_sample (loc scale : FloatTensor) : M Tensor :=
  no_grad (Normal_rsample loc scale).

Definition sample (d : Distribution) : M Tensor :=
  match d with
  | Categorical logits => Categorical_sample logits
  | Normal loc scale => Normal_sample loc scale
  end.

Definition rsample (d : Distribution) : M Tensor :=
  match d with
  | Categorical _ => raise NotImplementedError
  | Normal loc scale => Normal_rsample loc scale
  end.

(** ** cs285.infrastructure.pytorch_util *)

(** Modelled from the spec: [ptu.from_numpy] and [ptu.to_numpy], which are
    not among the sources; the spec describes them as the conversion of a
    numeric array to the tensor representation and of a tensor back to a
    plain numeric array.  The tensor is a float tensor without a graph; the
    array keeps the element type of the tensor. *)
Definition from_numpy (a : ndarray) : FloatTensor :=
  match a with
  | NdFloat x => plain_tensor x
  | NdInt z => plain_tensor (tmap IZR z)
  end.

Definition to_numpy (t : Tensor) : ndarray :=
  match t with
  | TFloat x => NdFloat (data x)
  | TLong z => NdInt z
  end.

(** ** class MLPPolicy *)

Definition torch_zeros (n : Z) : Res (tensor R) :=
  if (n <? 0)%Z then Raise RuntimeError else OK (zeros [Z.to_nat n]).

Definition refs (ref : nat -> ParamRef) (net : Module) : list ParamRef :=
  map ref (seq 0 (length (parameters net))).

Section Construction.

(** [ptu.build_mlp(input_size, output_size, n_layers, size)] is not among
    the sources: the constructor is stated for any builder. *)
Variable build_mlp : Z -> Z -> Z -> Z -> Res Module.

Definition MLPPolicy__init__ (ac_dim ob_dim : Z) (discrete : bool)
  (n_layers layer_size : Z) (learning_rate : R) : Res MLPPolicy :=
  if discrete then
    logits_net <- build_mlp ob_dim ac_dim n_layers layer_size ;;
    let parameters := refs Ref_logits_net logits_net in
    optimizer <- Adam_init parameters learning_rate ;;
    ret {| logits_net := Some logits_net; mean_net := None;
           logstd := None; optimizer := optimizer;
           discrete := discrete |}
  else
    mean_net <- build_mlp ob_dim ac_dim n_layers layer_size ;;
    z <- torch_zeros ac_dim ;;
    let logstd := {| p_data := z; p_grad := None |} in
    let parameters := [Ref_logstd] ++ refs Ref_mean_net mean_net in
    optimizer <- Adam_init parameters learning_rate ;;
    ret {| logits_net := None; mean_net := Some mean_net;
           logstd := Some logstd; optimizer := optimizer;
           discrete := discrete |}.

End Construction.

Definition MLPPolicy_forward (obs : FloatTensor) : M Distribution :=
  self <- get_self ;;
  if discrete self then
    logits_net <- attr (logits_net self) ;;
    prob_action <- liftG (Module_call Ref_logits_net logits_net obs) ;;
    action_distribution <- liftG (Categorical_init prob_action) ;;
    ret action_distribution
  else
    mean_net <- attr (mean_net self) ;;
    loc <- liftG (Module_call Ref_mean_net mean_net obs) ;;
    logstd <- attr (logstd self) ;;
    scale <- liftG (torch_exp (as_tensor Ref_logstd logstd)) ;;
    action_distribution <- liftG (Normal_init loc scale) ;;
    ret action_distribution.

Definition MLPPolicy_get_action (obs : ndarray) : M ndarray :=
  no_grad (
    let obs := from_numpy obs in
    action_distribution <- MLPPolicy_forward obs ;;
    self <- get_self ;;
    action <- (if discrete self then sample action_distribution
               else rsample action_distribution) ;;
    ret (to_numpy action)).

Definition dict : Type := list (string * ndarray).

Definition MLPPolicy_update (obs actions : ndarray) (args : list ndarray)
  (kwargs : dict) : M dict :=
  raise NotImplementedError.

(** ** class MLPPolicyPG(MLPPolicy) *)

Definition MLPPolicyPG_update (obs actions advantages : ndarray) : M dict :=
  let obs := from_numpy obs in
  let actions := from_numpy actions in
  let advantages := from_numpy advantages in
  action_distribution <- MLPPolicy_forward obs ;;
  self <- get_self ;;
  log_p <- (if discrete self then
              liftG (log_prob action_distribution actions)
            else
              liftG (lp <- log_prob action_distribution actions ;;
                     torch_sum_last lp)) ;;
  loss <- liftG (weighted <- torch_mul log_p advantages ;;
                 m <- torch_mean weighted ;;
                 torch_neg m) ;;
  optimizer_zero_grad ;;
  backward loss ;;
  optimizer_step ;;
  ret [("Actor Loss"%string, to_numpy (TFloat loss))].

(** The loss of the policy-gradient step at the current parameters: lines
    106 to 119 of [MLPPolicyPG.update], up to the assignment of [loss]. *)
Definition actor_loss (obs actions advantages : ndarray) : M FloatTensor :=
  let obs := from_numpy obs in
  let actions := from_numpy actions in
  let advantages := from_numpy advantages in
  action_distribution <- MLPPolicy_forward obs ;;
  self <- get_self ;;
  log_p <- (if discrete self then
              liftG (log_prob action_distribution actions)
            else
              liftG (lp <- log_prob action_distribution actions ;;
                     torch_sum_last lp)) ;;
  liftG (weighted <- torch_mul log_p advantages ;;
         m <- torch_mean weighted ;;
         torch_neg m).

(** Method resolution: [update] of an object of either class. *)
Inductive PolicyClass : Type :=
| Class_MLPPolicy
| Class_MLPPolicyPG.

Definition update (cls : PolicyClass) (obs actions advantages : ndarray)
  : M dict :=
  match cls with
  | Class_MLPPolicy => MLPPolicy_update obs actions [advantages] []
  | Class_MLPPolicyPG => MLPPolicyPG_update obs actions advantages
  end.

(** ** An instance of the network builder

    Modelled from the spec: [ptu.build_mlp], "a generic feed-forward-network
    builder: given input size, output size, depth, and width, returns a
    differentiable function approximator".  The instance below is the
    network without hidden layers, one affine layer [y = x W^T + b] with [W]
    of shape [output_size; input_size] and [b] of shape [output_size]; it
    stands for the builder where a statement needs a concrete network.
    Deeper networks are not modelled. *)

Definition zip_with {A B C} (f : A -> B -> C) (l : list A) (r : list B)
  : list C :=
  map (fun p => f (fst p) (snd p)) (combine l r).

Definition dot (u v : list R) : R := Rsum (zip_with Rmult u v).

Definition matrix_rows (t : tensor R) : list (list R) :=
  match t with
  | Scalar _ => []
  | Stack _ ts => map flatten ts
  end.

Definition affine_row (W : list (list R)) (b : list R) (x : list R) : list R :=
  zip_with (fun wrow bj => dot wrow x + bj) W b.

Definition Linear_fwd (in_features out_features : nat)
  (w : list (tensor R)) (x : tensor R) : Res (tensor R) :=
  match w with
  | [W; b] =>
      if (dim x =? 0)%nat || negb (last_dim x =? in_features)%nat
      then Raise RuntimeError
      else OK (of_rows out_features
                 (tmap (affine_row (matrix_rows W) (flatten b)) (to_rows x)))
  | _ => Raise RuntimeError
  end.

Definition Linear_bwd (in_features out_features : nat)
  (w : list (tensor R)) (x g : tensor R) : list (tensor R) :=
  let xs := flatten (to_rows x) in
  let gs := flatten (to_rows g) in
  [ of_mat in_features
      (map (fun j =>
              map (fun k =>
                     Rsum (zip_with (fun grow xrow =>
                                       nth j grow 0 * nth k xrow 0) gs xs))
                (seq 0 in_features))
         (seq 0 out_features));
    of_vec (map (fun j => Rsum (map (fun grow => nth j grow 0) gs))
              (seq 0 out_features)) ].

Definition Linear (in_features out_features : nat) (W b : tensor R) : Module :=
  {| parameters := [ {| p_data := W; p_grad := None |};
                     {| p_data := b; p_grad := None |} ];
     fwd := Linear_fwd in_features out_features;
     bwd := Linear_bwd in_features out_features |}.

Definition build_affine (input_size output_size n_layers size : Z)
  : Res Module :=
  if ((input_size <? 0) || (output_size <? 0))%Z then Raise RuntimeError
  else if negb (n_layers =? 0)%Z then Raise NotImplementedError
  else
    let i := Z.to_nat input_size in
    let o := Z.to_nat output_size in
    OK (Linear i o (zeros [o; i]) (zeros [o])).

(** ** The quantities the specification names *)

(** The log-density of a Gaussian with mean [mu] and standard deviation
    [sigma] at [x]. *)
Definition normal_log_density (mu sigma x : R) : R :=
  - (x - mu) ^ 2 / (2 * sigma ^ 2) - ln sigma - ln (sqrt (2 * PI)).

(** The log-probability of the action in one row of a continuous batch: the
    per-dimension log-densities summed over the action dimensions. *)
Definition spec_log_p_continuous (logstd mean action : list R) : R :=
  Rsum (zip_with (fun a ms => normal_log_density (fst ms) (exp (snd ms)) a)
          action (combine mean logstd)).

(** The log-probability of the action index [a] under the categorical
    distribution with scores [scores]: the log of softmax(scores)[a]. *)
Definition spec_log_p_discrete (scores : list R) (a : Z) : R :=
  nth (Z.to_nat a) scores 0 - ln (Rsum (map exp scores)).

(** The negated mean over the batch of log-probability times advantage. *)
Definition spec_loss (log_p advantages : list R) : R :=
  - (Rsum (zip_with Rmult log_p advantages) / INR (length log_p)).

(** ** Predicates used in the statements *)

Definition all_zero (t : tensor R) : Prop :=
  Forall (fun x => x = 0) (flatten t).

Definition all_one (t : tensor R) : Prop :=
  Forall (fun x => x = 1) (flatten t).

(** The values of the parameters of a network. *)
Definition weights (net : Module) : list (tensor R) :=
  map p_data (parameters net).

(** The values of all trainable parameters of a policy. *)
Definition trainable (p : MLPPolicy) : list (option (tensor R)) :=
  map (fun r => option_map p_data (get_param p r)) (params (optimizer p)).

(** The scores of one row minus their log-sum-exp. *)
Definition normalize_row (row : list R) : list R :=
  map (fun x => x - logsumexp_row row) row.

(** [expandable st s]: a tensor of shape [st] broadcasts to the shape [s]. *)
Inductive expandable : list nat -> list nat -> Prop :=
| expandable_nil : expandable [] []
| expandable_lead st n s : expandable st s -> expandable st (n :: s)
| expandable_same m st n s :
    length st = length s -> m = n \/ m = 1%nat ->
    expandable st s -> expandable (m :: st) (n :: s).

(** A computation keeps the policy object and the grad mode. *)
Definition keeps {A} (m : M A) : Prop :=
  forall w, self (snd (m w)) = self w
            /\ grad_enabled (snd (m w)) = grad_enabled w.

(** The world after [n] draws, the next [n] draws of a stream, and the
    world with grad mode off. *)
Definition advance (n : nat) (w : World) : World :=
  {| self := self w; grad_enabled := grad_enabled w;
     default_generator :=
       {| normal_draws := normal_draws (default_generator w);
          exponential_draws := exponential_draws (default_generator w);
          offset := (offset (default_generator w) + n)%nat |} |}.

Definition draws (stream : Generator -> nat -> R) (n : nat) (w : World)
  : list R :=
  map (stream (default_generator w)) (seq (offset (default_generator w)) n).

Definition grad_off (w : World) : World :=
  {| self := self w; grad_enabled := false;
     default_generator := default_generator w |}.

Definition dist_requires_grad (d : Distribution) : bool :=
  match d with
  | Categorical logits => requires_grad logits
  | Normal loc scale => requires_grad loc || requires_grad scale
  end.

(** Lists and matrices given by their entries. *)
Definition tab {A} (n : nat) (f : nat -> A) : list A := map f (seq 0 n).

Definition tab2 {A} (B D : nat) (f : nat -> nat -> A) : list (list A) :=
  tab B (fun i => tab D (f i)).

(** A computation only reads the world. *)
Definition reads {A} (m : M A) : Prop := forall w, snd (m w) = w.

(** Two sizes of one dimension are compatible under broadcasting, and the
    size they broadcast to. *)
Definition compatb (a b : nat) : bool :=
  (a =? b)%nat || (a =? 1)%nat || (b =? 1)%nat.

Definition bdim (a b : nat) : nat :=
  if (a =? b)%nat then a else if (a =? 1)%nat then b else a.

(** Two batch sizes that differ and are both different from 1. *)
Definition clash (a b : nat) : Prop := a <> b /\ a <> 1%nat /\ b <> 1%nat.

(** A network that maps the batch [x] to a batch of [B] rows of a positive
    width, when it returns. *)
Definition batch_preserving (net : Module) (x : tensor R) (B : nat) : Prop :=
  forall y, fwd net (weights net) x = OK y ->
    exists n S, y = of_mat n S /\ length S = B
                /\ Forall (fun row => length row = n) S /\ (0 < n)%nat.

(** ** Two small policies

    A discrete policy with two actions and a continuous policy with one
    action dimension, both over one-dimensional observations and without
    hidden layer, as the constructor builds them from [build_affine]. *)

Definition quiet_generator : Generator :=
  {| normal_draws := fun _ => 0; exponential_draws := fun _ => 1;
     offset := 0 |}.

Definition demo_optimizer (ps : list ParamRef) : Adam :=
  {| params := ps; lr := / 1000; beta1 := 9 / 10; beta2 := 999 / 1000;
     eps := / 10 ^ 8; state := [] |}.

Definition demo_discrete : MLPPolicy :=
  {| logits_net := Some (Linear 1 2 (zeros [2; 1]%nat) (zeros [2%nat]));
     mean_net := None; logstd := None;
     optimizer := demo_optimizer [Ref_logits_net 0; Ref_logits_net 1];
     discrete := true |}.

Definition demo_continuous : MLPPolicy :=
  {| logits_net := None;
     mean_net := Some (Linear 1 1 (zeros [1; 1]%nat) (zeros [1%nat]));
     logstd := Some {| p_data := zeros [1%nat]; p_grad := None |};
     optimizer := demo_optimizer [Ref_logstd; Ref_mean_net 0; Ref_mean_net 1];
     discrete := false |}.

Definition world_of (p : MLPPolicy) : World :=
  {| self := p; grad_enabled := true; default_generator := quiet_generator |}.

(** ** Gradients that vanish

    What the statements about an update with zero advantages speak of: a
    backward pass that hands only zero tensors to the parameters, and an
    optimizer whose first-moment estimates are zero. *)









(** Two policy objects hold the same parameter values. *)
Definition same_data (p q : MLPPolicy) : Prop :=
  forall r,
    option_map p_data (get_param q r) = option_map p_data (get_param p r).


(** ** What an update keeps

    The world with another policy object, a policy whose parameter [r]
    holds another gradient, and the part of a policy that no method
    assigns after construction. *)

Definition with_self (w : World) (p : MLPPolicy) : World :=
  {| self := p; grad_enabled := grad_enabled w;
     default_generator := default_generator w |}.

Definition set_grad (p : MLPPolicy) (r : ParamRef) (g : option (tensor R))
  : MLPPolicy :=
  match get_param p r with
  | Some v => set_param p r {| p_data := p_data v; p_grad := g |}
  | None => p
  end.

(** The functions of a network and the number of its parameters. *)
Record Layout : Type := {
  layout_fwd : list (tensor R) -> tensor R -> Res (tensor R);
  layout_bwd : list (tensor R) -> tensor R -> tensor R -> list (tensor R);
  layout_size : nat
}.

Definition layout_of (net : Module) : Layout :=
  {| layout_fwd := fwd net; layout_bwd := bwd net;
     layout_size := length (parameters net) |}.

(** The mode, the networks, the presence of logstd, and the parameter list
    and hyperparameters of the optimizer. *)
Record Architecture : Type := {
  arch_discrete : bool;
  arch_logits_net : option Layout;
  arch_mean_net : option Layout;
  arch_logstd : bool;
  arch_params : list ParamRef;
  arch_lr : R;
  arch_betas : R * R;
  arch_eps : R
}.

Definition architecture (p : MLPPolicy) : Architecture :=
  {| arch_discrete := discrete p;
     arch_logits_net := option_map layout_of (logits_net p);
     arch_mean_net := option_map layout_of (mean_net p);
     arch_logstd := match logstd p with Some _ => true | None => false end;
     arch_params := params (optimizer p);
     arch_lr := lr (optimizer p);
     arch_betas := (beta1 (optimizer p), beta2 (optimizer p));
     arch_eps := eps (optimizer p) |}.

(** Two networks, where present, compute the same functions from the same
    parameter values; two policies look the same to [forward]. *)
Definition same_net (a b : option Module) : Prop :=
  match a, b with
  | Some n', Some n =>
      fwd n' = fwd n /\ bwd n' = bwd n
      /\ map p_data (parameters n') = map p_data (parameters n)
  | None, None => True
  | _, _ => False
  end.

Definition same_view (p p' : MLPPolicy) : Prop :=
  discrete p' = discrete p
  /\ same_net (logits_net p') (logits_net p)
  /\ same_net (mean_net p') (mean_net p)
  /\ option_map p_data (logstd p') = option_map p_data (logstd p).

(** The exceptions that torch itself raises on the way to the loss, and a
    computation that raises no other. *)
Definition torch_error (e : exn) : Prop := e = ValueError \/ e = RuntimeError.

Definition raises_torch {A} (m : G A) : Prop :=
  forall ge e, m ge = Raise e -> torch_error e.

(** * Properties *)


Lemma Rltb_true x y : x < y -> Rltb x y = true.
Proof. intros H. unfold Rltb. destruct (Rlt_dec x y); [reflexivity | contradiction]. Qed.

Lemma Rltb_false x y : ~ x < y -> Rltb x y = false.
Proof. intros H. unfold Rltb. destruct (Rlt_dec x y); [contradiction | reflexivity]. Qed.

Lemma Rleb_true x y : x <= y -> Rleb x y = true.
Proof. intros H. unfold Rleb. destruct (Rle_dec x y); [reflexivity | contradiction]. Qed.

Lemma Reqb_refl x : Reqb x x = true.
Proof. unfold Reqb. destruct (Req_dec_T x x); [reflexivity | contradiction]. Qed.

Lemma Rtrunc_IZR z : Rtrunc (IZR z) = z.
Proof.
  unfold Rtrunc, Zceil. destruct (Rleb 0 (IZR z)).
  - apply ZfloorZ.
  - rewrite <- opp_IZR, ZfloorZ. lia.
Qed.

Lemma in_integer_interval_IZR lo hi z :
  (lo <= z <= hi)%Z -> in_integer_interval lo hi (IZR z) = true.
Proof.
  intros [H1 H2]. unfold in_integer_interval.
  rewrite ZfloorZ, Reqb_refl, !Rleb_true; auto using IZR_le.
Qed.

(* of_vec / of_mat *)
Lemma shape_of_vec {A} (v : list A) : shape (of_vec v) = [length v].
Proof. unfold of_vec; simpl. now rewrite length_map. Qed.

Lemma shape_of_mat {A} n (m : list (list A)) : shape (of_mat n m) = [length m; n].
Proof. unfold of_mat; simpl. now rewrite length_map. Qed.

Lemma tmap_of_vec {A B} (f : A -> B) v : tmap f (of_vec v) = of_vec (map f v).
Proof. unfold of_vec; simpl. f_equal. rewrite !map_map. reflexivity. Qed.

Lemma tmap_of_mat {A B} (f : A -> B) n m :
  tmap f (of_mat n m) = of_mat n (map (map f) m).
Proof.
  unfold of_mat; simpl. f_equal. rewrite !map_map.
  apply map_ext. intros. apply tmap_of_vec.
Qed.

Lemma flatten_of_vec {A} (v : list A) : flatten (of_vec v) = v.
Proof. unfold of_vec; simpl. induction v; simpl; congruence. Qed.

Lemma flatten_of_mat {A} n (m : list (list A)) : flatten (of_mat n m) = concat m.
Proof.
  unfold of_mat. cbn [flatten]. rewrite flat_map_concat_map, map_map. f_equal.
  rewrite <- (map_id m) at 2. apply map_ext. intros; apply flatten_of_vec.
Qed.

Lemma tzip_of_vec {A B C} (f : A -> B -> C) u v :
  tzip f (of_vec u) (of_vec v) = of_vec (zip_with f u v).
Proof.
  unfold of_vec, zip_with; simpl. f_equal.
  revert v; induction u; intros [|y v]; simpl; try reflexivity.
  now rewrite IHu.
Qed.

Lemma tzip_of_mat {A B C} (f : A -> B -> C) n n' u v :
  tzip f (of_mat n u) (of_mat n' v) = of_mat n (zip_with (zip_with f) u v).
Proof.
  unfold of_mat, zip_with; simpl. f_equal.
  revert v; induction u; intros [|y v]; simpl; try reflexivity.
  rewrite IHu. f_equal. apply tzip_of_vec.
Qed.


(** Induction on tensors *)
Lemma tensor_induction {A} (P : tensor A -> Prop) :
  (forall x, P (Scalar x)) ->
  (forall s ts, Forall P ts -> P (Stack s ts)) ->
  forall t, P t.
Proof.
  intros HS HK. fix IH 1. intros [x | s ts].
  - apply HS.
  - apply HK. induction ts as [|t ts IHts]; constructor; [apply IH | exact IHts].
Qed.

Lemma wf_Stack {A} s (ts : list (tensor A)) :
  wf (Stack s ts) <-> Forall (fun t => wf t /\ shape t = s) ts.
Proof.
  cbn [wf]. induction ts as [|t ts IH]; split; intros H.
  - constructor.
  - exact I.
  - destruct H as [H1 H2]. constructor; [exact H1 | now apply IH].
  - inversion H; subst. split; [assumption | now apply IH].
Qed.

Lemma wf_of_vec {A} (v : list A) : wf (of_vec v).
Proof.
  unfold of_vec. apply wf_Stack. apply Forall_forall. intros t Ht.
  apply in_map_iff in Ht as [x [<- _]]. split; [exact I | reflexivity].
Qed.

Lemma wf_of_mat {A} n (m : list (list A)) :
  Forall (fun row => length row = n) m -> wf (of_mat n m).
Proof.
  intros H. unfold of_mat. apply wf_Stack. apply Forall_forall. intros t Ht.
  apply in_map_iff in Ht as [row [<- Hin]]. split; [apply wf_of_vec|].
  rewrite shape_of_vec. rewrite Forall_forall in H. now rewrite (H _ Hin).
Qed.

Lemma shape_tmap {A B} (f : A -> B) t : shape (tmap f t) = shape t.
Proof. destruct t; simpl; [reflexivity | now rewrite length_map]. Qed.

Lemma wf_tmap {A B} (f : A -> B) t : wf t -> wf (tmap f t).
Proof.
  induction t as [x | s ts IH] using tensor_induction; intros H; [exact I|].
  cbn [tmap]. apply wf_Stack. apply wf_Stack in H.
  apply Forall_forall. intros t Ht. apply in_map_iff in Ht as [u [<- Hin]].
  rewrite Forall_forall in IH, H. destruct (H _ Hin) as [H1 H2].
  split; [now apply IH | now rewrite shape_tmap].
Qed.

Lemma shape_full {A} s (x : A) : shape (full s x) = s.
Proof. destruct s; simpl; [reflexivity | now rewrite repeat_length]. Qed.

Lemma wf_full {A} s (x : A) : wf (full s x).
Proof.
  induction s as [|n s IH]; [exact I|]. cbn [full]. apply wf_Stack.
  apply Forall_forall. intros t Ht. apply repeat_spec in Ht; subst.
  split; [exact IH | apply shape_full].
Qed.

(** tzip on tensors of the same shape *)
Lemma tzip_Stack {A B C} (f : A -> B -> C) s s' ts us :
  tzip f (Stack s ts) (Stack s' us) =
  Stack s (zip_with (tzip f) ts us).
Proof.
  cbn [tzip]. f_equal. unfold zip_with.
  revert us; induction ts as [|t ts IH]; intros [|u us]; simpl; try reflexivity.
  now rewrite IH.
Qed.

Lemma length_zip_with {A B C} (f : A -> B -> C) l r :
  length (zip_with f l r) = Nat.min (length l) (length r).
Proof. unfold zip_with. now rewrite length_map, length_combine. Qed.

Lemma wf_shape_tzip {A B C} (f : A -> B -> C) a b :
  wf a -> wf b -> shape a = shape b ->
  wf (tzip f a b) /\ shape (tzip f a b) = shape a.
Proof.
  revert b. induction a as [x | s ts IH] using tensor_induction;
    intros [y | s' us] Ha Hb Hs; try discriminate.
  - split; [exact I | reflexivity].
  - rewrite tzip_Stack. simpl in Hs. injection Hs as Hl Hs. subst s'.
    apply wf_Stack in Ha, Hb.
    split.
    + apply wf_Stack. apply Forall_forall. intros v Hv.
      unfold zip_with in Hv. apply in_map_iff in Hv as [[t u] [<- Hin]].
      pose proof (in_combine_l _ _ _ _ Hin) as Ht.
      pose proof (in_combine_r _ _ _ _ Hin) as Hu.
      rewrite Forall_forall in IH, Ha, Hb.
      destruct (Ha _ Ht) as [Hwt Hst]. destruct (Hb _ Hu) as [Hwu Hsu].
      cbn [fst snd].
      destruct (IH t Ht u Hwt Hwu) as [Hw Hsh]; [congruence|].
      split; [exact Hw | congruence].
    + cbn. rewrite length_zip_with. simpl in Hl. rewrite <- Hl. now rewrite Nat.min_id.
Qed.


Lemma tmap_full {A B} (f : A -> B) s x : tmap f (full s x) = full s (f x).
Proof.
  induction s as [|n s IH]; [reflexivity|].
  cbn [full tmap]. f_equal. rewrite map_repeat. now rewrite IH.
Qed.

(** expand at the own shape is the identity *)
Lemma dim_Stack {A} s (ts : list (tensor A)) : dim (Stack s ts) = S (length s).
Proof. reflexivity. Qed.

Lemma expand_Stack {A} n s' s0 (ts : list (tensor A)) :
  length s0 = length s' -> length ts = n ->
  expand (n :: s') (Stack s0 ts) = Stack s' (map (expand s') ts).
Proof.
  intros Hs Hn. cbn [expand]. rewrite dim_Stack, Hs.
  cbn [length]. rewrite Nat.ltb_irrefl.
  destruct ts as [|t [|u ts]]; try reflexivity.
  simpl in Hn. subst n. reflexivity.
Qed.

Lemma expand_same {A} (t : tensor A) :
  wf t -> expand (shape t) t = t.
Proof.
  induction t as [x | s ts IH] using tensor_induction; intros H; [reflexivity|].
  cbn [shape]. rewrite expand_Stack; auto. f_equal.
  apply wf_Stack in H. rewrite <- (map_id ts) at 2.
  apply map_ext_in. intros t Ht. rewrite Forall_forall in IH, H.
  destruct (H _ Ht) as [Hw Hs]. rewrite <- Hs. now apply IH.
Qed.


Lemma expandable_length a s : expandable a s -> (length a <= length s)%nat.
Proof. induction 1; simpl; lia. Qed.

Lemma wf_expand {A} s : forall t : tensor A,
  wf t -> expandable (shape t) s ->
  wf (expand s t) /\ shape (expand s t) = s.
Proof.
  induction s as [|n s' IH]; intros t Hw He.
  - inversion He as [Hs| |]. destruct t; [split; [exact I|reflexivity] | discriminate].
  - cbn [expand]. destruct (Nat.ltb_spec (dim t) (length (n :: s'))) as [Hlt|Hge].
    + assert (He' : expandable (shape t) s').
      { inversion He as [| st n0 s0 He'| m st n0 s0 Hl Hm He' Hst]; subst;
          [assumption|].
        unfold dim in Hlt. rewrite <- Hst in Hlt. simpl in Hlt. lia. }
      destruct (IH t Hw He') as [Hw' Hs'].
      split.
      * apply wf_Stack. apply Forall_forall. intros u Hu.
        apply repeat_spec in Hu; subst. now split.
      * simpl. now rewrite repeat_length.
    + inversion He as [| st n0 s0 He'| m st n0 s0 Hl Hm He' Hst]; subst.
      * apply expandable_length in He'. unfold dim in Hge. simpl in Hge. lia.
      * destruct t as [x | s0 ts]; [discriminate|].
        simpl in Hst. injection Hst as Hm' Hs0. subst s0.
        apply wf_Stack in Hw.
        assert (Hall : forall u, In u ts ->
                  wf (expand s' u) /\ shape (expand s' u) = s').
        { intros u Hu. rewrite Forall_forall in Hw. destruct (Hw _ Hu) as [Hwu Hsu].
          apply IH; [exact Hwu | now rewrite Hsu]. }
        destruct ts as [|t0 [|t1 ts]].
        -- simpl in Hm'. subst m. destruct Hm as [<- | Hm]; [|discriminate].
           split; [apply wf_Stack; constructor | reflexivity].
        -- split.
           ++ apply wf_Stack. apply Forall_forall. intros u Hu.
              apply repeat_spec in Hu; subst. apply Hall. now left.
           ++ simpl. now rewrite repeat_length.
        -- simpl in Hm'. destruct Hm as [Hm | Hm]; [|subst m; discriminate].
           split.
           ++ apply wf_Stack. apply Forall_forall. intros u Hu.
              apply in_map_iff in Hu as [v [<- Hv]]. now apply Hall.
           ++ cbn [shape]. rewrite length_map. simpl. f_equal. lia.
Qed.

Lemma broadcast_dims_length a b s :
  broadcast_dims a b = Some s -> length a = length s /\ length b = length s.
Proof.
  revert b s. induction a as [|x a IH]; intros [|y b] s H; simpl in H; try discriminate.
  - injection H as <-. now split.
  - destruct (broadcast_dims a b) as [r|] eqn:E; [|discriminate].
    destruct (IH _ _ E) as [H1 H2].
    destruct (x =? y)%nat; [injection H as <-; simpl; lia|].
    destruct (x =? 1)%nat; [injection H as <-; simpl; lia|].
    destruct (y =? 1)%nat; [injection H as <-; simpl; lia|discriminate].
Qed.

Lemma broadcast_dims_expandable_l a b s :
  broadcast_dims a b = Some s -> expandable a s.
Proof.
  revert b s. induction a as [|x a IH]; intros [|y b] s H; simpl in H; try discriminate.
  - injection H as <-. constructor.
  - destruct (broadcast_dims a b) as [r|] eqn:E; [|discriminate].
    destruct (broadcast_dims_length _ _ _ E) as [H1 H2].
    pose proof (IH _ _ E) as He.
    destruct (x =? y)%nat eqn:Exy;
      [apply Nat.eqb_eq in Exy; injection H as <-; apply expandable_same; auto|].
    destruct (x =? 1)%nat eqn:Ex1;
      [apply Nat.eqb_eq in Ex1; injection H as <-; apply expandable_same; auto|].
    destruct (y =? 1)%nat eqn:Ey1;
      [apply Nat.eqb_eq in Ey1; injection H as <-; apply expandable_same; auto|discriminate].
Qed.

Lemma broadcast_dims_expandable_r a b s :
  broadcast_dims a b = Some s -> expandable b s.
Proof.
  revert b s. induction a as [|x a IH]; intros [|y b] s H; simpl in H; try discriminate.
  - injection H as <-. constructor.
  - destruct (broadcast_dims a b) as [r|] eqn:E; [|discriminate].
    destruct (broadcast_dims_length _ _ _ E) as [H1 H2].
    pose proof (IH _ _ E) as He.
    destruct (x =? y)%nat eqn:Exy;
      [apply Nat.eqb_eq in Exy; injection H as <-; apply expandable_same; auto|].
    destruct (x =? 1)%nat eqn:Ex1;
      [apply Nat.eqb_eq in Ex1; injection H as <-; apply expandable_same; auto|].
    destruct (y =? 1)%nat eqn:Ey1;
      [apply Nat.eqb_eq in Ey1; injection H as <-; apply expandable_same; auto|discriminate].
Qed.

Lemma expandable_pad_l k a b s :
  broadcast_dims (repeat 1%nat k ++ a) b = Some s -> expandable a s.
Proof.
  revert b s. induction k as [|k IH]; intros b s H.
  - now apply broadcast_dims_expandable_l in H.
  - destruct b as [|y b]; simpl in H; [discriminate|].
    destruct (broadcast_dims (repeat 1%nat k ++ a) b) as [r|] eqn:E; [|discriminate].
    pose proof (IH _ _ E) as He.
    cbn [Nat.eqb] in H.
    destruct y as [|[|y]]; injection H as <-; now apply expandable_lead.
Qed.

Lemma expandable_pad_r k a b s :
  broadcast_dims a (repeat 1%nat k ++ b) = Some s -> expandable b s.
Proof.
  revert a s. induction k as [|k IH]; intros a s H.
  - now apply broadcast_dims_expandable_r in H.
  - destruct a as [|x a]; simpl in H; [discriminate|].
    destruct (broadcast_dims a (repeat 1%nat k ++ b)) as [r|] eqn:E; [|discriminate].
    pose proof (IH _ _ E) as He.
    destruct (x =? 1)%nat eqn:Ex1.
    + apply Nat.eqb_eq in Ex1. subst x. injection H as <-.
      now apply expandable_lead.
    + cbn [Nat.eqb] in H. injection H as <-. now apply expandable_lead.
Qed.

Lemma broadcast_shapes_expandable a b s :
  broadcast_shapes a b = Some s -> expandable a s /\ expandable b s.
Proof.
  unfold broadcast_shapes, pad_shape. intros H. split.
  - eapply expandable_pad_l; eauto.
  - eapply expandable_pad_r; eauto.
Qed.

Lemma broadcast_dims_same s : broadcast_dims s s = Some s.
Proof.
  induction s as [|n s IH]; [reflexivity|]. simpl. rewrite IH.
  now rewrite Nat.eqb_refl.
Qed.

Lemma broadcast_shapes_same s : broadcast_shapes s s = Some s.
Proof.
  unfold broadcast_shapes, pad_shape. rewrite Nat.max_id, Nat.sub_diag. simpl.
  apply broadcast_dims_same.
Qed.


(** Stepping through the monads *)
Lemma bindG_OK {A B} (m : G A) (k : A -> G B) ge a :
  m ge = OK a -> (x <- m ;; k x) ge = k a ge.
Proof. intros H. cbn. now rewrite H. Qed.

Lemma bindG_Raise {A B} (m : G A) (k : A -> G B) ge e :
  m ge = Raise e -> (x <- m ;; k x) ge = Raise e.
Proof. intros H. cbn. now rewrite H. Qed.

Lemma bindM_OK {A B} (m : M A) (k : A -> M B) w a w' :
  m w = (OK a, w') -> (x <- m ;; k x) w = k a w'.
Proof. intros H. cbn. now rewrite H. Qed.

Lemma bindM_Raise {A B} (m : M A) (k : A -> M B) w e w' :
  m w = (Raise e, w') -> (x <- m ;; k x) w = (Raise e, w').
Proof. intros H. cbn. now rewrite H. Qed.

Lemma liftG_OK {A} (m : G A) w a :
  m (grad_enabled w) = OK a -> liftG m w = (OK a, w).
Proof. intros H. unfold liftG. now rewrite H. Qed.

Lemma liftG_Raise {A} (m : G A) w e :
  m (grad_enabled w) = Raise e -> liftG m w = (Raise e, w).
Proof. intros H. unfold liftG. now rewrite H. Qed.

(** Results of the tensor operations *)
Lemma requires_grad_mk ge req d n : requires_grad (mk ge req d n) = ge && req.
Proof. unfold requires_grad, mk; simpl. now destruct (ge && req). Qed.

Lemma data_mk ge req d n : data (mk ge req d n) = d.
Proof. reflexivity. Qed.

Lemma binop_OK f dfa dfb a b ge s :
  wf (data a) -> wf (data b) ->
  broadcast_shapes (shape (data a)) (shape (data b)) = Some s ->
  exists t, binop f dfa dfb a b ge = OK t
    /\ data t = tzip f (expand s (data a)) (expand s (data b))
    /\ wf (data t) /\ shape (data t) = s
    /\ requires_grad t = ge && (requires_grad a || requires_grad b).
Proof.
  intros Ha Hb Hs. unfold binop. rewrite Hs.
  eexists. split; [reflexivity|]. rewrite data_mk, requires_grad_mk.
  destruct (broadcast_shapes_expandable _ _ _ Hs) as [Ea Eb].
  destruct (wf_expand s _ Ha Ea) as [Wa Sa].
  destruct (wf_expand s _ Hb Eb) as [Wb Sb].
  destruct (wf_shape_tzip f _ _ Wa Wb) as [W S]; [congruence|].
  repeat split; auto. congruence.
Qed.

Lemma binop_same f dfa dfb a b ge :
  wf (data a) -> wf (data b) -> shape (data a) = shape (data b) ->
  exists t, binop f dfa dfb a b ge = OK t
    /\ data t = tzip f (data a) (data b)
    /\ requires_grad t = ge && (requires_grad a || requires_grad b).
Proof.
  intros Ha Hb Hs.
  destruct (binop_OK f dfa dfb a b ge (shape (data a)) Ha Hb) as [t [H1 [H2 [_ [_ H3]]]]].
  { rewrite <- Hs. apply broadcast_shapes_same. }
  exists t. repeat split; auto. rewrite H2.
  rewrite expand_same by assumption. rewrite Hs. now rewrite expand_same.
Qed.

Lemma binop_Raise f dfa dfb a b ge :
  broadcast_shapes (shape (data a)) (shape (data b)) = None ->
  binop f dfa dfb a b ge = Raise RuntimeError.
Proof. intros H. unfold binop. now rewrite H. Qed.

Lemma unop_OK f df x ge :
  exists t, unop f df x ge = OK t
    /\ data t = tmap f (data x)
    /\ requires_grad t = ge && requires_grad x.
Proof.
  unfold unop. eexists. split; [reflexivity|].
  now rewrite data_mk, requires_grad_mk.
Qed.


(** Lists *)
Lemma zip_with_map_r {A B C} (f : A -> B -> C) (g : A -> B) l :
  zip_with f l (map g l) = map (fun x => f x (g x)) l.
Proof. unfold zip_with. induction l; simpl; [reflexivity | now rewrite IHl]. Qed.

Lemma zip_with_repeat_r {A B C} (f : A -> B -> C) l c :
  zip_with f l (repeat c (length l)) = map (fun x => f x c) l.
Proof. unfold zip_with. induction l; simpl; [reflexivity | now rewrite IHl]. Qed.


Lemma zip_with_map_map {A B C D} (f : B -> C -> D) (g : A -> B) (h : A -> C) l :
  zip_with f (map g l) (map h l) = map (fun x => f (g x) (h x)) l.
Proof. unfold zip_with. induction l; simpl; [reflexivity | now rewrite IHl]. Qed.

Lemma zip_with_ext_in {A B C} (f g : A -> B -> C) l r :
  (forall x y, In (x, y) (combine l r) -> f x y = g x y) ->
  zip_with f l r = zip_with g l r.
Proof.
  intros H. unfold zip_with. apply map_ext_in. intros [x y] Hin. now apply H.
Qed.

Lemma map_zip_with {A B C D} (g : C -> D) (f : A -> B -> C) l r :
  map g (zip_with f l r) = zip_with (fun x y => g (f x y)) l r.
Proof. unfold zip_with. now rewrite map_map. Qed.

Lemma zip_with_map_l {A A' B C} (f : A' -> B -> C) (g : A -> A') l r :
  zip_with f (map g l) r = zip_with (fun x y => f (g x) y) l r.
Proof.
  unfold zip_with. revert r; induction l; intros [|y r]; simpl; try reflexivity.
  now rewrite IHl.
Qed.

Lemma zip_with_map_r' {A B B' C} (f : A -> B' -> C) (g : B -> B') l r :
  zip_with f l (map g r) = zip_with (fun x y => f x (g y)) l r.
Proof.
  unfold zip_with. revert r; induction l; intros [|y r]; simpl; try reflexivity.
  now rewrite IHl.
Qed.

(** Rows *)
Lemma scalar_values_map {A} (v : list A) : scalar_values (map Scalar v) = v.
Proof. unfold scalar_values. induction v; simpl; congruence. Qed.

Lemma to_rows_of_vec {A} (v : list A) : to_rows (of_vec v) = Scalar v.
Proof. unfold of_vec. cbn [to_rows]. now rewrite scalar_values_map. Qed.

Lemma to_rows_of_mat {A} n (m : list (list A)) : to_rows (of_mat n m) = of_vec m.
Proof.
  unfold of_mat. cbn [to_rows removelast]. unfold of_vec at 2. f_equal.
  rewrite map_map. apply map_ext. intros; apply to_rows_of_vec.
Qed.

Lemma of_rows_of_vec {A} n (m : list (list A)) : of_rows n (of_vec m) = of_mat n m.
Proof. unfold of_vec at 1, of_mat. cbn [of_rows app]. now rewrite map_map. Qed.

Lemma last_dim_of_vec {A} (v : list A) : last_dim (of_vec v) = length v.
Proof. unfold last_dim. now rewrite shape_of_vec. Qed.

Lemma last_dim_of_mat {A} n (m : list (list A)) : last_dim (of_mat n m) = n.
Proof. unfold last_dim. now rewrite shape_of_mat. Qed.

Lemma tsum_last_of_mat n m : tsum_last (of_mat n m) = of_vec (map Rsum m).
Proof. unfold tsum_last. now rewrite to_rows_of_mat, tmap_of_vec. Qed.

Lemma tsum_last_of_vec v : tsum_last (of_vec v) = Scalar (Rsum v).
Proof. unfold tsum_last. now rewrite to_rows_of_vec. Qed.

Lemma tlogsumexp_keep_of_mat n m :
  tlogsumexp_keep (of_mat n m) = of_mat 1 (map (fun row => [logsumexp_row row]) m).
Proof.
  unfold tlogsumexp_keep. now rewrite to_rows_of_mat, tmap_of_vec, of_rows_of_vec.
Qed.

Lemma tlogsumexp_keep_of_vec v :
  tlogsumexp_keep (of_vec v) = of_vec [logsumexp_row v].
Proof. unfold tlogsumexp_keep. now rewrite to_rows_of_vec. Qed.

Lemma tsoftmax_of_vec v : tsoftmax (of_vec v) = of_vec (softmax_row v).
Proof. unfold tsoftmax. now rewrite to_rows_of_vec. Qed.

Lemma tsoftmax_of_mat n m : tsoftmax (of_mat n m) = of_mat n (map softmax_row m).
Proof.
  unfold tsoftmax.
  now rewrite to_rows_of_mat, tmap_of_vec, of_rows_of_vec, last_dim_of_mat.
Qed.

(** Broadcasting at the shapes of a batch *)
Lemma expand_vec_to_mat {A} B (v : list A) :
  expand [B; length v] (of_vec v) = of_mat (length v) (repeat v B).
Proof.
  assert (E : expand [length v] (of_vec v) = of_vec v).
  { rewrite <- shape_of_vec. apply expand_same, wf_of_vec. }
  cbn [expand] in *. unfold dim in *. rewrite shape_of_vec in *.
  cbn [length] in *. change (1 <? 2)%nat with true. cbn iota.
  rewrite E. unfold of_mat. now rewrite map_repeat.
Qed.

Lemma expand_singleton_vec {A} n (c : A) :
  expand [n] (of_vec [c]) = of_vec (repeat c n).
Proof. cbn. unfold of_vec. now rewrite map_repeat. Qed.

Lemma expand_col_to_mat {A} n (cs : list A) :
  expand [length cs; n] (of_mat 1 (map (fun c => [c]) cs))
  = of_mat n (map (fun c => repeat c n) cs).
Proof.
  unfold of_mat at 1. rewrite expand_Stack; [|reflexivity|now rewrite !length_map].
  unfold of_mat. f_equal. rewrite !map_map. apply map_ext. intros c.
  apply expand_singleton_vec.
Qed.

Lemma broadcast_shapes_mat_vec B D : broadcast_shapes [B; D] [D] = Some [B; D].
Proof.
  unfold broadcast_shapes, pad_shape. cbn.
  rewrite Nat.eqb_refl. destruct (B =? 1)%nat eqn:E; [|reflexivity].
  apply Nat.eqb_eq in E. now subst.
Qed.

Lemma broadcast_shapes_mat_col B n : broadcast_shapes [B; n] [B; 1%nat] = Some [B; n].
Proof.
  unfold broadcast_shapes, pad_shape. cbn.
  rewrite Nat.eqb_refl. destruct (n =? 1)%nat eqn:E; [|reflexivity].
  apply Nat.eqb_eq in E. now subst.
Qed.

Lemma broadcast_shapes_vec_one n : broadcast_shapes [n] [1%nat] = Some [n].
Proof.
  unfold broadcast_shapes, pad_shape. cbn.
  destruct (n =? 1)%nat eqn:E; [|reflexivity].
  apply Nat.eqb_eq in E. now subst.
Qed.

(** Entries of an expanded tensor *)
Lemma flatten_tmap {A B} (f : A -> B) t : flatten (tmap f t) = map f (flatten t).
Proof.
  induction t as [x | s ts IH] using tensor_induction; [reflexivity|].
  cbn [tmap flatten]. rewrite !flat_map_concat_map, concat_map, !map_map. f_equal.
  apply map_ext_in. intros t Ht. rewrite Forall_forall in IH. now apply IH.
Qed.

Lemma Forall_flat_map {A B} (P : B -> Prop) (f : A -> list B) l :
  Forall P (flat_map f l) <-> Forall (fun x => Forall P (f x)) l.
Proof.
  induction l; simpl; [split; constructor|].
  rewrite Forall_app, IHl. split; intros H.
  - destruct H. now constructor.
  - inversion H; subst. now split.
Qed.

Lemma Forall_flatten_expand {A} (P : A -> Prop) s : forall t,
  Forall P (flatten t) -> Forall P (flatten (expand s t)).
Proof.
  induction s as [|n s' IH]; intros t H; [exact H|].
  cbn [expand]. destruct (dim t <? length (n :: s'))%nat.
  - cbn [flatten]. apply Forall_flat_map. apply Forall_forall.
    intros u Hu. apply repeat_spec in Hu; subst. now apply IH.
  - destruct t as [x | s0 ts]; [exact H|].
    cbn [flatten] in H. apply Forall_flat_map in H.
    destruct ts as [|t0 [|t1 ts]].
    + cbn. constructor.
    + cbn [flatten]. apply Forall_flat_map. apply Forall_forall.
      intros u Hu. apply repeat_spec in Hu; subst. apply IH.
      now inversion H.
    + cbn [flatten]. apply Forall_flat_map. apply Forall_forall.
      intros u Hu. apply in_map_iff in Hu as [v [<- Hv]]. apply IH.
      rewrite Forall_forall in H. now apply H.
Qed.

Lemma tall_true {A} (p : A -> bool) t :
  Forall (fun x => p x = true) (flatten t) -> tall p t = true.
Proof. intros H. unfold tall. apply forallb_forall. now apply Forall_forall. Qed.


Lemma bind_get_self {B} (k : MLPPolicy -> M B) w :
  (p <- get_self ;; k p) w = k (self w) w.
Proof. reflexivity. Qed.

Lemma bind_attr_Some {A B} (a : A) (k : A -> M B) w :
  (x <- attr (Some a) ;; k x) w = k a w.
Proof. reflexivity. Qed.

Lemma bind_liftG_OK {A B} (m : G A) (k : A -> M B) w a :
  m (grad_enabled w) = OK a -> (x <- liftG m ;; k x) w = k a w.
Proof. intros H. cbn. unfold liftG. now rewrite H. Qed.

Lemma bind_liftG_Raise {A B} (m : G A) (k : A -> M B) w e :
  m (grad_enabled w) = Raise e -> (x <- liftG m ;; k x) w = (Raise e, w).
Proof. intros H. cbn. unfold liftG. now rewrite H. Qed.

Lemma Module_call_OK ref net x ge y :
  fwd net (weights net) (data x) = OK y ->
  exists t, Module_call ref net x ge = OK t /\ data t = y
    /\ requires_grad t = ge && negb (length (weights net) =? 0)%nat.
Proof.
  intros H. unfold Module_call. fold (weights net). rewrite H.
  eexists. split; [reflexivity|]. now rewrite data_mk, requires_grad_mk.
Qed.

Lemma torch_expand_OK s x ge :
  exists t, torch_expand s x ge = OK t /\ data t = expand s (data x)
    /\ requires_grad t = ge && requires_grad x.
Proof.
  unfold torch_expand. eexists. split; [reflexivity|].
  now rewrite data_mk, requires_grad_mk.
Qed.

(** The forward computation in continuous mode, for any output of the
    network that broadcasts with logstd. *)
Lemma forward_continuous w net ls obs y s :
  discrete (self w) = false ->
  mean_net (self w) = Some net ->
  logstd (self w) = Some ls ->
  fwd net (weights net) (data obs) = OK y ->
  broadcast_shapes (shape y) (shape (p_data ls)) = Some s ->
  exists loc scale,
    MLPPolicy_forward obs w = (OK (Normal loc scale), w)
    /\ data loc = expand s y
    /\ data scale = expand s (tmap exp (p_data ls))
    /\ requires_grad loc = grad_enabled w && negb (length (weights net) =? 0)%nat
    /\ requires_grad scale = grad_enabled w.
Proof.
  intros Hd Hn Hl Hf Hs.
  destruct (Module_call_OK Ref_mean_net net obs (grad_enabled w) y Hf)
    as [loc0 [E1 [D1 R1]]].
  destruct (unop_OK exp exp (as_tensor Ref_logstd ls) (grad_enabled w))
    as [scale0 [E2 [D2 R2]]].
  destruct (torch_expand_OK s loc0 (grad_enabled w)) as [loc [E3 [D3 R3]]].
  destruct (torch_expand_OK s scale0 (grad_enabled w)) as [scale [E4 [D4 R4]]].
  exists loc, scale.
  unfold MLPPolicy_forward. rewrite bind_get_self, Hd, Hn, bind_attr_Some.
  rewrite (bind_liftG_OK _ _ _ _ E1), Hl, bind_attr_Some.
  rewrite (bind_liftG_OK _ _ _ _ E2).
  assert (EN : Normal_init loc0 scale0 (grad_enabled w) = OK (Normal loc scale)).
  { unfold Normal_init, broadcast_all. rewrite D1, D2. cbn [as_tensor data].
    rewrite shape_tmap, Hs.
    rewrite (bindG_OK _ _ _ (loc, scale));
      [|rewrite (bindG_OK _ _ _ _ E3), (bindG_OK _ _ _ _ E4); reflexivity].
    cbn [fst snd].
    rewrite tall_true; [reflexivity|].
    rewrite D4, D2. cbn [as_tensor data].
    apply Forall_flatten_expand. rewrite flatten_tmap.
    apply Forall_forall. intros x Hx. apply in_map_iff in Hx as [z [<- _]].
    apply Rltb_true, exp_pos. }
  rewrite (bind_liftG_OK _ _ _ _ EN).
  split; [reflexivity|]. rewrite D3, D1, D4, D2, R3, R1, R4, R2.
  cbn [as_tensor data requires_grad grad_fn].
  repeat split; auto.
  - now destruct (grad_enabled w), (negb (length (weights net) =? 0)%nat).
  - now destruct (grad_enabled w).
Qed.


Lemma torch_logsumexp_keep_OK x ge :
  exists t, torch_logsumexp_keep x ge = OK t
    /\ data t = tlogsumexp_keep (data x)
    /\ requires_grad t = ge && requires_grad x.
Proof.
  unfold torch_logsumexp_keep. eexists. split; [reflexivity|].
  now rewrite data_mk, requires_grad_mk.
Qed.

Lemma Categorical_init_batch scores ge n S :
  data scores = of_mat n S ->
  Forall (fun row => length row = n) S ->
  exists logits, Categorical_init scores ge = OK (Categorical logits)
    /\ data logits = of_mat n (map normalize_row S)
    /\ requires_grad logits = ge && requires_grad scores.
Proof.
  intros Hd HS.
  destruct (torch_logsumexp_keep_OK scores ge) as [lse [E1 [D1 R1]]].
  rewrite Hd, tlogsumexp_keep_of_mat in D1.
  destruct (binop_OK Rminus (fun _ _ => 1) (fun _ _ => -1) scores lse ge
              [length S; n]) as [t [E2 [D2 [_ [_ R2]]]]].
  { rewrite Hd. now apply wf_of_mat. }
  { rewrite D1. apply wf_of_mat. apply Forall_forall. intros r Hr.
    apply in_map_iff in Hr as [? [<- _]]. reflexivity. }
  { rewrite Hd, D1, !shape_of_mat, length_map. apply broadcast_shapes_mat_col. }
  exists t. split; [|split].
  - unfold Categorical_init. rewrite Hd. unfold dim. rewrite shape_of_mat.
    cbn [length Nat.ltb Nat.leb].
    rewrite (bindG_OK _ _ _ _ E1). unfold torch_sub.
    rewrite (bindG_OK _ _ _ _ E2). reflexivity.
  - rewrite D2, Hd, D1.
    rewrite <- (shape_of_mat n S) at 1.
    rewrite expand_same by now apply wf_of_mat.
    rewrite <- (map_map logsumexp_row (fun c => [c])).
    rewrite <- (length_map logsumexp_row S), expand_col_to_mat.
    rewrite tzip_of_mat. f_equal. rewrite map_map, zip_with_map_r.
    apply map_ext_in. intros row Hrow. rewrite Forall_forall in HS.
    rewrite <- (HS _ Hrow). apply zip_with_repeat_r.
  - rewrite R2, R1. now destruct ge, (requires_grad scores).
Qed.

Lemma Categorical_init_single scores ge row :
  data scores = of_vec row ->
  exists logits, Categorical_init scores ge = OK (Categorical logits)
    /\ data logits = of_vec (normalize_row row)
    /\ requires_grad logits = ge && requires_grad scores.
Proof.
  intros Hd.
  destruct (torch_logsumexp_keep_OK scores ge) as [lse [E1 [D1 R1]]].
  rewrite Hd, tlogsumexp_keep_of_vec in D1.
  destruct (binop_OK Rminus (fun _ _ => 1) (fun _ _ => -1) scores lse ge
              [length row]) as [t [E2 [D2 [_ [_ R2]]]]].
  { rewrite Hd. apply wf_of_vec. }
  { rewrite D1. apply wf_of_vec. }
  { rewrite Hd, D1, !shape_of_vec. apply broadcast_shapes_vec_one. }
  exists t. split; [|split].
  - unfold Categorical_init. rewrite Hd. unfold dim. rewrite shape_of_vec.
    cbn [length Nat.ltb Nat.leb].
    rewrite (bindG_OK _ _ _ _ E1). unfold torch_sub.
    rewrite (bindG_OK _ _ _ _ E2). reflexivity.
  - rewrite D2, Hd, D1.
    rewrite <- (shape_of_vec row) at 1.
    rewrite expand_same by apply wf_of_vec.
    rewrite expand_singleton_vec, tzip_of_vec. f_equal.
    apply zip_with_repeat_r.
  - rewrite R2, R1. now destruct ge, (requires_grad scores).
Qed.

Lemma forward_discrete_batch w net obs n S :
  discrete (self w) = true ->
  logits_net (self w) = Some net ->
  fwd net (weights net) (data obs) = OK (of_mat n S) ->
  Forall (fun row => length row = n) S ->
  exists logits,
    MLPPolicy_forward obs w = (OK (Categorical logits), w)
    /\ data logits = of_mat n (map normalize_row S)
    /\ requires_grad logits
       = grad_enabled w && negb (length (weights net) =? 0)%nat.
Proof.
  intros Hd Hn Hf HS.
  destruct (Module_call_OK Ref_logits_net net obs (grad_enabled w) _ Hf)
    as [scores [E1 [D1 R1]]].
  destruct (Categorical_init_batch scores (grad_enabled w) n S D1 HS)
    as [logits [E2 [D2 R2]]].
  exists logits. split; [|split; [exact D2|]].
  - unfold MLPPolicy_forward. rewrite bind_get_self, Hd, Hn, bind_attr_Some.
    rewrite (bind_liftG_OK _ _ _ _ E1), (bind_liftG_OK _ _ _ _ E2). reflexivity.
  - rewrite R2, R1. now destruct (grad_enabled w).
Qed.

Lemma forward_discrete_single w net obs row :
  discrete (self w) = true ->
  logits_net (self w) = Some net ->
  fwd net (weights net) (data obs) = OK (of_vec row) ->
  exists logits,
    MLPPolicy_forward obs w = (OK (Categorical logits), w)
    /\ data logits = of_vec (normalize_row row)
    /\ requires_grad logits
       = grad_enabled w && negb (length (weights net) =? 0)%nat.
Proof.
  intros Hd Hn Hf.
  destruct (Module_call_OK Ref_logits_net net obs (grad_enabled w) _ Hf)
    as [scores [E1 [D1 R1]]].
  destruct (Categorical_init_single scores (grad_enabled w) row D1)
    as [logits [E2 [D2 R2]]].
  exists logits. split; [|split; [exact D2|]].
  - unfold MLPPolicy_forward. rewrite bind_get_self, Hd, Hn, bind_attr_Some.
    rewrite (bind_liftG_OK _ _ _ _ E1), (bind_liftG_OK _ _ _ _ E2). reflexivity.
  - rewrite R2, R1. now destruct (grad_enabled w).
Qed.

Lemma forward_continuous_batch w net ls obs sigma Mu :
  discrete (self w) = false ->
  mean_net (self w) = Some net ->
  logstd (self w) = Some ls ->
  p_data ls = of_vec sigma ->
  fwd net (weights net) (data obs) = OK (of_mat (length sigma) Mu) ->
  Forall (fun row => length row = length sigma) Mu ->
  exists loc scale,
    MLPPolicy_forward obs w = (OK (Normal loc scale), w)
    /\ data loc = of_mat (length sigma) Mu
    /\ data scale = of_mat (length sigma) (repeat (map exp sigma) (length Mu))
    /\ requires_grad loc = grad_enabled w && negb (length (weights net) =? 0)%nat
    /\ requires_grad scale = grad_enabled w.
Proof.
  intros Hd Hn Hl Hs Hf HM.
  destruct (forward_continuous w net ls obs _ [length Mu; length sigma] Hd Hn Hl Hf)
    as [loc [scale [E [D1 [D2 [R1 R2]]]]]].
  { rewrite Hs, shape_of_mat, shape_of_vec. apply broadcast_shapes_mat_vec. }
  exists loc, scale. repeat split; auto.
  - rewrite D1. rewrite <- (shape_of_mat (length sigma) Mu).
    apply expand_same. now apply wf_of_mat.
  - rewrite D2, Hs, tmap_of_vec. rewrite <- (length_map exp sigma).
    apply expand_vec_to_mat.
Qed.

Lemma forward_continuous_single w net ls obs sigma mu :
  discrete (self w) = false ->
  mean_net (self w) = Some net ->
  logstd (self w) = Some ls ->
  p_data ls = of_vec sigma ->
  fwd net (weights net) (data obs) = OK (of_vec mu) ->
  length mu = length sigma ->
  exists loc scale,
    MLPPolicy_forward obs w = (OK (Normal loc scale), w)
    /\ data loc = of_vec mu
    /\ data scale = of_vec (map exp sigma)
    /\ requires_grad loc = grad_enabled w && negb (length (weights net) =? 0)%nat
    /\ requires_grad scale = grad_enabled w.
Proof.
  intros Hd Hn Hl Hs Hf HM.
  destruct (forward_continuous w net ls obs _ [length mu] Hd Hn Hl Hf)
    as [loc [scale [E [D1 [D2 [R1 R2]]]]]].
  { rewrite Hs, !shape_of_vec, HM. apply broadcast_shapes_same. }
  exists loc, scale. repeat split; auto.
  - rewrite D1. rewrite <- (shape_of_vec mu). apply expand_same, wf_of_vec.
  - rewrite D2, Hs, tmap_of_vec, HM. rewrite <- (length_map exp sigma).
    rewrite <- (shape_of_vec (map exp sigma)). apply expand_same, wf_of_vec.
Qed.


Lemma init_demo_discrete :
  MLPPolicy__init__ build_affine 2 1 true 0 64 (/ 1000) = OK demo_discrete.
Proof.
  unfold MLPPolicy__init__, build_affine, Adam_init. cbn.
  rewrite Rltb_false by lra. reflexivity.
Qed.

Lemma init_demo_continuous :
  MLPPolicy__init__ build_affine 1 1 false 0 64 (/ 1000) = OK demo_continuous.
Proof.
  unfold MLPPolicy__init__, build_affine, Adam_init. cbn.
  rewrite Rltb_false by lra. reflexivity.
Qed.

Lemma Rsum_singleton x : Rsum [x] = x.
Proof. unfold Rsum; simpl; lra. Qed.

Lemma demo_discrete_scores :
  fwd (Linear 1 2 (zeros [2; 1]%nat) (zeros [2%nat]))
    (weights (Linear 1 2 (zeros [2; 1]%nat) (zeros [2%nat])))
    (of_mat 1 [[0]; [0]; [0]])
  = OK (of_mat 2 [[0; 0]; [0; 0]; [0; 0]]).
Proof.
  cbn. unfold of_mat, of_vec, dot, zip_with, Rsum. cbn.
  repeat f_equal; lra.
Qed.

Lemma demo_continuous_mean :
  fwd (Linear 1 1 (zeros [1; 1]%nat) (zeros [1%nat]))
    (weights (Linear 1 1 (zeros [1; 1]%nat) (zeros [1%nat])))
    (of_mat 1 [[0]; [0]; [0]])
  = OK (of_mat 1 [[0]; [0]; [0]]).
Proof.
  cbn. unfold of_mat, of_vec, dot, zip_with, Rsum. cbn.
  repeat f_equal; lra.
Qed.

(** C2: in discrete mode [forward] returns the categorical distribution
    built from the scores of the network alone, its logits being the scores
    minus their log-sum-exp; in continuous mode it returns the Gaussian
    whose mean is the output of the network and whose standard deviation is
    exp(logstd) in every row of the batch. *)
Theorem forward_builds_distribution (w : World) (obs : FloatTensor) :
  (forall net n S,
      discrete (self w) = true ->
      logits_net (self w) = Some net ->
      fwd net (weights net) (data obs) = OK (of_mat n S) ->
      Forall (fun row => length row = n) S ->
      exists logits,
        MLPPolicy_forward obs w = (OK (Categorical logits), w)
        /\ data logits
           = of_mat n (map (fun row =>
                         map (fun x => x - ln (Rsum (map exp row))) row) S))
  /\ (forall net ls sigma Mu,
      discrete (self w) = false ->
      mean_net (self w) = Some net ->
      logstd (self w) = Some ls ->
      p_data ls = of_vec sigma ->
      fwd net (weights net) (data obs) = OK (of_mat (length sigma) Mu) ->
      Forall (fun row => length row = length sigma) Mu ->
      exists loc scale,
        MLPPolicy_forward obs w = (OK (Normal loc scale), w)
        /\ data loc = of_mat (length sigma) Mu
        /\ data scale
           = of_mat (length sigma) (repeat (map exp sigma) (length Mu))).
Proof.
  split.
  - intros net n S Hd Hn Hf HS.
    destruct (forward_discrete_batch w net obs n S Hd Hn Hf HS)
      as [logits [E [D _]]].
    exists logits. split; [exact E | exact D].
  - intros net ls sigma Mu Hd Hn Hl Hs Hf HM.
    destruct (forward_continuous_batch w net ls obs sigma Mu Hd Hn Hl Hs Hf HM)
      as [loc [scale [E [D1 [D2 _]]]]].
    exists loc, scale. repeat split; assumption.
Qed.

Lemma forward_builds_distribution_witness :
  (exists logits,
      MLPPolicy_forward (from_numpy (NdFloat (of_mat 1 [[0]; [0]; [0]])))
        (world_of demo_discrete)
      = (OK (Categorical logits), world_of demo_discrete)
      /\ data logits
         = of_mat 2 (map (fun row =>
                       map (fun x => x - ln (Rsum (map exp row))) row)
                     [[0; 0]; [0; 0]; [0; 0]]))
  /\ (exists loc scale,
      MLPPolicy_forward (from_numpy (NdFloat (of_mat 1 [[0]; [0]; [0]])))
        (world_of demo_continuous)
      = (OK (Normal loc scale), world_of demo_continuous)
      /\ data loc = of_mat 1 [[0]; [0]; [0]]
      /\ data scale = of_mat 1 (repeat (map exp [0]) 3)).
Proof.
  split.
  - apply (proj1 (forward_builds_distribution (world_of demo_discrete)
                    (from_numpy (NdFloat (of_mat 1 [[0]; [0]; [0]]))))
             (Linear 1 2 (zeros [2; 1]%nat) (zeros [2%nat])) 2%nat
             [[0; 0]; [0; 0]; [0; 0]]).
    + reflexivity.
    + reflexivity.
    + exact demo_discrete_scores.
    + repeat constructor.
  - apply (proj2 (forward_builds_distribution (world_of demo_continuous)
                    (from_numpy (NdFloat (of_mat 1 [[0]; [0]; [0]]))))
             (Linear 1 1 (zeros [1; 1]%nat) (zeros [1%nat]))
             {| p_data := zeros [1%nat]; p_grad := None |} [0]
             [[0]; [0]; [0]]).
    + reflexivity.
    + reflexivity.
    + reflexivity.
    + reflexivity.
    + exact demo_continuous_mean.
    + repeat constructor.
Defined.

(** C6: [update] of the base class, called directly or through an object of
    the base class, raises NotImplementedError for every input and leaves
    the policy, the grad mode and the generator as they were. *)
Theorem base_update_not_implemented
  (obs actions : ndarray) (args : list ndarray) (kwargs : dict) (w : World) :
  MLPPolicy_update obs actions args kwargs w = (Raise NotImplementedError, w)
  /\ forall advantages,
       update Class_MLPPolicy obs actions advantages w
       = (Raise NotImplementedError, w).
Proof. split; reflexivity. Qed.


Lemma Adam_init_OK ps lr o :
  Adam_init ps lr = OK o ->
  params o = ps /\ state o = [] /\ 0 <= lr /\ ps <> [].
Proof.
  unfold Adam_init, Rltb. destruct (Rlt_dec lr 0); [discriminate|].
  destruct ps; [discriminate|]. intros H. injection H as <-. cbn.
  repeat split; try lra. discriminate.
Qed.

Lemma Adam_init_succeeds ps lr :
  0 <= lr -> ps <> [] -> exists o, Adam_init ps lr = OK o.
Proof.
  intros H1 H2. unfold Adam_init. rewrite Rltb_false by lra.
  destruct ps; [contradiction|]. eexists; reflexivity.
Qed.

Lemma refs_nil ref net : refs ref net = [] <-> parameters net = [].
Proof.
  unfold refs. destruct (parameters net); cbn; split; try reflexivity; discriminate.
Qed.

Lemma Forall_flatten_full {A} s (x : A) :
  Forall (fun y => y = x) (flatten (full s x)).
Proof.
  induction s as [|n s IH]; [repeat constructor|].
  cbn [full flatten]. apply Forall_flat_map. apply Forall_forall.
  intros t Ht. apply repeat_spec in Ht. now subst.
Qed.

(** C4: a continuous policy that the constructor returns holds logstd as a
    parameter of [ac_dim] zeros that the optimizer trains, and the standard
    deviation of the distribution [forward] builds from it is 1 in every
    entry. *)
Theorem logstd_initially_zero
  (build_mlp : Z -> Z -> Z -> Z -> Res Module)
  (ac_dim ob_dim n_layers layer_size : Z) (learning_rate : R) (p : MLPPolicy) :
  MLPPolicy__init__ build_mlp ac_dim ob_dim false n_layers layer_size
    learning_rate = OK p ->
  exists ls net,
    discrete p = false /\ mean_net p = Some net /\ logstd p = Some ls
    /\ p_data ls = zeros [Z.to_nat ac_dim]
    /\ In Ref_logstd (params (optimizer p))
    /\ forall w obs y s,
         self w = p ->
         fwd net (weights net) (data obs) = OK y ->
         broadcast_shapes (shape y) [Z.to_nat ac_dim] = Some s ->
         exists loc scale,
           MLPPolicy_forward obs w = (OK (Normal loc scale), w)
           /\ shape (data scale) = s
           /\ all_one (data scale).
Proof.
  unfold MLPPolicy__init__. cbn [bind ret Res_Monad res_bind].
  destruct (build_mlp ob_dim ac_dim n_layers layer_size) as [net|e]; [|discriminate].
  cbn [res_bind]. unfold torch_zeros.
  destruct (ac_dim <? 0)%Z; [discriminate|]. cbn [res_bind].
  destruct (Adam_init _ learning_rate) as [o|e] eqn:EA; [|discriminate].
  cbn [res_bind]. intros H. injection H as <-.
  apply Adam_init_OK in EA as [Hp _].
  exists {| p_data := zeros [Z.to_nat ac_dim]; p_grad := None |}, net.
  cbn [discrete mean_net logstd p_data optimizer].
  repeat split; try reflexivity.
  - rewrite Hp. now left.
  - intros w obs y s Hw Hf Hs.
    destruct (forward_continuous w net
                {| p_data := zeros [Z.to_nat ac_dim]; p_grad := None |} obs y s)
      as [loc [scale [E [_ [D _]]]]]; try (rewrite Hw; reflexivity); auto.
    { cbn [p_data]. unfold zeros. now rewrite shape_full. }
    exists loc, scale. split; [exact E|]. rewrite D. cbn [p_data].
    unfold zeros. rewrite tmap_full. split.
    + apply wf_expand; [apply wf_full|]. rewrite shape_full.
      now apply broadcast_shapes_expandable in Hs.
    + unfold all_one. apply Forall_flatten_expand.
      rewrite exp_0. apply Forall_flatten_full.
Qed.

Lemma logstd_initially_zero_witness :
  exists ls net,
    discrete demo_continuous = false /\ mean_net demo_continuous = Some net
    /\ logstd demo_continuous = Some ls
    /\ p_data ls = zeros [Z.to_nat 1]
    /\ In Ref_logstd (params (optimizer demo_continuous))
    /\ forall w obs y s,
         self w = demo_continuous ->
         fwd net (weights net) (data obs) = OK y ->
         broadcast_shapes (shape y) [Z.to_nat 1] = Some s ->
         exists loc scale,
           MLPPolicy_forward obs w = (OK (Normal loc scale), w)
           /\ shape (data scale) = s
           /\ all_one (data scale).
Proof.
  exact (logstd_initially_zero build_affine 1 1 0 64 (/ 1000) demo_continuous
           init_demo_continuous).
Defined.

(** C7 fails: the constructor returns a policy for an action dimension
    of 0. *)
Lemma init_accepts_zero_dimension :
  (0 <= 0)%Z /\
  exists p, MLPPolicy__init__ build_affine 0 4 false 0 64 (/ 1000) = OK p.
Proof.
  split; [lia|].
  unfold MLPPolicy__init__, build_affine, Adam_init. cbn.
  rewrite Rltb_false by lra. eexists. reflexivity.
Qed.

(** C7 (as amended): the constructor checks no dimension itself.  It
    returns a policy exactly when [build_mlp] returns a network, that
    network has a parameter in discrete mode, [ac_dim] is not negative in
    continuous mode, and the learning rate is not negative. *)
Theorem init_succeeds_iff
  (build_mlp : Z -> Z -> Z -> Z -> Res Module)
  (ac_dim ob_dim : Z) (discrete : bool) (n_layers layer_size : Z)
  (learning_rate : R) :
  (exists p, MLPPolicy__init__ build_mlp ac_dim ob_dim discrete n_layers
               layer_size learning_rate = OK p)
  <->
  (exists net,
      build_mlp ob_dim ac_dim n_layers layer_size = OK net
      /\ (discrete = true -> parameters net <> [])
      /\ (discrete = false -> (0 <= ac_dim)%Z)
      /\ 0 <= learning_rate).
Proof.
  unfold MLPPolicy__init__. cbn [bind ret Res_Monad res_bind].
  destruct (build_mlp ob_dim ac_dim n_layers layer_size) as [net|e].
  2:{ split; [destruct discrete; intros [p H]; discriminate
             | intros [net [H _]]; discriminate]. }
  cbn [res_bind]. destruct discrete.
  - split.
    + intros [p H].
      destruct (Adam_init _ learning_rate) as [o|e] eqn:EA; [|discriminate].
      apply Adam_init_OK in EA as [_ [_ [Hlr Hne]]].
      exists net. repeat split; auto; try discriminate.
      intros _ Hn. apply Hne. now apply refs_nil.
    + intros [net' [E [Hp [_ Hlr]]]]. injection E as <-.
      destruct (Adam_init_succeeds (refs Ref_logits_net net) learning_rate Hlr)
        as [o Ho].
      { intros Hn. apply (Hp eq_refl). now apply refs_nil in Hn. }
      rewrite Ho. eexists; reflexivity.
  - unfold torch_zeros. split.
    + intros [p H]. destruct (Z.ltb_spec ac_dim 0); [discriminate|].
      cbn [res_bind] in H.
      destruct (Adam_init _ learning_rate) as [o|e] eqn:EA; [|discriminate].
      apply Adam_init_OK in EA as [_ [_ [Hlr Hne]]].
      exists net. repeat split; auto; discriminate.
    + intros [net' [E [_ [Hac Hlr]]]]. injection E as <-.
      destruct (Z.ltb_spec ac_dim 0); [specialize (Hac eq_refl); lia|].
      cbn [res_bind].
      destruct (Adam_init_succeeds ([Ref_logstd] ++ refs Ref_mean_net net)
                  learning_rate Hlr) as [o Ho]; [discriminate|].
      rewrite Ho. eexists; reflexivity.
Qed.


Lemma keeps_bind {A B} (m : M A) (k : A -> M B) :
  keeps m -> (forall a, keeps (k a)) -> keeps (x <- m ;; k x).
Proof.
  intros Hm Hk w. cbn. specialize (Hm w).
  destruct (m w) as [[a|e] w1]; cbn in *.
  - destruct (Hk a w1) as [H1 H2]. destruct Hm as [H3 H4].
    split; congruence.
  - exact Hm.
Qed.

Lemma keeps_ret {A} (a : A) : keeps (ret a).
Proof. intros w. now split. Qed.

Lemma keeps_raise {A} e : keeps (@raise A e).
Proof. intros w. now split. Qed.

Lemma keeps_liftG {A} (m : G A) : keeps (liftG m).
Proof. intros w. now split. Qed.

Lemma keeps_get_self : keeps get_self.
Proof. intros w. now split. Qed.

Lemma keeps_attr {A} (a : option A) : keeps (attr a).
Proof. destruct a; [apply keeps_ret | apply keeps_raise]. Qed.

Lemma keeps_draw stream s : keeps (draw stream s).
Proof. intros w. now split. Qed.

Lemma keeps_no_grad {A} (m : M A) : keeps m -> keeps (no_grad m).
Proof.
  intros Hm w. unfold no_grad. cbn [snd self grad_enabled].
  split; [|reflexivity].
  now destruct (Hm {| self := self w; grad_enabled := false;
                      default_generator := default_generator w |}) as [-> _].
Qed.

Lemma keeps_forward obs : keeps (MLPPolicy_forward obs).
Proof.
  unfold MLPPolicy_forward. apply keeps_bind; [apply keeps_get_self|].
  intros p. destruct (discrete p).
  - repeat (apply keeps_bind; [first [apply keeps_attr | apply keeps_liftG]|intros ?]).
    apply keeps_ret.
  - repeat (apply keeps_bind; [first [apply keeps_attr | apply keeps_liftG]|intros ?]).
    apply keeps_ret.
Qed.

Lemma keeps_rsample d : keeps (rsample d).
Proof.
  destruct d; [apply keeps_raise|]. unfold rsample, Normal_rsample.
  apply keeps_bind; [apply keeps_draw|intros ?].
  repeat (apply keeps_bind; [apply keeps_liftG|intros ?]). apply keeps_ret.
Qed.

Lemma keeps_sample d : keeps (sample d).
Proof.
  destruct d; cbn [sample].
  - unfold Categorical_sample. destruct (last_dim (data logits) =? 0)%nat;
      [apply keeps_raise|].
    apply keeps_bind; [apply keeps_draw|intros ?]. apply keeps_ret.
  - apply keeps_no_grad. apply (keeps_rsample (Normal loc scale)).
Qed.

Lemma keeps_get_action obs : keeps (MLPPolicy_get_action obs).
Proof.
  unfold MLPPolicy_get_action. apply keeps_no_grad.
  apply keeps_bind; [apply keeps_forward|intros d].
  apply keeps_bind; [apply keeps_get_self|intros p].
  apply keeps_bind; [|intros ?; apply keeps_ret].
  destruct (discrete p); [apply keeps_sample | apply keeps_rsample].
Qed.

(** Draws *)
Lemma hd_skipn_nth {A} (d : A) l i : hd d (skipn i l) = nth i l d.
Proof.
  revert l; induction i; intros [|x l]; simpl; try reflexivity. apply IHi.
Qed.

Lemma map_nth_seq {A} (d : A) l :
  map (fun i => nth i l d) (seq 0 (length l)) = l.
Proof.
  induction l as [|x l IH]; [reflexivity|].
  cbn [length seq map nth]. f_equal.
  rewrite <- seq_shift, map_map. exact IH.
Qed.

Lemma reshape_vec {A} (d : A) l : reshape [length l] d l = of_vec l.
Proof.
  cbn [reshape numel_of fold_right]. unfold of_vec. f_equal.
  transitivity (map (@Scalar A) (map (fun i => nth i l d) (seq 0 (length l)))).
  - rewrite map_map. apply map_ext. intros i. cbn [reshape].
    now rewrite Nat.mul_1_r, hd_skipn_nth.
  - now rewrite map_nth_seq.
Qed.

Lemma draw_vec stream n w :
  draw stream [n] w = (OK (of_vec (draws stream n w)), advance n w).
Proof.
  unfold draw, advance, draws. cbn [numel_of fold_right].
  rewrite Nat.mul_1_r. f_equal. f_equal.
  rewrite <- reshape_vec with (d := 0). now rewrite length_map, length_seq.
Qed.

(** argmax stays inside the row *)
Lemma argmax_from_bound l : forall best besti i,
  (besti < i)%nat -> (argmax_from best besti i l < i + length l)%nat.
Proof.
  induction l as [|x l IH]; intros best besti i H; cbn [argmax_from length].
  - lia.
  - destruct (Rltb best x).
    + specialize (IH x i (S i)). lia.
    + specialize (IH best besti (S i)). lia.
Qed.

Lemma argmax_bound l : l <> [] -> (argmax l < length l)%nat.
Proof.
  destruct l as [|x l]; [congruence|]. intros _. cbn [argmax length].
  pose proof (argmax_from_bound l x 0%nat 1%nat). lia.
Qed.

(** softmax of normalised scores *)
Lemma Rsum_exp_pos row : row <> [] -> 0 < Rsum (map exp row).
Proof.
  destruct row as [|x row]; [congruence|]. intros _.
  cbn. assert (0 <= Rsum (map exp row)).
  { induction row; cbn; [lra|]. pose proof (exp_pos a). unfold Rsum in *. lra. }
  pose proof (exp_pos x). unfold Rsum in *. lra.
Qed.

Lemma Rsum_map_scale c l : Rsum (map (fun x => x * c) l) = Rsum l * c.
Proof. induction l; cbn; [lra|]. unfold Rsum in *. rewrite IHl. lra. Qed.

Lemma softmax_normalize row : row <> [] ->
  softmax_row (normalize_row row) = softmax_row row.
Proof.
  intros Hne. pose proof (Rsum_exp_pos row Hne) as Hpos.
  unfold softmax_row, normalize_row, logsumexp_row. rewrite !map_map.
  assert (E : forall x, exp (x - ln (Rsum (map exp row)))
                        = exp x * / Rsum (map exp row)).
  { intros x. unfold Rminus. rewrite exp_plus, exp_Ropp, exp_ln by exact Hpos.
    reflexivity. }
  assert (S1 : Rsum (map (fun x => exp (x - ln (Rsum (map exp row)))) row) = 1).
  { rewrite (map_ext _ (fun x => exp x * / Rsum (map exp row)))
      by exact E.
    rewrite <- (map_map exp (fun y => y * / Rsum (map exp row))).
    rewrite Rsum_map_scale. field. lra. }
  apply map_ext. intros x. rewrite S1, E. field. lra.
Qed.


Lemma length_draws stream n w : length (draws stream n w) = n.
Proof. unfold draws. now rewrite length_map, length_seq. Qed.

Lemma length_softmax_row l : length (softmax_row l) = length l.
Proof. unfold softmax_row. now rewrite length_map. Qed.

Lemma length_normalize_row l : length (normalize_row l) = length l.
Proof. unfold normalize_row. now rewrite length_map. Qed.

Lemma Categorical_sample_single logits L w :
  data logits = of_vec L -> L <> [] ->
  Categorical_sample logits w
  = (OK (TLong (Scalar (Z.of_nat
           (argmax (zip_with Rdiv (softmax_row L)
                      (draws exponential_draws (length L) w)))))),
     advance (length L) w).
Proof.
  intros Hd Hne. unfold Categorical_sample. rewrite Hd, last_dim_of_vec.
  destruct (Nat.eqb_spec (length L) 0) as [E|_].
  { destruct L; [congruence | discriminate]. }
  rewrite tsoftmax_of_vec, shape_of_vec, length_softmax_row.
  rewrite (bindM_OK _ _ _ _ _ (draw_vec exponential_draws (length L) w)).
  cbn [ret M_Monad]. now rewrite tzip_of_vec, to_rows_of_vec.
Qed.

Lemma Normal_rsample_single loc scale mu ss w :
  data loc = of_vec mu -> data scale = of_vec ss -> length mu = length ss ->
  exists x,
    Normal_rsample loc scale w = (OK (TFloat x), advance (length mu) w)
    /\ data x = of_vec (zip_with Rplus mu
                          (zip_with Rmult (draws normal_draws (length mu) w) ss))
    /\ requires_grad x
       = grad_enabled w && (requires_grad loc || requires_grad scale).
Proof.
  intros Hl Hs Hlen.
  set (eps := draws normal_draws (length mu) w).
  assert (Heps : length eps = length mu) by apply length_draws.
  destruct (binop_same Rmult (fun _ y => y) (fun x _ => x)
              (plain_tensor (of_vec eps)) scale (grad_enabled w))
    as [scaled [E1 [D1 R1]]].
  { apply wf_of_vec. }
  { rewrite Hs. apply wf_of_vec. }
  { cbn [plain_tensor data]. rewrite Hs, !shape_of_vec. congruence. }
  cbn [plain_tensor data] in D1. rewrite Hs, tzip_of_vec in D1.
  destruct (binop_same Rplus (fun _ _ => 1) (fun _ _ => 1)
              loc scaled (grad_enabled w))
    as [x [E2 [D2 R2]]].
  { rewrite Hl. apply wf_of_vec. }
  { rewrite D1. apply wf_of_vec. }
  { rewrite Hl, D1, !shape_of_vec, length_zip_with. f_equal. lia. }
  rewrite Hl, D1, tzip_of_vec in D2.
  exists x. split; [|split; [exact D2|]].
  - unfold Normal_rsample. rewrite Hl, shape_of_vec.
    rewrite (bindM_OK _ _ _ _ _ (draw_vec normal_draws (length mu) w)).
    fold eps.
    assert (G1 : torch_mul (plain_tensor (of_vec eps)) scale
                   (grad_enabled (advance (length mu) w)) = OK scaled)
      by exact E1.
    rewrite (bind_liftG_OK _ _ _ _ G1).
    assert (G2 : torch_add loc scaled
                   (grad_enabled (advance (length mu) w)) = OK x)
      by exact E2.
    rewrite (bind_liftG_OK _ _ _ _ G2). reflexivity.
  - rewrite R2, R1. cbn [plain_tensor requires_grad grad_fn].
    now destruct (grad_enabled w), (requires_grad loc), (requires_grad scale).
Qed.

Lemma no_grad_unfold {A} (m : M A) w :
  no_grad m w
  = (fst (m (grad_off w)),
     {| self := self (snd (m (grad_off w)));
        grad_enabled := grad_enabled w;
        default_generator := default_generator (snd (m (grad_off w))) |}).
Proof. reflexivity. Qed.

Lemma get_action_discrete_single w net x row :
  discrete (self w) = true ->
  logits_net (self w) = Some net ->
  fwd net (weights net) (of_vec x) = OK (of_vec row) ->
  row <> [] ->
  MLPPolicy_get_action (NdFloat (of_vec x)) w
  = (OK (NdInt (Scalar (Z.of_nat
           (argmax (zip_with Rdiv (softmax_row row)
                      (draws exponential_draws (length row) w)))))),
     advance (length row) w).
Proof.
  intros Hd Hn Hf Hne.
  destruct (forward_discrete_single (grad_off w) net
              (from_numpy (NdFloat (of_vec x))) row Hd Hn Hf)
    as [logits [E [D _]]].
  assert (Hne' : normalize_row row <> []).
  { intros H. apply Hne. apply length_zero_iff_nil.
    rewrite <- length_normalize_row, H. reflexivity. }
  unfold MLPPolicy_get_action. rewrite no_grad_unfold.
  rewrite (bindM_OK _ _ _ _ _ E), bind_get_self.
  cbn [grad_off self]. rewrite Hd.
  cbn [sample].
  rewrite (bindM_OK _ _ _ _ _ (Categorical_sample_single logits _ (grad_off w) D Hne')).
  cbn [ret M_Monad fst snd to_numpy].
  rewrite length_normalize_row, softmax_normalize by exact Hne.
  reflexivity.
Qed.

Lemma get_action_continuous_single w net ls x sigma mu :
  discrete (self w) = false ->
  mean_net (self w) = Some net ->
  logstd (self w) = Some ls ->
  p_data ls = of_vec sigma ->
  fwd net (weights net) (of_vec x) = OK (of_vec mu) ->
  length mu = length sigma ->
  MLPPolicy_get_action (NdFloat (of_vec x)) w
  = (OK (NdFloat (of_vec
           (zip_with Rplus mu
              (zip_with Rmult (draws normal_draws (length mu) w)
                 (map exp sigma))))),
     advance (length mu) w).
Proof.
  intros Hd Hn Hl Hs Hf Hlen.
  destruct (forward_continuous_single (grad_off w) net ls
              (from_numpy (NdFloat (of_vec x))) sigma mu Hd Hn Hl Hs Hf Hlen)
    as [loc [scale [E [D1 [D2 _]]]]].
  destruct (Normal_rsample_single loc scale mu (map exp sigma) (grad_off w) D1 D2)
    as [a [E2 [D3 _]]].
  { now rewrite length_map. }
  unfold MLPPolicy_get_action. rewrite no_grad_unfold.
  rewrite (bindM_OK _ _ _ _ _ E), bind_get_self.
  cbn [grad_off self]. rewrite Hd. cbn [rsample].
  rewrite (bindM_OK _ _ _ _ _ E2).
  cbn [ret M_Monad fst snd to_numpy]. rewrite D3. reflexivity.
Qed.


Lemma Categorical_init_no_graph scores d :
  Categorical_init scores false = OK d -> dist_requires_grad d = false.
Proof.
  unfold Categorical_init. destruct (dim (data scores) <? 1)%nat; [discriminate|].
  cbn [bind G_Monad]. unfold torch_logsumexp_keep, torch_sub, binop.
  cbn [mk andb data].
  destruct (broadcast_shapes _ _); [|discriminate].
  cbn [ret G_Monad]. intros H. injection H as <-. reflexivity.
Qed.

Lemma Normal_init_no_graph loc scale d :
  Normal_init loc scale false = OK d -> dist_requires_grad d = false.
Proof.
  unfold Normal_init, broadcast_all.
  destruct (broadcast_shapes _ _); [|discriminate].
  cbn [bind ret G_Monad torch_expand mk andb data fst snd].
  destruct (tall _ _); [|discriminate].
  intros H. injection H as <-. reflexivity.
Qed.

Lemma bind_liftG {A B} (m : G A) (k : A -> M B) w :
  (x <- liftG m ;; k x) w
  = match m (grad_enabled w) with
    | OK a => k a w
    | Raise e => (Raise e, w)
    end.
Proof. cbn. unfold liftG. now destruct (m (grad_enabled w)). Qed.

Lemma forward_no_graph obs w d w' :
  grad_enabled w = false ->
  MLPPolicy_forward obs w = (OK d, w') ->
  dist_requires_grad d = false.
Proof.
  intros Hg. unfold MLPPolicy_forward. rewrite bind_get_self.
  destruct (discrete (self w)).
  - destruct (logits_net (self w)) as [net|]; [|discriminate].
    rewrite bind_attr_Some, bind_liftG, Hg.
    destruct (Module_call Ref_logits_net net obs false) as [scores|e];
      [|discriminate].
    rewrite bind_liftG, Hg.
    destruct (Categorical_init scores false) as [d0|e] eqn:E; [|discriminate].
    intros H. inversion H; subst.
    now apply Categorical_init_no_graph in E.
  - destruct (mean_net (self w)) as [net|]; [|discriminate].
    rewrite bind_attr_Some, bind_liftG, Hg.
    destruct (Module_call Ref_mean_net net obs false) as [loc|e];
      [|discriminate].
    destruct (logstd (self w)) as [ls|]; [|discriminate].
    rewrite bind_attr_Some, bind_liftG, Hg.
    destruct (torch_exp (as_tensor Ref_logstd ls) false) as [scale|e];
      [|discriminate].
    rewrite bind_liftG, Hg.
    destruct (Normal_init loc scale false) as [d0|e] eqn:E; [|discriminate].
    intros H. inversion H; subst.
    now apply Normal_init_no_graph in E.
Qed.

(** C3: [get_action] leaves the policy object (parameters, their gradients
    and the optimizer) and the grad mode as they were; the distribution it
    builds records no graph; and for a single observation it returns, as a
    plain array, one draw: in discrete mode the index that [sample] picks
    (the largest quotient of probability and exponential draw), in
    continuous mode the reparameterized mean + eps * exp(logstd).  Only the
    position of the random generator moves. *)
Theorem get_action_draws_one_sample (w : World) (obs : ndarray) :
  (self (snd (MLPPolicy_get_action obs w)) = self w
   /\ grad_enabled (snd (MLPPolicy_get_action obs w)) = grad_enabled w)
  /\ (forall d w',
        MLPPolicy_forward (from_numpy obs) (grad_off w) = (OK d, w') ->
        dist_requires_grad d = false)
  /\ (forall net x row,
        obs = NdFloat (of_vec x) ->
        discrete (self w) = true ->
        logits_net (self w) = Some net ->
        fwd net (weights net) (of_vec x) = OK (of_vec row) ->
        row <> [] ->
        MLPPolicy_get_action obs w
        = (OK (NdInt (Scalar (Z.of_nat
                 (argmax (zip_with Rdiv (softmax_row row)
                            (draws exponential_draws (length row) w)))))),
           advance (length row) w))
  /\ (forall net ls x sigma mu,
        obs = NdFloat (of_vec x) ->
        discrete (self w) = false ->
        mean_net (self w) = Some net ->
        logstd (self w) = Some ls ->
        p_data ls = of_vec sigma ->
        fwd net (weights net) (of_vec x) = OK (of_vec mu) ->
        length mu = length sigma ->
        MLPPolicy_get_action obs w
        = (OK (NdFloat (of_vec
                 (zip_with Rplus mu
                    (zip_with Rmult (draws normal_draws (length mu) w)
                       (map exp sigma))))),
           advance (length mu) w)).
Proof.
  split; [apply keeps_get_action|]. split; [|split].
  - intros d w' H. exact (forward_no_graph (from_numpy obs) (grad_off w) d w' eq_refl H).
  - intros net x row -> Hd Hn Hf Hne.
    now apply (get_action_discrete_single w net x row).
  - intros net ls x sigma mu -> Hd Hn Hl Hs Hf Hlen.
    now apply (get_action_continuous_single w net ls x sigma mu).
Qed.

Lemma demo_discrete_single_scores :
  fwd (Linear 1 2 (zeros [2; 1]%nat) (zeros [2%nat]))
    (weights (Linear 1 2 (zeros [2; 1]%nat) (zeros [2%nat])))
    (of_vec [0])
  = OK (of_vec [0; 0]).
Proof.
  cbn. unfold of_vec, dot, zip_with, Rsum. cbn. repeat f_equal; lra.
Qed.

Lemma demo_continuous_single_mean :
  fwd (Linear 1 1 (zeros [1; 1]%nat) (zeros [1%nat]))
    (weights (Linear 1 1 (zeros [1; 1]%nat) (zeros [1%nat])))
    (of_vec [0])
  = OK (of_vec [0]).
Proof.
  cbn. unfold of_vec, dot, zip_with, Rsum. cbn. repeat f_equal; lra.
Qed.

Lemma get_action_draws_one_sample_witness :
  MLPPolicy_get_action (NdFloat (of_vec [0])) (world_of demo_discrete)
  = (OK (NdInt (Scalar (Z.of_nat
           (argmax (zip_with Rdiv (softmax_row [0; 0])
                      (draws exponential_draws 2 (world_of demo_discrete))))))),
     advance 2 (world_of demo_discrete))
  /\ MLPPolicy_get_action (NdFloat (of_vec [0])) (world_of demo_continuous)
     = (OK (NdFloat (of_vec
              (zip_with Rplus [0]
                 (zip_with Rmult
                    (draws normal_draws 1 (world_of demo_continuous))
                    (map exp [0]))))),
        advance 1 (world_of demo_continuous)).
Proof.
  split.
  - apply (proj1 (proj2 (proj2
             (get_action_draws_one_sample (world_of demo_discrete)
                (NdFloat (of_vec [0])))))
             (Linear 1 2 (zeros [2; 1]%nat) (zeros [2%nat])) [0] [0; 0]).
    + reflexivity.
    + reflexivity.
    + reflexivity.
    + exact demo_discrete_single_scores.
    + discriminate.
  - apply (proj2 (proj2 (proj2
             (get_action_draws_one_sample (world_of demo_continuous)
                (NdFloat (of_vec [0])))))
             (Linear 1 1 (zeros [1; 1]%nat) (zeros [1%nat]))
             {| p_data := zeros [1%nat]; p_grad := None |} [0] [0] [0]).
    + reflexivity.
    + reflexivity.
    + reflexivity.
    + reflexivity.
    + reflexivity.
    + exact demo_continuous_single_mean.
    + reflexivity.
Defined.

Lemma length_tab {A} n (f : nat -> A) : length (tab n f) = n.
Proof. unfold tab. now rewrite length_map, length_seq. Qed.

Lemma tab_ext {A} n (f g : nat -> A) :
  (forall i, (i < n)%nat -> f i = g i) -> tab n f = tab n g.
Proof.
  intros H. unfold tab. apply map_ext_in. intros i Hi.
  apply in_seq in Hi. apply H. lia.
Qed.

Lemma tab_of_list {A} (d : A) l : l = tab (length l) (fun i => nth i l d).
Proof. unfold tab. now rewrite map_nth_seq. Qed.

Lemma tab2_of_mat {A} (d : A) D (m : list (list A)) :
  Forall (fun row => length row = D) m ->
  m = tab2 (length m) D (fun i j => nth j (nth i m []) d).
Proof.
  intros H. unfold tab2. rewrite (tab_of_list [] m) at 1.
  apply tab_ext. intros i Hi.
  assert (Hin : In (nth i m []) m) by now apply nth_In.
  rewrite Forall_forall in H. rewrite <- (H _ Hin). apply tab_of_list.
Qed.

Lemma zip_with_tab {A B C} (f : A -> B -> C) n g h :
  zip_with f (tab n g) (tab n h) = tab n (fun i => f (g i) (h i)).
Proof. unfold tab. apply zip_with_map_map. Qed.

Lemma map_tab {A B} (f : A -> B) n g : map f (tab n g) = tab n (fun i => f (g i)).
Proof. unfold tab. now rewrite map_map. Qed.

Lemma combine_tab {A B} n (g : nat -> A) (h : nat -> B) :
  combine (tab n g) (tab n h) = tab n (fun i => (g i, h i)).
Proof.
  unfold tab. induction (seq 0 n); cbn; [reflexivity | now rewrite IHl].
Qed.

Lemma repeat_tab {A} (x : A) n : repeat x n = tab n (fun _ => x).
Proof.
  unfold tab. generalize 0%nat. induction n; intros k; cbn; [reflexivity|].
  now rewrite <- IHn.
Qed.

Lemma zip_with_tab2 {A B C} (f : A -> B -> C) n m g h :
  zip_with (zip_with f) (tab2 n m g) (tab2 n m h)
  = tab2 n m (fun i j => f (g i j) (h i j)).
Proof.
  unfold tab2. rewrite zip_with_tab. apply tab_ext. intros i _.
  apply zip_with_tab.
Qed.

Lemma map_tab2 {A B} (f : A -> B) n m g :
  map (map f) (tab2 n m g) = tab2 n m (fun i j => f (g i j)).
Proof.
  unfold tab2. rewrite map_tab. apply tab_ext. intros i _. apply map_tab.
Qed.

Lemma rows_tab2 {A} n m (g : nat -> nat -> A) :
  Forall (fun row => length row = m) (tab2 n m g).
Proof.
  apply Forall_forall. intros row Hr. unfold tab2, tab in Hr.
  apply in_map_iff in Hr as [i [<- _]]. apply length_tab.
Qed.

Lemma wf_of_mat_tab2 n m (g : nat -> nat -> R) : wf (of_mat m (tab2 n m g)).
Proof. apply wf_of_mat, rows_tab2. Qed.

Lemma shape_of_mat_tab2 {A} n m (g : nat -> nat -> A) :
  shape (of_mat m (tab2 n m g)) = [n; m].
Proof. rewrite shape_of_mat. unfold tab2. now rewrite length_tab. Qed.

(** Operations on matrices and vectors given by their entries *)
Lemma binop_mat op dfa dfb a b ge n m f g :
  data a = of_mat m (tab2 n m f) ->
  data b = of_mat m (tab2 n m g) ->
  exists t, binop op dfa dfb a b ge = OK t
    /\ data t = of_mat m (tab2 n m (fun i j => op (f i j) (g i j)))
    /\ requires_grad t = ge && (requires_grad a || requires_grad b).
Proof.
  intros Ha Hb.
  destruct (binop_same op dfa dfb a b ge) as [t [E [D R]]].
  - rewrite Ha. apply wf_of_mat_tab2.
  - rewrite Hb. apply wf_of_mat_tab2.
  - now rewrite Ha, Hb, !shape_of_mat_tab2.
  - exists t. repeat split; auto.
    now rewrite D, Ha, Hb, tzip_of_mat, zip_with_tab2.
Qed.

Lemma unop_mat op dop a ge n m f :
  data a = of_mat m (tab2 n m f) ->
  exists t, unop op dop a ge = OK t
    /\ data t = of_mat m (tab2 n m (fun i j => op (f i j)))
    /\ requires_grad t = ge && requires_grad a.
Proof.
  intros Ha. destruct (unop_OK op dop a ge) as [t [E [D R]]].
  exists t. repeat split; auto. now rewrite D, Ha, tmap_of_mat, map_tab2.
Qed.

Lemma binop_vec op dfa dfb a b ge n f g :
  data a = of_vec (tab n f) ->
  data b = of_vec (tab n g) ->
  exists t, binop op dfa dfb a b ge = OK t
    /\ data t = of_vec (tab n (fun i => op (f i) (g i)))
    /\ requires_grad t = ge && (requires_grad a || requires_grad b).
Proof.
  intros Ha Hb.
  destruct (binop_same op dfa dfb a b ge) as [t [E [D R]]].
  - rewrite Ha. apply wf_of_vec.
  - rewrite Hb. apply wf_of_vec.
  - now rewrite Ha, Hb, !shape_of_vec, !length_tab.
  - exists t. repeat split; auto.
    now rewrite D, Ha, Hb, tzip_of_vec, zip_with_tab.
Qed.

Lemma shapes_compatible_same s : shapes_compatible s s = true.
Proof.
  unfold shapes_compatible. apply forallb_forall. intros [i j] Hin.
  assert (i = j).
  { revert Hin. generalize (rev s). intros l. induction l; cbn; [tauto|].
    intros [H|H]; [now inversion H | auto]. }
  subst. cbn. rewrite Nat.eqb_refl. now rewrite !andb_false_r.
Qed.

(** [Normal.log_prob] on a batch *)
Lemma Normal_log_prob_mat loc scale value ge n m mu sg a :
  data loc = of_mat m (tab2 n m mu) ->
  data scale = of_mat m (tab2 n m sg) ->
  data value = of_mat m (tab2 n m a) ->
  exists lp, Normal_log_prob loc scale value ge = OK lp
    /\ data lp = of_mat m (tab2 n m (fun i j =>
                   normal_log_density (mu i j) (sg i j) (a i j)))
    /\ requires_grad lp
       = ge && (requires_grad value || requires_grad loc || requires_grad scale).
Proof.
  intros Hl Hs Hv.
  destruct (unop_mat (fun x => x ^ 2) (fun x => 2 * x) scale ge n m sg Hs)
    as [var [E1 [D1 R1]]].
  destruct (unop_mat ln (fun x => / x) scale ge n m sg Hs)
    as [log_scale [E2 [D2 R2]]].
  destruct (binop_mat Rminus (fun _ _ => 1) (fun _ _ => -1) value loc ge
              n m a mu Hv Hl) as [diff [E3 [D3 R3]]].
  destruct (unop_mat (fun x => x ^ 2) (fun x => 2 * x) diff ge n m _ D3)
    as [sq [E4 [D4 R4]]].
  destruct (unop_mat Ropp (fun _ => -1) sq ge n m _ D4)
    as [nsq [E5 [D5 R5]]].
  destruct (unop_mat (fun x => 2 * x) (fun _ => 2) var ge n m _ D1)
    as [var2 [E6 [D6 R6]]].
  destruct (binop_mat Rdiv (fun _ y => / y) (fun x y => - x / (y * y))
              nsq var2 ge n m _ _ D5 D6) as [quot [E7 [D7 R7]]].
  destruct (binop_mat Rminus (fun _ _ => 1) (fun _ _ => -1) quot log_scale ge
              n m _ _ D7 D2) as [rest [E8 [D8 R8]]].
  destruct (unop_mat (fun x => x - ln (sqrt (2 * PI))) (fun _ => 1) rest ge
              n m _ D8) as [lp [E9 [D9 R9]]].
  exists lp. split; [|split].
  - unfold Normal_log_prob. rewrite Hv, Hl, !shape_of_mat_tab2.
    rewrite shapes_compatible_same. cbn [negb].
    unfold torch_pow2, torch_log, torch_sub, torch_neg, torch_rmul, torch_div,
      torch_sub_const.
    rewrite (bindG_OK _ _ _ _ E1), (bindG_OK _ _ _ _ E2), (bindG_OK _ _ _ _ E3),
      (bindG_OK _ _ _ _ E4), (bindG_OK _ _ _ _ E5), (bindG_OK _ _ _ _ E6),
      (bindG_OK _ _ _ _ E7), (bindG_OK _ _ _ _ E8).
    exact E9.
  - rewrite D9. reflexivity.
  - rewrite R9, R8, R7, R6, R5, R4, R3, R2, R1.
    destruct ge, (requires_grad value), (requires_grad loc),
      (requires_grad scale); reflexivity.
Qed.


Lemma gather_normalize row z :
  (0 <= z < Z.of_nat (length row))%Z ->
  gather_row (normalize_row row) z = spec_log_p_discrete row z.
Proof.
  intros Hz. unfold gather_row, normalize_row, spec_log_p_discrete, logsumexp_row.
  rewrite (nth_indep _ 0 (0 - ln (Rsum (map exp row)))).
  - now rewrite (map_nth (fun x => x - ln (Rsum (map exp row)))).
  - rewrite length_map. lia.
Qed.

(** [Categorical.log_prob] on a batch of action indices *)
Lemma Categorical_log_prob_vec logits value ge n L a :
  data logits = of_mat n L ->
  data value = of_vec (map IZR a) ->
  Forall (fun row => length row = n) L ->
  length a = length L ->
  (0 < n)%nat ->
  Forall (fun z => (0 <= z < Z.of_nat n)%Z) a ->
  exists lp, Categorical_log_prob logits value ge = OK lp
    /\ data lp = of_vec (zip_with gather_row L a)
    /\ requires_grad lp = ge && requires_grad logits.
Proof.
  intros Hl Hv HL Hlen Hn Ha.
  eexists. split; [|split].
  - unfold Categorical_log_prob.
    rewrite Hl, Hv, last_dim_of_mat. unfold batch_shape_of.
    rewrite shape_of_mat, shape_of_vec, length_map, Hlen.
    cbn [removelast]. rewrite shapes_compatible_same. cbn [negb].
    rewrite tall_true.
    2:{ rewrite flatten_of_vec. apply Forall_forall. intros x Hx.
        apply in_map_iff in Hx as [z [<- Hz]].
        rewrite Forall_forall in Ha. specialize (Ha _ Hz).
        apply in_integer_interval_IZR. lia. }
    cbn [negb]. rewrite tmap_of_vec, map_map.
    rewrite (map_ext _ (fun z => z)) by apply Rtrunc_IZR. rewrite map_id.
    rewrite shape_of_vec, Hlen, broadcast_shapes_same.
    destruct (Nat.eqb_spec n 0) as [E|_]; [lia|].
    reflexivity.
  - rewrite data_mk.
    assert (E1 : expand ([length L] ++ [n]) (of_mat n L) = of_mat n L).
    { cbn [app]. rewrite <- (shape_of_mat n L).
      apply expand_same. now apply wf_of_mat. }
    assert (E2 : expand [length L] (of_vec a) = of_vec a).
    { rewrite <- Hlen, <- (shape_of_vec a). apply expand_same, wf_of_vec. }
    now rewrite E1, E2, to_rows_of_mat, tzip_of_vec.
  - now rewrite requires_grad_mk.
Qed.

Lemma zip_with_gather_normalize n S a :
  Forall (fun row => length row = n) S ->
  Forall (fun z => (0 <= z < Z.of_nat n)%Z) a ->
  zip_with gather_row (map normalize_row S) a
  = zip_with spec_log_p_discrete S a.
Proof.
  intros HS Ha. rewrite zip_with_map_l. apply zip_with_ext_in.
  intros row z Hin. apply gather_normalize.
  pose proof (in_combine_l _ _ _ _ Hin) as Hr.
  pose proof (in_combine_r _ _ _ _ Hin) as Hz.
  rewrite Forall_forall in HS, Ha. rewrite (HS _ Hr). now apply Ha.
Qed.

(** The loss from the log-probabilities and the advantages *)
Lemma loss_of_log_p log_p advantages ge lp d :
  data log_p = of_vec lp ->
  data advantages = of_vec d ->
  length lp = length d ->
  exists loss,
    (weighted <- torch_mul log_p advantages ;;
     m <- torch_mean weighted ;;
     torch_neg m) ge = OK loss
    /\ data loss = Scalar (spec_loss lp d)
    /\ requires_grad loss
       = ge && (requires_grad log_p || requires_grad advantages).
Proof.
  intros Hl Ha Hlen.
  destruct (binop_same Rmult (fun _ y => y) (fun x _ => x) log_p advantages ge)
    as [weighted [E1 [D1 R1]]].
  { rewrite Hl. apply wf_of_vec. }
  { rewrite Ha. apply wf_of_vec. }
  { rewrite Hl, Ha, !shape_of_vec. congruence. }
  rewrite Hl, Ha, tzip_of_vec in D1.
  eexists. split; [|split].
  - unfold torch_mul. rewrite (bindG_OK _ _ _ _ E1).
    unfold torch_mean at 1. cbn [bind G_Monad]. reflexivity.
  - unfold torch_neg, unop. rewrite !data_mk, D1. cbn [tmap].
    unfold spec_loss, tsum, numel. rewrite flatten_of_vec, length_zip_with.
    rewrite <- Hlen, Nat.min_id. reflexivity.
  - unfold torch_neg, unop. rewrite !requires_grad_mk, R1.
    now destruct ge, (requires_grad log_p), (requires_grad advantages).
Qed.


Lemma reads_bind {A B} (m : M A) (k : A -> M B) :
  reads m -> (forall a, reads (k a)) -> reads (x <- m ;; k x).
Proof.
  intros Hm Hk w. cbn. specialize (Hm w).
  destruct (m w) as [[a|e] w1]; cbn in *; subst; [apply Hk | reflexivity].
Qed.

Lemma reads_ret {A} (a : A) : reads (ret a).
Proof. intros w. reflexivity. Qed.

Lemma reads_raise {A} e : reads (@raise A e).
Proof. intros w. reflexivity. Qed.

Lemma reads_liftG {A} (m : G A) : reads (liftG m).
Proof. intros w. reflexivity. Qed.

Lemma reads_get_self : reads get_self.
Proof. intros w. reflexivity. Qed.

Lemma reads_attr {A} (a : option A) : reads (attr a).
Proof. destruct a; [apply reads_ret | apply reads_raise]. Qed.

Lemma reads_forward obs : reads (MLPPolicy_forward obs).
Proof.
  unfold MLPPolicy_forward. apply reads_bind; [apply reads_get_self|].
  intros p. destruct (discrete p).
  - repeat (apply reads_bind; [first [apply reads_attr | apply reads_liftG]|intros ?]).
    apply reads_ret.
  - repeat (apply reads_bind; [first [apply reads_attr | apply reads_liftG]|intros ?]).
    apply reads_ret.
Qed.

Lemma reads_actor_loss obs actions advantages :
  reads (actor_loss obs actions advantages).
Proof.
  unfold actor_loss. apply reads_bind; [apply reads_forward|intros d].
  apply reads_bind; [apply reads_get_self|intros p].
  apply reads_bind; [|intros ?; apply reads_liftG].
  destruct (discrete p); apply reads_liftG.
Qed.

(** [update] is the loss followed by the optimizer step *)
Lemma update_unfold obs actions advantages w :
  MLPPolicyPG_update obs actions advantages w
  = (loss <- actor_loss obs actions advantages ;;
     optimizer_zero_grad ;;
     backward loss ;;
     optimizer_step ;;
     ret [("Actor Loss"%string, to_numpy (TFloat loss))]) w.
Proof.
  unfold MLPPolicyPG_update, actor_loss. cbn [bind M_Monad].
  destruct (MLPPolicy_forward (from_numpy obs) w) as [[d|e] w1]; [|reflexivity].
  cbn [get_self].
  destruct ((if discrete (self w1)
             then liftG (log_prob d (from_numpy actions))
             else liftG (lp <- log_prob d (from_numpy actions);;
                         torch_sum_last lp)) w1) as [[lp|e] w2]; reflexivity.
Qed.

Lemma optimizer_zero_grad_total w :
  exists w', optimizer_zero_grad w = (OK tt, w').
Proof. eexists. reflexivity. Qed.

Lemma optimizer_step_total w : exists w', optimizer_step w = (OK tt, w').
Proof. eexists. reflexivity. Qed.

Lemma backward_total loss w :
  requires_grad loss = true -> dim (data loss) = 0%nat ->
  exists w', backward loss w = (OK tt, w').
Proof.
  intros Hr Hd. unfold backward, requires_grad in *.
  destruct (grad_fn loss); [|discriminate]. rewrite Hd. cbn.
  eexists. reflexivity.
Qed.

Lemma update_from_loss obs actions advantages w loss :
  actor_loss obs actions advantages w = (OK loss, w) ->
  requires_grad loss = true ->
  dim (data loss) = 0%nat ->
  exists w',
    MLPPolicyPG_update obs actions advantages w
    = (OK [("Actor Loss"%string, NdFloat (data loss))], w').
Proof.
  intros E Hr Hd. rewrite update_unfold. rewrite (bindM_OK _ _ _ _ _ E).
  destruct (optimizer_zero_grad_total w) as [w1 E1].
  rewrite (bindM_OK _ _ _ _ _ E1).
  destruct (backward_total loss w1 Hr Hd) as [w2 E2].
  rewrite (bindM_OK _ _ _ _ _ E2).
  destruct (optimizer_step_total w2) as [w3 E3].
  rewrite (bindM_OK _ _ _ _ _ E3).
  exists w3. reflexivity.
Qed.

Lemma update_inversion obs actions advantages w d w' :
  MLPPolicyPG_update obs actions advantages w = (OK d, w') ->
  exists loss,
    actor_loss obs actions advantages w = (OK loss, w)
    /\ d = [("Actor Loss"%string, NdFloat (data loss))].
Proof.
  rewrite update_unfold. cbn [bind M_Monad].
  pose proof (reads_actor_loss obs actions advantages w) as Hw.
  destruct (actor_loss obs actions advantages w) as [[loss|e] w1];
    [|discriminate].
  cbn [snd] in Hw. subst w1.
  destruct (optimizer_zero_grad w) as [[[]|e] w1]; [|discriminate].
  destruct (backward loss w1) as [[[]|e] w2]; [|discriminate].
  destruct (optimizer_step w2) as [[[]|e] w3]; [|discriminate].
  cbn [ret]. intros H. inversion H; subst. exists loss. split; reflexivity.
Qed.

Lemma update_raises obs actions advantages w e :
  actor_loss obs actions advantages w = (Raise e, w) ->
  MLPPolicyPG_update obs actions advantages w = (Raise e, w).
Proof.
  intros E. rewrite update_unfold. now rewrite (bindM_Raise _ _ _ _ _ E).
Qed.


Lemma torch_sum_last_OK x ge :
  exists t, torch_sum_last x ge = OK t
    /\ data t = tsum_last (data x)
    /\ requires_grad t = ge && requires_grad x.
Proof.
  unfold torch_sum_last. eexists. split; [reflexivity|].
  now rewrite data_mk, requires_grad_mk.
Qed.

Lemma requires_grad_from_numpy a : requires_grad (from_numpy a) = false.
Proof. now destruct a. Qed.

Lemma actor_loss_discrete w net obs actions advantages n S a d :
  discrete (self w) = true ->
  logits_net (self w) = Some net ->
  fwd net (weights net) (data (from_numpy obs)) = OK (of_mat n S) ->
  Forall (fun row => length row = n) S ->
  data (from_numpy actions) = of_vec (map IZR a) ->
  data (from_numpy advantages) = of_vec d ->
  length a = length S ->
  length d = length S ->
  (0 < n)%nat ->
  Forall (fun z => (0 <= z < Z.of_nat n)%Z) a ->
  exists loss,
    actor_loss obs actions advantages w = (OK loss, w)
    /\ data loss = Scalar (spec_loss (zip_with spec_log_p_discrete S a) d)
    /\ requires_grad loss
       = grad_enabled w && negb (length (weights net) =? 0)%nat.
Proof.
  intros Hd Hn Hf HS Ha Hadv Hla Hld Hpos Hr.
  destruct (forward_discrete_batch w net (from_numpy obs) n S Hd Hn Hf HS)
    as [logits [E1 [D1 R1]]].
  destruct (Categorical_log_prob_vec logits (from_numpy actions)
              (grad_enabled w) n (map normalize_row S) a D1 Ha)
    as [log_p [E2 [D2 R2]]]; auto.
  { apply Forall_forall. intros row Hrow.
    apply in_map_iff in Hrow as [r [<- Hin]]. rewrite length_normalize_row.
    rewrite Forall_forall in HS. now apply HS. }
  { now rewrite length_map. }
  rewrite (zip_with_gather_normalize n S a HS Hr) in D2.
  destruct (loss_of_log_p log_p (from_numpy advantages) (grad_enabled w)
              _ d D2 Hadv) as [loss [E3 [D3 R3]]].
  { rewrite length_zip_with. lia. }
  exists loss. split; [|split; [exact D3|]].
  - unfold actor_loss. rewrite (bindM_OK _ _ _ _ _ E1), bind_get_self, Hd.
    cbn [log_prob]. rewrite (bind_liftG_OK _ _ _ _ E2).
    now apply liftG_OK.
  - rewrite R3, R2, R1, requires_grad_from_numpy.
    now destruct (grad_enabled w), (negb (length (weights net) =? 0)%nat).
Qed.

Lemma spec_log_p_continuous_tab sigma mu a :
  length mu = length sigma -> length a = length sigma ->
  spec_log_p_continuous sigma mu a
  = Rsum (tab (length sigma) (fun j =>
            normal_log_density (nth j mu 0) (exp (nth j sigma 0)) (nth j a 0))).
Proof.
  intros Hm Ha. unfold spec_log_p_continuous.
  rewrite (tab_of_list 0 mu) at 1. rewrite (tab_of_list 0 sigma) at 1.
  rewrite (tab_of_list 0 a) at 1. rewrite Hm, Ha.
  now rewrite combine_tab, zip_with_tab.
Qed.

Lemma tab_S {A} n (f : nat -> A) : tab (S n) f = f 0%nat :: tab n (fun i => f (S i)).
Proof. unfold tab. cbn [seq map]. f_equal. now rewrite <- seq_shift, map_map. Qed.

Lemma zip_with_nth {A B C} (f : A -> B -> C) dl dr l r n :
  length l = n -> length r = n ->
  zip_with f l r = tab n (fun i => f (nth i l dl) (nth i r dr)).
Proof.
  revert r n. induction l as [|x l IH]; intros [|y r] n Hl Hr; subst n;
    try discriminate; [reflexivity|].
  cbn [length]. rewrite tab_S. cbn [nth]. unfold zip_with. cbn [combine map fst snd].
  f_equal. apply IH; [reflexivity|]. cbn in Hr. lia.
Qed.

Lemma actor_loss_continuous w net ls obs actions advantages sigma Mu A d :
  discrete (self w) = false ->
  mean_net (self w) = Some net ->
  logstd (self w) = Some ls ->
  p_data ls = of_vec sigma ->
  fwd net (weights net) (data (from_numpy obs)) = OK (of_mat (length sigma) Mu) ->
  Forall (fun row => length row = length sigma) Mu ->
  data (from_numpy actions) = of_mat (length sigma) A ->
  Forall (fun row => length row = length sigma) A ->
  data (from_numpy advantages) = of_vec d ->
  length A = length Mu ->
  length d = length Mu ->
  exists loss,
    actor_loss obs actions advantages w = (OK loss, w)
    /\ data loss
       = Scalar (spec_loss (zip_with (spec_log_p_continuous sigma) Mu A) d)
    /\ requires_grad loss = grad_enabled w.
Proof.
  intros Hd Hn Hl Hs Hf HM Ha HA Hadv HlA Hld.
  destruct (forward_continuous_batch w net ls (from_numpy obs) sigma Mu
              Hd Hn Hl Hs Hf HM) as [loc [scale [E1 [D1 [D2 [R1 R2]]]]]].
  set (B := length Mu) in *. set (D := length sigma) in *.
  rewrite (tab2_of_mat 0 D Mu HM) in D1. fold B in D1.
  rewrite (tab2_of_mat 0 D A HA), HlA in Ha. fold B in Ha.
  assert (D2' : data scale
                = of_mat D (tab2 B D (fun _ j => exp (nth j sigma 0)))).
  { rewrite D2. f_equal. rewrite repeat_tab. unfold tab2.
    apply tab_ext. intros i _. rewrite (tab_of_list 0 sigma) at 1.
    now rewrite map_tab. }
  destruct (Normal_log_prob_mat loc scale (from_numpy actions) (grad_enabled w)
              B D _ _ _ D1 D2' Ha) as [lp [E2 [D3 R3]]].
  destruct (torch_sum_last_OK lp (grad_enabled w)) as [log_p [E3 [D4 R4]]].
  rewrite D3, tsum_last_of_mat in D4.
  destruct (loss_of_log_p log_p (from_numpy advantages) (grad_enabled w)
              _ d D4 Hadv) as [loss [E4 [D5 R5]]].
  { unfold tab2. now rewrite length_map, length_tab. }
  exists loss. split; [|split].
  - unfold actor_loss. rewrite (bindM_OK _ _ _ _ _ E1), bind_get_self, Hd.
    cbn [log_prob].
    assert (E23 : (lp0 <- Normal_log_prob loc scale (from_numpy actions) ;;
                   torch_sum_last lp0) (grad_enabled w) = OK log_p).
    { now rewrite (bindG_OK _ _ _ _ E2). }
    rewrite (bind_liftG_OK _ _ _ _ E23).
    now apply liftG_OK.
  - rewrite D5. do 2 f_equal.
    unfold tab2. rewrite map_tab.
    rewrite (zip_with_nth (spec_log_p_continuous sigma) [] [] Mu A B)
      by (auto; reflexivity).
    apply tab_ext. intros i Hi.
    rewrite spec_log_p_continuous_tab; [reflexivity| |].
    + rewrite Forall_forall in HM. apply HM. apply nth_In. exact Hi.
    + rewrite Forall_forall in HA. apply HA. apply nth_In. now rewrite HlA.
  - rewrite R5, R4, R3, R2, requires_grad_from_numpy.
    destruct (grad_enabled w), (requires_grad loc); reflexivity.
Qed.


Lemma weights_nonempty net :
  parameters net <> [] -> negb (length (weights net) =? 0)%nat = true.
Proof.
  intros H. unfold weights. rewrite length_map.
  destruct (parameters net); [congruence | reflexivity].
Qed.

(** C1: with grad mode on, for observations, actions and advantages of one
    batch size, where the network returns one row of scores or of means per
    observation, [MLPPolicyPG.update] returns under "Actor Loss" the negated
    mean over the batch of log-probability times advantage.  In discrete
    mode the log-probability is that of the action index under the scores;
    in continuous mode the per-dimension Gaussian log-densities are summed
    over the action dimensions, one number per row. *)
Theorem update_loss_is_negated_mean
  (w : World) (obs actions advantages : ndarray) :
  grad_enabled w = true ->
  (forall net n S a d,
      discrete (self w) = true ->
      logits_net (self w) = Some net ->
      parameters net <> [] ->
      fwd net (weights net) (data (from_numpy obs)) = OK (of_mat n S) ->
      Forall (fun row => length row = n) S ->
      data (from_numpy actions) = of_vec (map IZR a) ->
      data (from_numpy advantages) = of_vec d ->
      length a = length S ->
      length d = length S ->
      (0 < n)%nat ->
      Forall (fun z => (0 <= z < Z.of_nat n)%Z) a ->
      exists w',
        MLPPolicyPG_update obs actions advantages w
        = (OK [("Actor Loss"%string,
                NdFloat (Scalar (spec_loss
                                   (zip_with spec_log_p_discrete S a) d)))],
           w'))
  /\ (forall net ls sigma Mu A d,
      discrete (self w) = false ->
      mean_net (self w) = Some net ->
      logstd (self w) = Some ls ->
      p_data ls = of_vec sigma ->
      fwd net (weights net) (data (from_numpy obs))
      = OK (of_mat (length sigma) Mu) ->
      Forall (fun row => length row = length sigma) Mu ->
      data (from_numpy actions) = of_mat (length sigma) A ->
      Forall (fun row => length row = length sigma) A ->
      data (from_numpy advantages) = of_vec d ->
      length A = length Mu ->
      length d = length Mu ->
      exists w',
        MLPPolicyPG_update obs actions advantages w
        = (OK [("Actor Loss"%string,
                NdFloat (Scalar (spec_loss
                                   (zip_with (spec_log_p_continuous sigma)
                                      Mu A) d)))],
           w')).
Proof.
  intros Hg. split.
  - intros net n S a d Hd Hn Hp Hf HS Ha Hadv Hla Hld Hpos Hr.
    destruct (actor_loss_discrete w net obs actions advantages n S a d)
      as [loss [E [D R]]]; auto.
    rewrite Hg, (weights_nonempty net Hp) in R.
    destruct (update_from_loss obs actions advantages w loss E R) as [w' Hw].
    { now rewrite D. }
    exists w'. now rewrite Hw, D.
  - intros net ls sigma Mu A d Hd Hn Hl Hs Hf HM Ha HA Hadv HlA Hld.
    destruct (actor_loss_continuous w net ls obs actions advantages
                sigma Mu A d) as [loss [E [D R]]]; auto.
    rewrite Hg in R.
    destruct (update_from_loss obs actions advantages w loss E R) as [w' Hw].
    { now rewrite D. }
    exists w'. now rewrite Hw, D.
Qed.

Lemma update_loss_is_negated_mean_witness :
  (exists w',
      MLPPolicyPG_update (NdFloat (of_mat 1 [[0]; [0]; [0]]))
        (NdInt (of_vec [0; 1; 0]%Z)) (NdFloat (of_vec [1; 2; 3]))
        (world_of demo_discrete)
      = (OK [("Actor Loss"%string,
              NdFloat (Scalar (spec_loss
                                 (zip_with spec_log_p_discrete
                                    [[0; 0]; [0; 0]; [0; 0]] [0; 1; 0]%Z)
                                 [1; 2; 3])))],
         w'))
  /\ (exists w',
      MLPPolicyPG_update (NdFloat (of_mat 1 [[0]; [0]; [0]]))
        (NdFloat (of_mat 1 [[1]; [2]; [3]])) (NdFloat (of_vec [1; 2; 3]))
        (world_of demo_continuous)
      = (OK [("Actor Loss"%string,
              NdFloat (Scalar (spec_loss
                                 (zip_with (spec_log_p_continuous [0])
                                    [[0]; [0]; [0]] [[1]; [2]; [3]])
                                 [1; 2; 3])))],
         w')).
Proof.
  split.
  - apply (proj1 (update_loss_is_negated_mean (world_of demo_discrete)
                    (NdFloat (of_mat 1 [[0]; [0]; [0]]))
                    (NdInt (of_vec [0; 1; 0]%Z)) (NdFloat (of_vec [1; 2; 3]))
                    eq_refl)
             (Linear 1 2 (zeros [2; 1]%nat) (zeros [2%nat])) 2%nat
             [[0; 0]; [0; 0]; [0; 0]] [0; 1; 0]%Z [1; 2; 3]).
    + reflexivity.
    + reflexivity.
    + discriminate.
    + exact demo_discrete_scores.
    + repeat constructor.
    + reflexivity.
    + reflexivity.
    + reflexivity.
    + reflexivity.
    + lia.
    + repeat constructor; lia.
  - apply (proj2 (update_loss_is_negated_mean (world_of demo_continuous)
                    (NdFloat (of_mat 1 [[0]; [0]; [0]]))
                    (NdFloat (of_mat 1 [[1]; [2]; [3]]))
                    (NdFloat (of_vec [1; 2; 3])) eq_refl)
             (Linear 1 1 (zeros [1; 1]%nat) (zeros [1%nat]))
             {| p_data := zeros [1%nat]; p_grad := None |} [0]
             [[0]; [0]; [0]] [[1]; [2]; [3]] [1; 2; 3]).
    + reflexivity.
    + reflexivity.
    + reflexivity.
    + reflexivity.
    + exact demo_continuous_mean.
    + repeat constructor.
    + reflexivity.
    + repeat constructor.
    + reflexivity.
    + reflexivity.
    + reflexivity.
Defined.

Lemma broadcast_shapes_1_1 a b :
  broadcast_shapes [a] [b] = if compatb a b then Some [bdim a b] else None.
Proof.
  unfold broadcast_shapes, pad_shape, compatb, bdim. cbn.
  destruct (a =? b)%nat, (a =? 1)%nat, (b =? 1)%nat; reflexivity.
Qed.

Lemma broadcast_shapes_2_1 a1 a2 b :
  broadcast_shapes [a1; a2] [b]
  = if compatb a2 b then Some [a1; bdim a2 b] else None.
Proof.
  unfold broadcast_shapes, pad_shape, compatb, bdim. cbn.
  destruct (a2 =? b)%nat, (a2 =? 1)%nat, (b =? 1)%nat; cbn;
    destruct (a1 =? 1)%nat eqn:E; try reflexivity;
    apply Nat.eqb_eq in E; subst; reflexivity.
Qed.

Lemma broadcast_shapes_2_2 a1 a2 b1 b2 :
  broadcast_shapes [a1; a2] [b1; b2]
  = if compatb a2 b2 && compatb a1 b1
    then Some [bdim a1 b1; bdim a2 b2] else None.
Proof.
  unfold broadcast_shapes, pad_shape, compatb, bdim. cbn.
  destruct (a2 =? b2)%nat, (a2 =? 1)%nat, (b2 =? 1)%nat; cbn;
    destruct (a1 =? b1)%nat, (a1 =? 1)%nat, (b1 =? 1)%nat; reflexivity.
Qed.

Lemma shapes_compatible_1_1 a b :
  shapes_compatible [a] [b] = compatb a b.
Proof.
  unfold shapes_compatible, compatb. cbn.
  destruct (a =? b)%nat, (a =? 1)%nat, (b =? 1)%nat; reflexivity.
Qed.

Lemma shapes_compatible_2_2 a1 a2 b1 b2 :
  shapes_compatible [a1; a2] [b1; b2] = compatb a2 b2 && compatb a1 b1.
Proof.
  unfold shapes_compatible, compatb. cbn.
  destruct (a2 =? b2)%nat, (a2 =? 1)%nat, (b2 =? 1)%nat; cbn;
    destruct (a1 =? b1)%nat, (a1 =? 1)%nat, (b1 =? 1)%nat; reflexivity.
Qed.

Lemma compatb_false a b : clash a b -> compatb a b = false.
Proof.
  intros [H1 [H2 H3]]. unfold compatb.
  destruct (Nat.eqb_spec a b), (Nat.eqb_spec a 1), (Nat.eqb_spec b 1);
    try reflexivity; contradiction.
Qed.

Lemma compatb_true a b : compatb a b = true -> a = b \/ a = 1%nat \/ b = 1%nat.
Proof.
  unfold compatb.
  destruct (Nat.eqb_spec a b), (Nat.eqb_spec a 1), (Nat.eqb_spec b 1);
    auto; discriminate.
Qed.

Lemma bdim_cases a b :
  compatb a b = true ->
  (bdim a b = a /\ (b = a \/ b = 1%nat)) \/ (bdim a b = b /\ a = 1%nat).
Proof.
  unfold compatb, bdim.
  destruct (Nat.eqb_spec a b), (Nat.eqb_spec a 1), (Nat.eqb_spec b 1);
    intros H; try discriminate; auto.
Qed.

Lemma bdim_absorb a b : compatb a b = true -> bdim (bdim a b) b = bdim a b.
Proof.
  unfold compatb, bdim.
  destruct (Nat.eqb_spec a b), (Nat.eqb_spec a 1), (Nat.eqb_spec b 1);
    intros H; try discriminate; subst;
    repeat match goal with
           | |- context [(?x =? ?y)%nat] => destruct (Nat.eqb_spec x y)
           end; try reflexivity; try lia.
Qed.

Lemma compatb_bdim a b : compatb a b = true -> compatb (bdim a b) b = true.
Proof.
  unfold compatb, bdim.
  destruct (Nat.eqb_spec a b), (Nat.eqb_spec a 1), (Nat.eqb_spec b 1);
    intros H; try discriminate; subst;
    repeat match goal with
           | |- context [(?x =? ?y)%nat] => destruct (Nat.eqb_spec x y)
           end; try reflexivity; try lia.
Qed.

(** With a clash among the three batch sizes, the product with the
    advantages cannot be formed once observations and actions have been. *)
Lemma clash_blocks_product Bo Ba Bd :
  clash Bo Ba \/ clash Bo Bd \/ clash Ba Bd ->
  compatb Ba Bo = true ->
  compatb (bdim Ba Bo) Bd = false.
Proof.
  unfold clash, compatb, bdim. intros H.
  destruct (Nat.eqb_spec Ba Bo), (Nat.eqb_spec Ba 1), (Nat.eqb_spec Bo 1);
    intros C; try discriminate; subst;
    repeat match goal with
           | |- context [(?x =? ?y)%nat] => destruct (Nat.eqb_spec x y)
           end; try reflexivity; lia.
Qed.

(** Well-formed tensors of one and two dimensions *)
Lemma wf_rank0 {A} (t : tensor A) : shape t = [] -> exists x, t = Scalar x.
Proof. destruct t; [eauto | discriminate]. Qed.

Lemma wf_rank1 {A} (t : tensor A) n :
  wf t -> shape t = [n] -> exists v, t = of_vec v /\ length v = n.
Proof.
  destruct t as [x | s ts]; [discriminate|]. intros Hw Hs.
  cbn in Hs. injection Hs as Hl Hs0. subst s.
  apply wf_Stack in Hw. exists (scalar_values ts). split.
  - unfold of_vec. f_equal. clear Hl.
    induction ts as [|t ts IH]; [reflexivity|].
    inversion Hw as [|? ? [_ Ht] Hr]; subst.
    apply wf_rank0 in Ht as [x ->]. cbn. f_equal. now apply IH.
  - rewrite <- Hl. clear Hl.
    induction ts as [|t ts IH]; [reflexivity|].
    inversion Hw as [|? ? [_ Ht] Hr]; subst.
    apply wf_rank0 in Ht as [x ->]. cbn. f_equal. now apply IH.
Qed.

Lemma wf_rank2 {A} (t : tensor A) B n :
  wf t -> shape t = [B; n] ->
  exists S, t = of_mat n S /\ length S = B
            /\ Forall (fun row => length row = n) S.
Proof.
  destruct t as [x | s ts]; [discriminate|]. intros Hw Hs.
  cbn in Hs. injection Hs as Hl Hs0. subst s.
  apply wf_Stack in Hw. revert B Hl.
  induction ts as [|t ts IH]; intros B Hl.
  - exists []. repeat split; auto.
  - inversion Hw as [|? ? [Hwt Ht] Hr]; subst.
    destruct (wf_rank1 t n Hwt Ht) as [v [-> Hv]].
    destruct (IH Hr _ eq_refl) as [S [E [HlS HS]]].
    exists (v :: S). unfold of_mat in *. injection E as E.
    repeat split.
    + cbn. now rewrite E.
    + cbn. now rewrite HlS.
    + now constructor.
Qed.


Lemma expandable_refl s : expandable s s.
Proof. induction s; [constructor | apply expandable_same; auto]. Qed.

Lemma expandable_batch a b s :
  a = b \/ a = 1%nat -> expandable (a :: s) (b :: s).
Proof. intros H. apply expandable_same; auto. apply expandable_refl. Qed.

Lemma bdim_expandable a b :
  compatb a b = true ->
  (a = bdim a b \/ a = 1%nat) /\ (b = bdim a b \/ b = 1%nat).
Proof.
  intros H. destruct (bdim_cases a b H) as [[-> [->| ->]] | [-> ->]]; auto.
Qed.

Lemma Module_call_Raise ref net x ge e :
  fwd net (weights net) (data x) = Raise e ->
  Module_call ref net x ge = Raise e.
Proof. intros H. unfold Module_call. fold (weights net). now rewrite H. Qed.

Lemma Categorical_log_prob_cases logits value ge n L av :
  data logits = of_mat n L ->
  Forall (fun row => length row = n) L ->
  (0 < n)%nat ->
  data value = of_vec av ->
  (exists e, Categorical_log_prob logits value ge = Raise e)
  \/ (exists lp,
        Categorical_log_prob logits value ge = OK lp
        /\ wf (data lp)
        /\ shape (data lp) = [bdim (length av) (length L)]
        /\ compatb (length av) (length L) = true).
Proof.
  intros Hl HL Hn Hv. unfold Categorical_log_prob.
  rewrite Hl, Hv, last_dim_of_mat. unfold batch_shape_of.
  rewrite shape_of_mat, shape_of_vec. cbn [removelast].
  rewrite shapes_compatible_1_1.
  destruct (compatb (length av) (length L)) eqn:C;
    [|left; eexists; reflexivity].
  cbn [negb].
  destruct (tall _ (of_vec av)); [|left; eexists; reflexivity]. cbn [negb].
  rewrite shape_tmap, shape_of_vec, broadcast_shapes_1_1, C.
  destruct (Nat.eqb_spec n 0) as [E|_]; [lia|].
  right. eexists. split; [reflexivity|]. rewrite data_mk.
  set (B := bdim (length av) (length L)).
  destruct (bdim_expandable _ _ C) as [Ea Eo]. fold B in Ea, Eo.
  destruct (wf_expand [B; n] (of_mat n L)) as [W1 S1].
  { now apply wf_of_mat. }
  { rewrite shape_of_mat. now apply expandable_batch. }
  destruct (wf_rank2 _ B n W1 S1) as [S' [E1 [L1 R1]]].
  destruct (wf_expand [B] (tmap Rtrunc (of_vec av))) as [W2 S2].
  { apply wf_tmap, wf_of_vec. }
  { rewrite shape_tmap, shape_of_vec. now apply expandable_batch. }
  destruct (wf_rank1 _ B W2 S2) as [ix [E2 L2]].
  cbn [app]. rewrite E1, E2, to_rows_of_mat, tzip_of_vec.
  split; [apply wf_of_vec|]. split; [|reflexivity].
  rewrite shape_of_vec, length_zip_with, L1, L2. now rewrite Nat.min_id.
Qed.

Lemma torch_mul_clash a b ge x d :
  shape (data a) = [x] ->
  data b = of_vec d ->
  compatb x (length d) = false ->
  torch_mul a b ge = Raise RuntimeError.
Proof.
  intros Ha Hb C. unfold torch_mul. apply binop_Raise.
  now rewrite Ha, Hb, shape_of_vec, broadcast_shapes_1_1, C.
Qed.

Lemma forward_raises_discrete w net obs e :
  discrete (self w) = true ->
  logits_net (self w) = Some net ->
  fwd net (weights net) (data obs) = Raise e ->
  MLPPolicy_forward obs w = (Raise e, w).
Proof.
  intros Hd Hn Hf. unfold MLPPolicy_forward.
  rewrite bind_get_self, Hd, Hn, bind_attr_Some.
  apply bind_liftG_Raise. now apply Module_call_Raise.
Qed.

Lemma actor_loss_discrete_clash w net obs actions advantages av d B :
  discrete (self w) = true ->
  logits_net (self w) = Some net ->
  batch_preserving net (data (from_numpy obs)) B ->
  data (from_numpy actions) = of_vec av ->
  data (from_numpy advantages) = of_vec d ->
  clash B (length av) \/ clash B (length d) \/ clash (length av) (length d) ->
  exists e, actor_loss obs actions advantages w = (Raise e, w).
Proof.
  intros Hd Hn Hc Ha Hadv Hclash.
  destruct (fwd net (weights net) (data (from_numpy obs))) as [y|e] eqn:Hf.
  2:{ exists e. unfold actor_loss.
      now rewrite (bindM_Raise _ _ _ _ _
                     (forward_raises_discrete w net _ e Hd Hn Hf)). }
  destruct (Hc y Hf) as [n [S [-> [HB [HS Hpos]]]]].
  destruct (forward_discrete_batch w net (from_numpy obs) n S Hd Hn Hf HS)
    as [logits [E1 [D1 _]]].
  unfold actor_loss. rewrite (bindM_OK _ _ _ _ _ E1), bind_get_self, Hd.
  cbn [log_prob].
  destruct (Categorical_log_prob_cases logits (from_numpy actions)
              (grad_enabled w) n (map normalize_row S) av D1)
    as [[e E2] | [lp [E2 [W [Sh C]]]]]; auto.
  { apply Forall_forall. intros row Hrow.
    apply in_map_iff in Hrow as [r [<- Hin]]. rewrite length_normalize_row.
    rewrite Forall_forall in HS. now apply HS. }
  - exists e. now rewrite (bind_liftG_Raise _ _ _ _ E2).
  - rewrite (bind_liftG_OK _ _ _ _ E2). exists RuntimeError.
    apply liftG_Raise. apply bindG_Raise.
    rewrite length_map, HB in Sh, C.
    apply (torch_mul_clash lp _ _ _ d Sh Hadv).
    now apply clash_blocks_product.
Qed.


Lemma unop_shape f df x ge s :
  wf (data x) -> shape (data x) = s ->
  exists t, unop f df x ge = OK t /\ wf (data t) /\ shape (data t) = s.
Proof.
  intros W S. destruct (unop_OK f df x ge) as [t [E [D _]]].
  exists t. rewrite D. repeat split; auto.
  - now apply wf_tmap.
  - now rewrite shape_tmap.
Qed.

Lemma binop_shape f dfa dfb a b ge sa sb s :
  wf (data a) -> shape (data a) = sa ->
  wf (data b) -> shape (data b) = sb ->
  broadcast_shapes sa sb = Some s ->
  exists t, binop f dfa dfb a b ge = OK t /\ wf (data t) /\ shape (data t) = s.
Proof.
  intros Wa Sa Wb Sb H.
  destruct (binop_OK f dfa dfb a b ge s Wa Wb) as [t [E [_ [W [S _]]]]].
  { now rewrite Sa, Sb. }
  exists t. auto.
Qed.

Lemma forward_continuous_cases w net ls obs sigma n Mu :
  discrete (self w) = false ->
  mean_net (self w) = Some net ->
  logstd (self w) = Some ls ->
  p_data ls = of_vec sigma ->
  fwd net (weights net) (data obs) = OK (of_mat n Mu) ->
  Forall (fun row => length row = n) Mu ->
  (exists e, MLPPolicy_forward obs w = (Raise e, w))
  \/ (exists loc scale m,
        MLPPolicy_forward obs w = (OK (Normal loc scale), w)
        /\ wf (data loc) /\ shape (data loc) = [length Mu; m]
        /\ wf (data scale) /\ shape (data scale) = [length Mu; m]).
Proof.
  intros Hd Hn Hl Hs Hf HM.
  pose proof (broadcast_shapes_2_1 (length Mu) n (length sigma)) as HB.
  destruct (compatb n (length sigma)) eqn:C.
  - right.
    destruct (forward_continuous w net ls obs (of_mat n Mu)
                [length Mu; bdim n (length sigma)] Hd Hn Hl Hf)
      as [loc [scale [E [D1 [D2 _]]]]].
    { rewrite Hs, shape_of_mat, shape_of_vec. exact HB. }
    exists loc, scale, (bdim n (length sigma)). split; [exact E|].
    assert (HB' : broadcast_shapes (shape (of_mat n Mu))
                    (shape (tmap exp (of_vec sigma)))
                  = Some [length Mu; bdim n (length sigma)]).
    { now rewrite shape_of_mat, shape_tmap, shape_of_vec. }
    destruct (broadcast_shapes_expandable _ _ _ HB') as [X1 X2].
    rewrite D1, D2, Hs.
    destruct (wf_expand _ (of_mat n Mu) (wf_of_mat n Mu HM) X1) as [W1 S1].
    destruct (wf_expand _ (tmap exp (of_vec sigma))
                (wf_tmap exp _ (wf_of_vec sigma)) X2) as [W2 S2].
    auto.
  - left. exists RuntimeError.
    destruct (Module_call_OK Ref_mean_net net obs (grad_enabled w) _ Hf)
      as [loc0 [E1 [D1 _]]].
    destruct (unop_OK exp exp (as_tensor Ref_logstd ls) (grad_enabled w))
      as [scale0 [E2 [D2 _]]].
    unfold MLPPolicy_forward. rewrite bind_get_self, Hd, Hn, bind_attr_Some.
    rewrite (bind_liftG_OK _ _ _ _ E1), Hl, bind_attr_Some.
    rewrite (bind_liftG_OK _ _ _ _ E2).
    apply bind_liftG_Raise. unfold Normal_init, broadcast_all.
    rewrite D1, D2. cbn [as_tensor data].
    now rewrite Hs, shape_of_mat, shape_tmap, shape_of_vec, HB.
Qed.

Lemma Normal_log_prob_cases loc scale value ge Bo m k A :
  wf (data loc) -> shape (data loc) = [Bo; m] ->
  wf (data scale) -> shape (data scale) = [Bo; m] ->
  data value = of_mat k A ->
  Forall (fun row => length row = k) A ->
  (exists e, Normal_log_prob loc scale value ge = Raise e)
  \/ (exists lp c,
        Normal_log_prob loc scale value ge = OK lp
        /\ wf (data lp)
        /\ shape (data lp) = [bdim (length A) Bo; c]
        /\ compatb (length A) Bo = true).
Proof.
  intros Wl Sl Ws Ss Hv HA. unfold Normal_log_prob.
  rewrite Hv, Sl, shape_of_mat, shapes_compatible_2_2.
  destruct (compatb k m) eqn:C1; [|left; eexists; reflexivity].
  destruct (compatb (length A) Bo) eqn:C2; [|left; eexists; reflexivity].
  cbn [andb negb]. right.
  set (L := bdim (length A) Bo). set (c := bdim k m).
  assert (Wv : wf (data value)) by (rewrite Hv; now apply wf_of_mat).
  assert (Sv : shape (data value) = [length A; k])
    by (rewrite Hv; apply shape_of_mat).
  destruct (unop_shape (fun x => x ^ 2) (fun x => 2 * x) scale ge _ Ws Ss)
    as [var [E1 [W1 S1]]].
  destruct (unop_shape ln (fun x => / x) scale ge _ Ws Ss)
    as [log_scale [E2 [W2 S2]]].
  destruct (binop_shape Rminus (fun _ _ => 1) (fun _ _ => -1) value loc ge
              _ _ [L; c] Wv Sv Wl Sl) as [diff [E3 [W3 S3]]].
  { now rewrite broadcast_shapes_2_2, C1, C2. }
  destruct (unop_shape (fun x => x ^ 2) (fun x => 2 * x) diff ge _ W3 S3)
    as [sq [E4 [W4 S4]]].
  destruct (unop_shape Ropp (fun _ => -1) sq ge _ W4 S4)
    as [nsq [E5 [W5 S5]]].
  destruct (unop_shape (fun x => 2 * x) (fun _ => 2) var ge _ W1 S1)
    as [var2 [E6 [W6 S6]]].
  assert (HB : broadcast_shapes [L; c] [Bo; m] = Some [L; c]).
  { rewrite broadcast_shapes_2_2. unfold L, c.
    rewrite !compatb_bdim, !bdim_absorb by assumption. reflexivity. }
  destruct (binop_shape Rdiv (fun _ y => / y) (fun x y => - x / (y * y))
              nsq var2 ge _ _ _ W5 S5 W6 S6 HB) as [quot [E7 [W7 S7]]].
  destruct (binop_shape Rminus (fun _ _ => 1) (fun _ _ => -1) quot log_scale ge
              _ _ _ W7 S7 W2 S2 HB) as [rest [E8 [W8 S8]]].
  destruct (unop_shape (fun x => x - ln (sqrt (2 * PI))) (fun _ => 1) rest ge
              _ W8 S8) as [lp [E9 [W9 S9]]].
  exists lp, c. split; [|auto].
  unfold torch_pow2, torch_log, torch_sub, torch_neg, torch_rmul, torch_div,
    torch_sub_const.
  rewrite (bindG_OK _ _ _ _ E1), (bindG_OK _ _ _ _ E2), (bindG_OK _ _ _ _ E3),
    (bindG_OK _ _ _ _ E4), (bindG_OK _ _ _ _ E5), (bindG_OK _ _ _ _ E6),
    (bindG_OK _ _ _ _ E7), (bindG_OK _ _ _ _ E8).
  exact E9.
Qed.

Lemma forward_raises_continuous w net obs e :
  discrete (self w) = false ->
  mean_net (self w) = Some net ->
  fwd net (weights net) (data obs) = Raise e ->
  MLPPolicy_forward obs w = (Raise e, w).
Proof.
  intros Hd Hn Hf. unfold MLPPolicy_forward.
  rewrite bind_get_self, Hd, Hn, bind_attr_Some.
  apply bind_liftG_Raise. now apply Module_call_Raise.
Qed.

Lemma actor_loss_continuous_clash w net ls obs actions advantages
  sigma k A d B :
  discrete (self w) = false ->
  mean_net (self w) = Some net ->
  logstd (self w) = Some ls ->
  p_data ls = of_vec sigma ->
  batch_preserving net (data (from_numpy obs)) B ->
  data (from_numpy actions) = of_mat k A ->
  Forall (fun row => length row = k) A ->
  data (from_numpy advantages) = of_vec d ->
  clash B (length A) \/ clash B (length d) \/ clash (length A) (length d) ->
  exists e, actor_loss obs actions advantages w = (Raise e, w).
Proof.
  intros Hd Hn Hl Hs Hc Ha HA Hadv Hclash.
  destruct (fwd net (weights net) (data (from_numpy obs))) as [y|e] eqn:Hf.
  2:{ exists e. unfold actor_loss.
      now rewrite (bindM_Raise _ _ _ _ _
                     (forward_raises_continuous w net _ e Hd Hn Hf)). }
  destruct (Hc y Hf) as [n [Mu [-> [HB [HM Hpos]]]]].
  destruct (forward_continuous_cases w net ls (from_numpy obs) sigma n Mu
              Hd Hn Hl Hs Hf HM)
    as [[e E1] | [loc [scale [m [E1 [W1 [S1 [W2 S2]]]]]]]].
  { exists e. unfold actor_loss. now rewrite (bindM_Raise _ _ _ _ _ E1). }
  unfold actor_loss. rewrite (bindM_OK _ _ _ _ _ E1), bind_get_self, Hd.
  cbn [log_prob]. rewrite HB in S1, S2.
  destruct (Normal_log_prob_cases loc scale (from_numpy actions)
              (grad_enabled w) B m k A W1 S1 W2 S2 Ha HA)
    as [[e E2] | [lp [c [E2 [W [Sh C]]]]]].
  - exists e. apply bind_liftG_Raise. now apply bindG_Raise.
  - destruct (torch_sum_last_OK lp (grad_enabled w)) as [log_p [E3 [D3 _]]].
    destruct (wf_rank2 _ _ _ W Sh) as [S' [ES [LS _]]].
    rewrite ES, tsum_last_of_mat in D3.
    assert (E23 : (lp0 <- Normal_log_prob loc scale (from_numpy actions) ;;
                   torch_sum_last lp0) (grad_enabled w) = OK log_p).
    { now rewrite (bindG_OK _ _ _ _ E2). }
    rewrite (bind_liftG_OK _ _ _ _ E23). exists RuntimeError.
    apply liftG_Raise. apply bindG_Raise.
    apply (torch_mul_clash log_p _ _ (bdim (length A) B) d); auto.
    + now rewrite D3, shape_of_vec, length_map, LS.
    + now apply clash_blocks_product.
Qed.


(** One advantage against a batch of log-probabilities is broadcast. *)
Lemma loss_of_log_p_broadcast log_p advantages ge lp c :
  data log_p = of_vec lp ->
  data advantages = of_vec [c] ->
  exists loss,
    (weighted <- torch_mul log_p advantages ;;
     m <- torch_mean weighted ;;
     torch_neg m) ge = OK loss
    /\ data loss = Scalar (spec_loss lp (repeat c (length lp)))
    /\ requires_grad loss
       = ge && (requires_grad log_p || requires_grad advantages).
Proof.
  intros Hl Ha.
  destruct (binop_OK Rmult (fun _ y => y) (fun x _ => x) log_p advantages ge
              [length lp]) as [weighted [E1 [D1 [_ [_ R1]]]]].
  { rewrite Hl. apply wf_of_vec. }
  { rewrite Ha. apply wf_of_vec. }
  { rewrite Hl, Ha, !shape_of_vec. apply broadcast_shapes_vec_one. }
  rewrite Hl, Ha, expand_singleton_vec in D1.
  rewrite <- (shape_of_vec lp) in D1 at 1.
  rewrite expand_same, tzip_of_vec in D1 by apply wf_of_vec.
  eexists. split; [|split].
  - unfold torch_mul. rewrite (bindG_OK _ _ _ _ E1).
    unfold torch_mean at 1. cbn [bind G_Monad]. reflexivity.
  - unfold torch_neg, unop. rewrite !data_mk, D1. cbn [tmap].
    unfold spec_loss, tsum, numel. rewrite flatten_of_vec, length_zip_with.
    rewrite repeat_length, Nat.min_id. reflexivity.
  - unfold torch_neg, unop. rewrite !requires_grad_mk, R1.
    now destruct ge, (requires_grad log_p), (requires_grad advantages).
Qed.

Lemma demo_discrete_scores_2 :
  fwd (Linear 1 2 (zeros [2; 1]%nat) (zeros [2%nat]))
    (weights (Linear 1 2 (zeros [2; 1]%nat) (zeros [2%nat])))
    (of_mat 1 [[0]; [0]])
  = OK (of_mat 2 [[0; 0]; [0; 0]]).
Proof.
  cbn. unfold of_mat, of_vec, dot, zip_with, Rsum. cbn.
  repeat f_equal; lra.
Qed.

(** C8 fails: with two observations, two actions and one advantage the
    update returns a loss, the advantage being broadcast to both rows. *)
Lemma update_broadcasts_one_advantage :
  length [[0]; [0]] <> length [5]
  /\ exists w',
       MLPPolicyPG_update (NdFloat (of_mat 1 [[0]; [0]]))
         (NdInt (of_vec [0; 1]%Z)) (NdFloat (of_vec [5]))
         (world_of demo_discrete)
       = (OK [("Actor Loss"%string,
               NdFloat (Scalar (spec_loss
                                  (zip_with spec_log_p_discrete
                                     [[0; 0]; [0; 0]] [0; 1]%Z)
                                  [5; 5])))],
          w').
Proof.
  split; [discriminate|].
  set (lp := zip_with spec_log_p_discrete [[0; 0]; [0; 0]] [0; 1]%Z).
  assert (H : exists loss,
             actor_loss (NdFloat (of_mat 1 [[0]; [0]]))
               (NdInt (of_vec [0; 1]%Z)) (NdFloat (of_vec [5]))
               (world_of demo_discrete)
             = (OK loss, world_of demo_discrete)
             /\ data loss = Scalar (spec_loss lp [5; 5])
             /\ requires_grad loss = true).
  { assert (T : forall log_p,
               data log_p = of_vec lp -> requires_grad log_p = true ->
               exists loss,
                 (weighted <- torch_mul log_p (from_numpy (NdFloat (of_vec [5]))) ;;
                  m <- torch_mean weighted ;;
                  torch_neg m) true = OK loss
                 /\ data loss = Scalar (spec_loss lp [5; 5])
                 /\ requires_grad loss = true).
    { intros log_p D R.
      destruct (loss_of_log_p_broadcast log_p
                  (from_numpy (NdFloat (of_vec [5]))) true lp 5 D eq_refl)
        as [loss [E [D' R']]].
      exists loss. repeat split; auto. now rewrite R', R. }
    destruct (forward_discrete_batch (world_of demo_discrete)
                (Linear 1 2 (zeros [2; 1]%nat) (zeros [2%nat]))
                (from_numpy (NdFloat (of_mat 1 [[0]; [0]]))) 2
                [[0; 0]; [0; 0]] eq_refl eq_refl demo_discrete_scores_2)
      as [logits [E1 [D1 R1]]]; [repeat constructor|].
    destruct (Categorical_log_prob_vec logits
                (from_numpy (NdInt (of_vec [0; 1]%Z))) true 2
                (map normalize_row [[0; 0]; [0; 0]]) [0; 1]%Z D1 eq_refl)
      as [log_p [E2 [D2 R2]]]; try reflexivity; try lia;
      try (repeat constructor; lia).
    rewrite (zip_with_gather_normalize 2 [[0; 0]; [0; 0]] [0; 1]%Z) in D2
      by (repeat constructor; lia).
    destruct (T log_p D2) as [loss [E3 [D3 R3]]].
    { rewrite R2, R1. reflexivity. }
    exists loss. split; [|split; assumption].
    unfold actor_loss. rewrite (bindM_OK _ _ _ _ _ E1), bind_get_self.
    rewrite (eq_refl : discrete (self (world_of demo_discrete)) = true).
    cbn [log_prob].
    rewrite (bind_liftG_OK _ (fun lp0 => liftG _) (world_of demo_discrete) _ E2).
    now apply liftG_OK. }
  destruct H as [loss [E [D R]]].
  destruct (update_from_loss _ _ _ _ loss E R) as [w' Hw].
  { now rewrite D. }
  exists w'. now rewrite Hw, D.
Qed.

Lemma demo_discrete_batch_preserving :
  batch_preserving (Linear 1 2 (zeros [2; 1]%nat) (zeros [2%nat]))
    (of_mat 1 [[0]; [0]]) 2.
Proof.
  intros y Hy. rewrite demo_discrete_scores_2 in Hy. injection Hy as <-.
  exists 2%nat, [[0; 0]; [0; 0]]. repeat split; auto.
Qed.

Lemma demo_continuous_mean_2 :
  fwd (Linear 1 1 (zeros [1; 1]%nat) (zeros [1%nat]))
    (weights (Linear 1 1 (zeros [1; 1]%nat) (zeros [1%nat])))
    (of_mat 1 [[0]; [0]])
  = OK (of_mat 1 [[0]; [0]]).
Proof.
  cbn. unfold of_mat, of_vec, dot, zip_with, Rsum. cbn.
  repeat f_equal; lra.
Qed.

Lemma demo_continuous_batch_preserving :
  batch_preserving (Linear 1 1 (zeros [1; 1]%nat) (zeros [1%nat]))
    (of_mat 1 [[0]; [0]]) 2.
Proof.
  intros y Hy. rewrite demo_continuous_mean_2 in Hy. injection Hy as <-.
  exists 1%nat, [[0]; [0]]. repeat split; auto.
Qed.




















Lemma all_zero_tmap_const (d : tensor R) : all_zero (tmap (fun _ => 0) d).
Proof.
  unfold all_zero. rewrite flatten_tmap. apply Forall_forall.
  intros x Hx. now apply in_map_iff in Hx as [? [<- _]].
Qed.





Lemma bindG_inv {A B} (m : G A) (k : A -> G B) ge t :
  (x <- m ;; k x) ge = OK t -> exists a, m ge = OK a /\ k a ge = OK t.
Proof. cbn. destruct (m ge) as [a|e]; [eauto | discriminate]. Qed.



















Lemma bindM_inv {A B} (m : M A) (k : A -> M B) w t w' :
  (x <- m ;; k x) w = (OK t, w') ->
  exists a w1, m w = (OK a, w1) /\ k a w1 = (OK t, w').
Proof.
  cbn. destruct (m w) as [[a|e] w1]; [eauto | discriminate].
Qed.

Lemma liftG_inv {A} (m : G A) w t w' :
  liftG m w = (OK t, w') -> m (grad_enabled w) = OK t /\ w' = w.
Proof. unfold liftG. intros H. inversion H; subst. auto. Qed.








(** The parameters of a policy as a store *)
Lemma ParamRef_eqb_eq a b : ParamRef_eqb a b = true <-> a = b.
Proof.
  destruct a as [|i|i], b as [|j|j]; cbn; split; intros H;
    try discriminate; try reflexivity;
    try (apply Nat.eqb_eq in H; now subst);
    injection H as ->; apply Nat.eqb_refl.
Qed.

Lemma ParamRef_eqb_refl a : ParamRef_eqb a a = true.
Proof. now apply ParamRef_eqb_eq. Qed.

Lemma nth_error_list_set {A} (l : list A) i x j :
  nth_error (list_set l i x) j
  = if (i =? j)%nat
    then match nth_error l i with Some _ => Some x | None => None end
    else nth_error l j.
Proof.
  revert i j. induction l as [|y l IH]; intros [|i] [|j]; cbn; try reflexivity.
  - now destruct (i =? j)%nat.
  - apply IH.
Qed.

Lemma module_get_set m i v j :
  module_get (module_set m i v) j
  = if (i =? j)%nat
    then match module_get m i with Some _ => Some v | None => None end
    else module_get m j.
Proof.
  destruct m as [net|]; cbn; [apply nth_error_list_set|].
  now destruct (i =? j)%nat.
Qed.

Lemma get_set_param p r v r' :
  get_param (set_param p r v) r'
  = if ParamRef_eqb r r'
    then match get_param p r with Some _ => Some v | None => None end
    else get_param p r'.
Proof.
  destruct r, r'; cbn; try reflexivity; try apply module_get_set.
Qed.

Lemma optimizer_set_param p r v : optimizer (set_param p r v) = optimizer p.
Proof. now destruct r. Qed.










Lemma same_data_refl p : same_data p p.
Proof. intros r. reflexivity. Qed.






Lemma same_data_trainable p q :
  same_data p q -> params (optimizer q) = params (optimizer p) ->
  trainable q = trainable p.
Proof.
  intros H E. unfold trainable. rewrite E. apply map_ext. exact H.
Qed.

(** [zero_grad] *)
Lemma get_param_clear_grad p r r' :
  get_param (clear_grad p r) r'
  = if ParamRef_eqb r r'
    then option_map (fun v => {| p_data := p_data v; p_grad := None |})
           (get_param p r)
    else get_param p r'.
Proof.
  unfold clear_grad. destruct (get_param p r) as [v|] eqn:E.
  - rewrite get_set_param, E. reflexivity.
  - destruct (ParamRef_eqb r r') eqn:Er; [|reflexivity].
    apply ParamRef_eqb_eq in Er. subst r'. exact E.
Qed.

Lemma optimizer_clear_grad p r : optimizer (clear_grad p r) = optimizer p.
Proof.
  unfold clear_grad. destruct (get_param p r); [|reflexivity].
  apply optimizer_set_param.
Qed.

Lemma fold_clear_grad l p :
  optimizer (fold_left clear_grad l p) = optimizer p
  /\ same_data p (fold_left clear_grad l p)
  /\ forall r v, In r l -> get_param (fold_left clear_grad l p) r = Some v ->
       p_grad v = None.
Proof.
  induction l as [|x l IH] using rev_ind.
  - cbn. split; [reflexivity|]. split; [apply same_data_refl|]. intros r v [].
  - rewrite fold_left_app. cbn [fold_left].
    destruct IH as [Ho [Hd Hg]]. set (q := fold_left clear_grad l p) in *.
    split; [now rewrite optimizer_clear_grad|]. split.
    + intros r. rewrite get_param_clear_grad.
      destruct (ParamRef_eqb x r) eqn:Er; [|apply Hd].
      apply ParamRef_eqb_eq in Er. subst r. rewrite <- Hd.
      now destruct (get_param q x).
    + intros r v Hin. rewrite get_param_clear_grad.
      destruct (ParamRef_eqb x r) eqn:Er.
      * destruct (get_param q x); cbn; intros E; [|discriminate].
        now inversion E.
      * intros E. apply (Hg r v); [|exact E].
        apply in_app_or in Hin as [Hin | [<- | []]]; [exact Hin|].
        rewrite ParamRef_eqb_refl in Er. discriminate.
Qed.























(** What [zero_grad], [backward] and [step] keep *)
Lemma length_list_set {A} (l : list A) i x :
  length (list_set l i x) = length l.
Proof.
  revert i. induction l as [|y l IH]; intros [|i]; cbn; auto.
Qed.

Lemma architecture_set_param p r v :
  architecture (set_param p r v) = architecture p.
Proof.
  unfold architecture. destruct r as [|i|i]; cbn.
  - now destruct (logstd p).
  - destruct (logits_net p) as [net|]; cbn; [|reflexivity].
    unfold layout_of. cbn. now rewrite length_list_set.
  - destruct (mean_net p) as [net|]; cbn; [|reflexivity].
    unfold layout_of. cbn. now rewrite length_list_set.
Qed.

Lemma architecture_clear_grad p r :
  architecture (clear_grad p r) = architecture p.
Proof.
  unfold clear_grad. destruct (get_param p r); [|reflexivity].
  apply architecture_set_param.
Qed.

Lemma architecture_accumulate p c :
  architecture (accumulate p c) = architecture p.
Proof.
  unfold accumulate. destruct (get_param p (fst c)); [|reflexivity].
  apply architecture_set_param.
Qed.

Lemma architecture_set_optimizer p o :
  params o = params (optimizer p) -> lr o = lr (optimizer p) ->
  beta1 o = beta1 (optimizer p) -> beta2 o = beta2 (optimizer p) ->
  eps o = eps (optimizer p) ->
  architecture (set_optimizer p o) = architecture p.
Proof.
  intros H1 H2 H3 H4 H5. unfold architecture. cbn.
  now rewrite H1, H2, H3, H4, H5.
Qed.

Lemma architecture_adam_step_param p r :
  architecture (adam_step_param p r) = architecture p.
Proof.
  unfold adam_step_param. destruct (get_param p r) as [v|]; [|reflexivity].
  destruct (p_grad v) as [grad|]; [|reflexivity].
  rewrite architecture_set_optimizer;
    [apply architecture_set_param
    | cbn; now rewrite optimizer_set_param ..].
Qed.

Lemma architecture_fold (f : MLPPolicy -> ParamRef -> MLPPolicy) l :
  (forall p r, architecture (f p r) = architecture p) ->
  forall p, architecture (fold_left f l p) = architecture p.
Proof.
  intros H. induction l as [|x l IH]; intros p; cbn; [reflexivity|].
  now rewrite IH, H.
Qed.

Lemma architecture_fold_accumulate cs p :
  architecture (fold_left accumulate cs p) = architecture p.
Proof.
  revert p. induction cs as [|c cs IH]; intros p; cbn; [reflexivity|].
  now rewrite IH, architecture_accumulate.
Qed.

(** The world an update leaves, in each of the ways it can end. *)
Lemma update_outcomes obs actions advantages w :
  (exists e,
      actor_loss obs actions advantages w = (Raise e, w)
      /\ MLPPolicyPG_update obs actions advantages w = (Raise e, w))
  \/ (exists loss,
        actor_loss obs actions advantages w = (OK loss, w)
        /\ (requires_grad loss = false \/ dim (data loss) <> 0%nat)
        /\ MLPPolicyPG_update obs actions advantages w
           = (Raise RuntimeError,
              with_self w (fold_left clear_grad
                             (params (optimizer (self w))) (self w))))
  \/ (exists loss,
        actor_loss obs actions advantages w = (OK loss, w)
        /\ requires_grad loss = true
        /\ dim (data loss) = 0%nat
        /\ let p1 := fold_left clear_grad (params (optimizer (self w)))
                       (self w) in
           let p2 := fold_left accumulate (back loss (Scalar 1)) p1 in
           MLPPolicyPG_update obs actions advantages w
           = (OK [("Actor Loss"%string, NdFloat (data loss))],
              with_self w (fold_left adam_step_param
                             (params (optimizer p2)) p2))).
Proof.
  rewrite update_unfold. cbn [bind M_Monad].
  pose proof (reads_actor_loss obs actions advantages w) as Hw.
  destruct (actor_loss obs actions advantages w) as [[loss|e] w1];
    cbn [snd] in Hw; subst w1.
  2:{ left. exists e. split; reflexivity. }
  right. unfold optimizer_zero_grad, backward.
  cbn [bind M_Monad get_self put_self].
  destruct (grad_fn loss) as [node|] eqn:En.
  - destruct (dim (data loss) =? 0)%nat eqn:Ed.
    + right. exists loss. split; [reflexivity|]. split.
      * unfold requires_grad. now rewrite En.
      * split; [now apply Nat.eqb_eq|]. unfold back. rewrite En. reflexivity.
    + left. exists loss. split; [reflexivity|]. split.
      * right. now apply Nat.eqb_neq.
      * reflexivity.
  - left. exists loss. split; [reflexivity|]. split.
    + left. unfold requires_grad. now rewrite En.
    + reflexivity.
Qed.

(** With grad mode off the loss carries no graph. *)
Lemma actor_loss_no_graph obs actions advantages w loss w' :
  grad_enabled w = false ->
  actor_loss obs actions advantages w = (OK loss, w') ->
  requires_grad loss = false.
Proof.
  intros Hg H. unfold actor_loss in H.
  apply bindM_inv in H as [d [w1 [E1 H]]].
  pose proof (reads_forward (from_numpy obs) w) as R1. unfold reads in R1.
  rewrite E1 in R1. cbn in R1. subst w1.
  rewrite bind_get_self in H.
  apply bindM_inv in H as [log_p [w2 [E2 H]]].
  assert (w2 = w).
  { destruct (discrete (self w)); apply liftG_inv in E2; tauto. }
  subst w2. apply liftG_inv in H as [H _]. rewrite Hg in H.
  apply bindG_inv in H as [weighted [_ H]].
  apply bindG_inv in H as [m [_ H]].
  unfold torch_neg, unop in H. inversion H. reflexivity.
Qed.

(** X1: a call to update changes parameter values, gradients and the state
    of Adam only.  Whether it returns or raises, the mode of the policy, the
    functions and the number of parameters of its networks, the presence of
    logstd, and the parameter list and the hyperparameters of the optimizer
    are afterwards what they were. *)
Theorem update_keeps_architecture (w : World) (obs actions advantages : ndarray) :
  architecture (self (snd (MLPPolicyPG_update obs actions advantages w)))
  = architecture (self w).
Proof.
  destruct (update_outcomes obs actions advantages w)
    as [[e [_ ->]] | [[loss [_ [_ ->]]] | [loss [_ [_ [_ H]]]]]].
  - reflexivity.
  - cbn. apply architecture_fold, architecture_clear_grad.
  - cbv zeta in H. rewrite H. cbn.
    rewrite (architecture_fold adam_step_param _ architecture_adam_step_param).
    rewrite architecture_fold_accumulate.
    apply architecture_fold, architecture_clear_grad.
Qed.

(** X2: an update that raises has not stepped.  The value of every trainable
    parameter and the whole optimizer, its moment estimates and step counts
    included, are what they were before the call; at most the gradients
    have been cleared. *)
Theorem update_failure_keeps_parameters
  (w : World) (obs actions advantages : ndarray) (e : exn) (w' : World) :
  MLPPolicyPG_update obs actions advantages w = (Raise e, w') ->
  trainable (self w') = trainable (self w)
  /\ optimizer (self w') = optimizer (self w)
  /\ (w' = w
      \/ w' = with_self w (fold_left clear_grad (params (optimizer (self w)))
                             (self w))).
Proof.
  intros H.
  destruct (update_outcomes obs actions advantages w)
    as [[e' [_ E]] | [[loss [_ [_ E]]] | [loss [_ [_ [_ E]]]]]].
  - rewrite E in H. inversion H; subst. auto.
  - rewrite E in H. inversion H; subst. cbn [self with_self].
    destruct (fold_clear_grad (params (optimizer (self w))) (self w))
      as [O [D _]].
    split; [|split; [exact O | now right]].
    apply same_data_trainable; [exact D | now rewrite O].
  - cbv zeta in E. rewrite E in H. discriminate.
Qed.

(** X3: update needs grad mode.  With grad mode off it never returns: the
    loss, when it can be computed, carries no graph, so that [backward]
    raises RuntimeError after [zero_grad] has cleared the gradient of every
    parameter of the optimizer; no parameter value and nothing in the
    optimizer changes. *)
Theorem update_needs_grad_mode (w : World) (obs actions advantages : ndarray) :
  grad_enabled w = false ->
  (exists e w',
      MLPPolicyPG_update obs actions advantages w = (Raise e, w')
      /\ trainable (self w') = trainable (self w)
      /\ optimizer (self w') = optimizer (self w))
  /\ (forall loss,
      actor_loss obs actions advantages w = (OK loss, w) ->
      exists w',
        MLPPolicyPG_update obs actions advantages w = (Raise RuntimeError, w')
        /\ forall r v,
             In r (params (optimizer (self w))) ->
             get_param (self w') r = Some v -> p_grad v = None).
Proof.
  intros Hg.
  destruct (fold_clear_grad (params (optimizer (self w))) (self w))
    as [O [D G]].
  destruct (update_outcomes obs actions advantages w)
    as [[e [E0 E]] | [[loss [E0 [_ E]]] | [loss [E0 [R _]]]]].
  - split.
    + exists e, w. auto.
    + intros loss El. rewrite El in E0. discriminate.
  - split.
    + eexists. eexists. split; [exact E|]. cbn [self with_self].
      split; [|exact O]. apply same_data_trainable; [exact D | now rewrite O].
    + intros loss' _. eexists. split; [exact E|]. exact G.
  - rewrite (actor_loss_no_graph _ _ _ _ _ _ Hg E0) in R. discriminate.
Qed.

Lemma update_raises_without_grad_demo :
  exists loss,
    actor_loss (NdFloat (of_mat 1 [[0]; [0]; [0]]))
      (NdFloat (of_mat 1 [[1]; [2]; [3]])) (NdFloat (of_vec [1; 2; 3]))
      (grad_off (world_of demo_continuous))
    = (OK loss, grad_off (world_of demo_continuous)).
Proof.
  destruct (actor_loss_continuous (grad_off (world_of demo_continuous))
              (Linear 1 1 (zeros [1; 1]%nat) (zeros [1%nat]))
              {| p_data := zeros [1%nat]; p_grad := None |}
              (NdFloat (of_mat 1 [[0]; [0]; [0]]))
              (NdFloat (of_mat 1 [[1]; [2]; [3]])) (NdFloat (of_vec [1; 2; 3]))
              [0] [[0]; [0]; [0]] [[1]; [2]; [3]] [1; 2; 3]
              eq_refl eq_refl eq_refl eq_refl demo_continuous_mean)
    as [loss [E _]]; try reflexivity; try (repeat constructor).
  exists loss. exact E.
Qed.

Lemma update_needs_grad_mode_witness :
  exists w',
    MLPPolicyPG_update (NdFloat (of_mat 1 [[0]; [0]; [0]]))
      (NdFloat (of_mat 1 [[1]; [2]; [3]])) (NdFloat (of_vec [1; 2; 3]))
      (grad_off (world_of demo_continuous))
    = (Raise RuntimeError, w')
    /\ forall r v,
         In r [Ref_logstd; Ref_mean_net 0; Ref_mean_net 1] ->
         get_param (self w') r = Some v -> p_grad v = None.
Proof.
  destruct update_raises_without_grad_demo as [loss E].
  exact (proj2 (update_needs_grad_mode (grad_off (world_of demo_continuous))
                  (NdFloat (of_mat 1 [[0]; [0]; [0]]))
                  (NdFloat (of_mat 1 [[1]; [2]; [3]]))
                  (NdFloat (of_vec [1; 2; 3])) eq_refl)
           loss E).
Defined.

Lemma update_raises_demo :
  exists w',
    MLPPolicyPG_update (NdFloat (of_mat 1 [[0]; [0]; [0]]))
      (NdFloat (of_mat 1 [[1]; [2]; [3]])) (NdFloat (of_vec [1; 2; 3]))
      (grad_off (world_of demo_continuous))
    = (Raise RuntimeError, w').
Proof.
  destruct update_raises_without_grad_demo as [loss E].
  destruct (update_outcomes (NdFloat (of_mat 1 [[0]; [0]; [0]]))
              (NdFloat (of_mat 1 [[1]; [2]; [3]])) (NdFloat (of_vec [1; 2; 3]))
              (grad_off (world_of demo_continuous)))
    as [[e [E0 _]] | [[loss' [_ [_ H]]] | [loss' [E0 [R _]]]]].
  - rewrite E in E0. discriminate.
  - eexists. exact H.
  - rewrite (actor_loss_no_graph _ _ _ (grad_off (world_of demo_continuous))
               _ _ eq_refl E0) in R.
    discriminate.
Qed.

Lemma update_failure_keeps_parameters_witness :
  exists w',
    MLPPolicyPG_update (NdFloat (of_mat 1 [[0]; [0]; [0]]))
      (NdFloat (of_mat 1 [[1]; [2]; [3]])) (NdFloat (of_vec [1; 2; 3]))
      (grad_off (world_of demo_continuous))
    = (Raise RuntimeError, w')
    /\ trainable (self w') = trainable demo_continuous
    /\ optimizer (self w') = optimizer demo_continuous.
Proof.
  destruct update_raises_demo as [w' H]. exists w'.
  split; [exact H|].
  destruct (update_failure_keeps_parameters _ _ _ _ _ _ H) as [T [O _]].
  split; [exact T | exact O].
Defined.

(** X4: how construction fails.  An exception of [build_mlp] is passed on as
    it is; a negative [ac_dim] in continuous mode raises RuntimeError (from
    [torch.zeros]); a negative learning rate, and in discrete mode a network
    without parameters, raise ValueError (from [optim.Adam]). *)
Theorem init_errors
  (build_mlp : Z -> Z -> Z -> Z -> Res Module)
  (ac_dim ob_dim : Z) (discrete : bool) (n_layers layer_size : Z)
  (learning_rate : R) :
  (forall e,
      build_mlp ob_dim ac_dim n_layers layer_size = Raise e ->
      MLPPolicy__init__ build_mlp ac_dim ob_dim discrete n_layers layer_size
        learning_rate = Raise e)
  /\ (forall net,
      build_mlp ob_dim ac_dim n_layers layer_size = OK net ->
      discrete = false -> (ac_dim < 0)%Z ->
      MLPPolicy__init__ build_mlp ac_dim ob_dim discrete n_layers layer_size
        learning_rate = Raise RuntimeError)
  /\ (forall net,
      build_mlp ob_dim ac_dim n_layers layer_size = OK net ->
      (discrete = false -> (0 <= ac_dim)%Z) ->
      learning_rate < 0 ->
      MLPPolicy__init__ build_mlp ac_dim ob_dim discrete n_layers layer_size
        learning_rate = Raise ValueError)
  /\ (forall net,
      build_mlp ob_dim ac_dim n_layers layer_size = OK net ->
      discrete = true -> parameters net = [] ->
      MLPPolicy__init__ build_mlp ac_dim ob_dim discrete n_layers layer_size
        learning_rate = Raise ValueError).
Proof.
  unfold MLPPolicy__init__. cbn [bind ret Res_Monad res_bind].
  split; [|split; [|split]].
  - intros e ->. now destruct discrete.
  - intros net -> -> Ha. cbn [res_bind]. unfold torch_zeros.
    apply Z.ltb_lt in Ha. now rewrite Ha.
  - intros net -> Ha Hl. cbn [res_bind]. unfold Adam_init.
    rewrite (Rltb_true _ _ Hl). destruct discrete; [reflexivity|].
    unfold torch_zeros.
    destruct (ac_dim <? 0)%Z eqn:E; [|reflexivity].
    apply Z.ltb_lt in E. specialize (Ha eq_refl). lia.
  - intros net -> -> Hp. cbn [res_bind]. unfold Adam_init.
    destruct (Rltb learning_rate 0); [reflexivity|].
    apply (refs_nil Ref_logits_net) in Hp. now rewrite Hp.
Qed.

Lemma init_errors_witness :
  MLPPolicy__init__ build_affine 1 1 false 3 64 (/ 1000)
  = Raise NotImplementedError
  /\ MLPPolicy__init__ build_affine 1 1 true 0 64 (-1) = Raise ValueError.
Proof.
  split.
  - apply (proj1 (init_errors build_affine 1 1 false 3 64 (/ 1000))).
    reflexivity.
  - apply (proj1 (proj2 (proj2 (init_errors build_affine 1 1 true 0 64 (-1))))
             (Linear 1 1 (zeros [1; 1]%nat) (zeros [1%nat]))).
    + reflexivity.
    + discriminate.
    + lra.
Defined.

Lemma In_refs ref net r :
  In r (refs ref net)
  <-> exists i, r = ref i /\ nth_error (parameters net) i <> None.
Proof.
  unfold refs. rewrite in_map_iff. split.
  - intros [i [<- Hi]]. exists i. split; [reflexivity|].
    apply in_seq in Hi. apply nth_error_Some. lia.
  - intros [i [-> Hi]]. exists i. split; [reflexivity|].
    apply nth_error_Some in Hi. apply in_seq. lia.
Qed.

Lemma NoDup_refs ref net :
  (forall i j, ref i = ref j -> i = j) -> NoDup (refs ref net).
Proof.
  intros Hinj. unfold refs.
  pose proof (seq_NoDup (length (parameters net)) 0) as H.
  induction H as [|x l Hx _ IH]; cbn; constructor; [|exact IH].
  rewrite in_map_iff. intros [y [E Hy]]. apply Hinj in E. now subst.
Qed.

Lemma Adam_init_fields ps learning_rate o :
  Adam_init ps learning_rate = OK o ->
  params o = ps /\ lr o = learning_rate /\ beta1 o = 9 / 10
  /\ beta2 o = 999 / 1000 /\ eps o = / 10 ^ 8 /\ state o = [].
Proof.
  unfold Adam_init. destruct (Rltb learning_rate 0); [discriminate|].
  destruct ps; [discriminate|]. intros H. inversion H. cbn. tauto.
Qed.

(** X5: what construction registers with the optimizer.  The policy that
    the constructor returns has the mode it was asked for; the optimizer
    holds every parameter of the policy, and nothing else, once each;
    it has the given learning rate, the default betas (0.9, 0.999) and
    eps 1e-8, and no state yet. *)
Theorem init_registers_every_parameter
  (build_mlp : Z -> Z -> Z -> Z -> Res Module)
  (ac_dim ob_dim : Z) (mode : bool) (n_layers layer_size : Z)
  (learning_rate : R) (p : MLPPolicy) :
  MLPPolicy__init__ build_mlp ac_dim ob_dim mode n_layers layer_size
    learning_rate = OK p ->
  discrete p = mode
  /\ NoDup (params (optimizer p))
  /\ (forall r, In r (params (optimizer p)) <-> get_param p r <> None)
  /\ lr (optimizer p) = learning_rate
  /\ beta1 (optimizer p) = 9 / 10 /\ beta2 (optimizer p) = 999 / 1000
  /\ eps (optimizer p) = / 10 ^ 8
  /\ state (optimizer p) = [].
Proof.
  unfold MLPPolicy__init__. cbn [bind ret Res_Monad res_bind].
  destruct (build_mlp ob_dim ac_dim n_layers layer_size) as [net|e];
    [|destruct mode; discriminate].
  cbn [res_bind]. destruct mode.
  - destruct (Adam_init _ learning_rate) as [o|e] eqn:EA; [|discriminate].
    cbn [res_bind]. intros H. injection H as <-. cbn [discrete optimizer].
    destruct (Adam_init_fields _ _ _ EA) as [-> [-> [-> [-> [-> ->]]]]].
    split; [reflexivity|]. split.
    { apply NoDup_refs. intros i j H. now injection H. }
    split; [|tauto].
    intros r. rewrite In_refs. split.
    + intros [i [-> Hi]]. exact Hi.
    + destruct r as [|i|i]; cbn; intros H; try congruence.
      exists i. auto.
  - unfold torch_zeros. destruct (ac_dim <? 0)%Z; [discriminate|].
    cbn [res_bind].
    destruct (Adam_init _ learning_rate) as [o|e] eqn:EA; [|discriminate].
    cbn [res_bind]. intros H. injection H as <-. cbn [discrete optimizer].
    destruct (Adam_init_fields _ _ _ EA) as [-> [-> [-> [-> [-> ->]]]]].
    split; [reflexivity|]. split.
    { cbn [app]. constructor.
      - rewrite In_refs. intros [i [H _]]. discriminate.
      - apply NoDup_refs. intros i j H. now injection H. }
    split; [|tauto].
    intros r. cbn [app In]. rewrite In_refs. split.
    + intros [<- | [i [-> Hi]]]; [discriminate | exact Hi].
    + destruct r as [|i|i]; cbn; intros H; try congruence; [now left|].
      right. exists i. auto.
Qed.

Lemma init_registers_every_parameter_witness :
  discrete demo_continuous = false
  /\ NoDup (params (optimizer demo_continuous))
  /\ (forall r,
        In r (params (optimizer demo_continuous))
        <-> get_param demo_continuous r <> None)
  /\ lr (optimizer demo_continuous) = / 1000
  /\ beta1 (optimizer demo_continuous) = 9 / 10
  /\ beta2 (optimizer demo_continuous) = 999 / 1000
  /\ eps (optimizer demo_continuous) = / 10 ^ 8
  /\ state (optimizer demo_continuous) = [].
Proof.
  exact (init_registers_every_parameter build_affine 1 1 false 0 64 (/ 1000)
           demo_continuous init_demo_continuous).
Defined.

(** The support check of [Categorical.log_prob] *)
Lemma Reqb_true x y : Reqb x y = true -> x = y.
Proof. unfold Reqb. now destruct (Req_dec_T x y). Qed.

Lemma Rleb_le x y : Rleb x y = true -> x <= y.
Proof. unfold Rleb. now destruct (Rle_dec x y). Qed.

Lemma in_integer_interval_true lo hi x :
  in_integer_interval lo hi x = true ->
  exists z : Z, x = IZR z /\ (lo <= z <= hi)%Z.
Proof.
  unfold in_integer_interval. intros H.
  apply andb_prop in H as [H H3]. apply andb_prop in H as [H1 H2].
  apply Reqb_true in H1. apply Rleb_le in H2. apply Rleb_le in H3.
  exists (Zfloor x). split; [now symmetry|].
  rewrite <- H1 in H2, H3. split; now apply le_IZR.
Qed.

Lemma Categorical_log_prob_invalid logits value ge n L av :
  data logits = of_mat n L ->
  data value = of_vec av ->
  Exists (fun x => ~ exists z : Z, x = IZR z /\ (0 <= z < Z.of_nat n)%Z) av ->
  Categorical_log_prob logits value ge = Raise ValueError.
Proof.
  intros Dl Dv Hbad. unfold Categorical_log_prob.
  destruct (negb (shapes_compatible _ _)); [reflexivity|].
  rewrite Dl, Dv, last_dim_of_mat.
  assert (F : tall (in_integer_interval 0 (Z.of_nat n - 1)) (of_vec av)
              = false).
  { unfold tall. rewrite flatten_of_vec.
    destruct (forallb _ av) eqn:E; [|reflexivity]. exfalso.
    rewrite forallb_forall in E. apply Exists_exists in Hbad as [x [Hx Hn]].
    apply Hn. destruct (in_integer_interval_true _ _ _ (E x Hx)) as [z [-> Hz]].
    exists z. split; [reflexivity | lia]. }
  now rewrite F.
Qed.

(** X6: in discrete mode, an action that is not an integer of the range
    0 .. n-1, with n the number of scores per row, makes update raise
    ValueError; the policy and its optimizer are left as they were. *)
Theorem update_rejects_invalid_action
  (w : World) (net : Module) (obs actions advantages : ndarray)
  (n : nat) (S : list (list R)) (av : list R) :
  discrete (self w) = true ->
  logits_net (self w) = Some net ->
  fwd net (weights net) (data (from_numpy obs)) = OK (of_mat n S) ->
  Forall (fun row => length row = n) S ->
  (0 < n)%nat ->
  data (from_numpy actions) = of_vec av ->
  Exists (fun x => ~ exists z : Z, x = IZR z /\ (0 <= z < Z.of_nat n)%Z) av ->
  MLPPolicyPG_update obs actions advantages w = (Raise ValueError, w).
Proof.
  intros Hd Hn Hf HS Hpos Ha Hbad.
  destruct (forward_discrete_batch w net (from_numpy obs) n S Hd Hn Hf HS)
    as [logits [E1 [D1 _]]].
  apply update_raises. unfold actor_loss.
  rewrite (bindM_OK _ _ _ _ _ E1), bind_get_self, Hd. cbn [log_prob].
  apply bind_liftG_Raise.
  exact (Categorical_log_prob_invalid logits (from_numpy actions) _ n _ av
           D1 Ha Hbad).
Qed.

Lemma update_rejects_invalid_action_witness :
  MLPPolicyPG_update (NdFloat (of_mat 1 [[0]; [0]]))
    (NdInt (of_vec [0; 2]%Z)) (NdFloat (of_vec [1; 1]))
    (world_of demo_discrete)
  = (Raise ValueError, world_of demo_discrete).
Proof.
  apply (update_rejects_invalid_action (world_of demo_discrete)
           (Linear 1 2 (zeros [2; 1]%nat) (zeros [2%nat]))
           (NdFloat (of_mat 1 [[0]; [0]])) (NdInt (of_vec [0; 2]%Z))
           (NdFloat (of_vec [1; 1])) 2 [[0; 0]; [0; 0]] [IZR 0; IZR 2]).
  - reflexivity.
  - reflexivity.
  - exact demo_discrete_scores_2.
  - repeat constructor.
  - lia.
  - reflexivity.
  - apply Exists_cons_tl, Exists_cons_hd. intros [z [E Hz]].
    apply eq_IZR in E. lia.
Defined.

(** The log-probability of a category is not positive. *)
Lemma le_Rsum_pos x l :
  In x l -> Forall (fun y => 0 <= y) l -> x <= Rsum l.
Proof.
  intros Hin Hl. induction Hl as [|y l Hy Hl IH]; [contradiction|].
  assert (0 <= Rsum l).
  { clear -Hl. induction Hl as [|z l Hz _ IH]; cbn; [lra|].
    unfold Rsum in *. lra. }
  unfold Rsum in *. cbn [fold_right].
  destruct Hin as [<- | Hin]; [lra|]. specialize (IH Hin). lra.
Qed.

Lemma spec_log_p_discrete_nonpos scores a :
  (0 <= a < Z.of_nat (length scores))%Z ->
  spec_log_p_discrete scores a <= 0.
Proof.
  intros Ha. unfold spec_log_p_discrete.
  set (k := Z.to_nat a). assert (Hk : (k < length scores)%nat) by lia.
  assert (Hle : exp (nth k scores 0) <= Rsum (map exp scores)).
  { apply le_Rsum_pos.
    - apply in_map, nth_In, Hk.
    - apply Forall_forall. intros y Hy. apply in_map_iff in Hy as [z [<- _]].
      apply Rlt_le, exp_pos. }
  assert (nth k scores 0 <= ln (Rsum (map exp scores))); [|lra].
  rewrite <- (ln_exp (nth k scores 0)) at 1.
  destruct Hle as [Hlt | Heq].
  - apply Rlt_le, ln_increasing; [apply exp_pos | exact Hlt].
  - rewrite Heq. lra.
Qed.

Lemma Rsum_nonpos l : Forall (fun x => x <= 0) l -> Rsum l <= 0.
Proof.
  induction 1 as [|x l Hx _ IH]; cbn; [lra|]. unfold Rsum in *. lra.
Qed.

Lemma spec_loss_nonneg lp d :
  lp <> [] ->
  Forall (fun x => x <= 0) lp -> Forall (fun x => 0 <= x) d ->
  0 <= spec_loss lp d.
Proof.
  intros Hne Hlp Hd. unfold spec_loss.
  assert (Hs : Rsum (zip_with Rmult lp d) <= 0).
  { apply Rsum_nonpos. unfold zip_with. apply Forall_forall. intros y Hy.
    apply in_map_iff in Hy as [[a b] [<- Hin]]. cbn [fst snd].
    rewrite Forall_forall in Hlp, Hd.
    pose proof (Hlp a (in_combine_l _ _ _ _ Hin)).
    pose proof (Hd b (in_combine_r _ _ _ _ Hin)). nra. }
  assert (Hn : 0 < INR (length lp)).
  { apply lt_0_INR. destruct lp; [congruence | cbn; lia]. }
  assert (Rsum (zip_with Rmult lp d) / INR (length lp) <= 0); [|lra].
  unfold Rdiv. pose proof (Rinv_0_lt_compat _ Hn). nra.
Qed.

(** X7: in discrete mode, with grad mode on and a batch that is not empty,
    the loss update returns is not negative when no advantage is negative:
    the log-probability of a category is at most 0. *)
Theorem discrete_loss_nonnegative
  (w : World) (net : Module) (obs actions advantages : ndarray)
  (n : nat) (S : list (list R)) (a : list Z) (d : list R) :
  grad_enabled w = true ->
  discrete (self w) = true ->
  logits_net (self w) = Some net ->
  parameters net <> [] ->
  fwd net (weights net) (data (from_numpy obs)) = OK (of_mat n S) ->
  Forall (fun row => length row = n) S ->
  S <> [] ->
  data (from_numpy actions) = of_vec (map IZR a) ->
  data (from_numpy advantages) = of_vec d ->
  length a = length S ->
  length d = length S ->
  Forall (fun z => (0 <= z < Z.of_nat n)%Z) a ->
  Forall (fun x => 0 <= x) d ->
  exists x w',
    MLPPolicyPG_update obs actions advantages w
    = (OK [("Actor Loss"%string, NdFloat (Scalar x))], w')
    /\ 0 <= x.
Proof.
  intros Hg Hd Hn Hp Hf HS Hne Ha Hadv Hla Hld Hr Hpos.
  assert (Hn0 : (0 < n)%nat).
  { destruct a as [|z a]; [destruct S; [congruence | discriminate]|].
    inversion Hr; subst. lia. }
  destruct (actor_loss_discrete w net obs actions advantages n S a d)
    as [loss [E [D R]]]; auto.
  rewrite Hg, (weights_nonempty net Hp) in R.
  destruct (update_from_loss obs actions advantages w loss E R) as [w' Hw].
  { now rewrite D. }
  eexists. exists w'. split; [rewrite Hw, D; reflexivity|].
  apply spec_loss_nonneg.
  - destruct S, a; cbn in *; congruence.
  - unfold zip_with. apply Forall_forall. intros y Hy.
    apply in_map_iff in Hy as [[row z] [<- Hin]]. cbn [fst snd].
    apply spec_log_p_discrete_nonpos.
    rewrite Forall_forall in HS, Hr.
    rewrite (HS row (in_combine_l _ _ _ _ Hin)).
    exact (Hr z (in_combine_r _ _ _ _ Hin)).
  - exact Hpos.
Qed.

Lemma discrete_loss_nonnegative_witness :
  exists x w',
    MLPPolicyPG_update (NdFloat (of_mat 1 [[0]; [0]; [0]]))
      (NdInt (of_vec [0; 1; 0]%Z)) (NdFloat (of_vec [1; 2; 3]))
      (world_of demo_discrete)
    = (OK [("Actor Loss"%string, NdFloat (Scalar x))], w')
    /\ 0 <= x.
Proof.
  apply (discrete_loss_nonnegative (world_of demo_discrete)
           (Linear 1 2 (zeros [2; 1]%nat) (zeros [2%nat]))
           (NdFloat (of_mat 1 [[0]; [0]; [0]]))
           (NdInt (of_vec [0; 1; 0]%Z)) (NdFloat (of_vec [1; 2; 3]))
           2 [[0; 0]; [0; 0]; [0; 0]] [0; 1; 0]%Z [1; 2; 3]).
  - reflexivity.
  - reflexivity.
  - reflexivity.
  - discriminate.
  - exact demo_discrete_scores.
  - repeat constructor.
  - discriminate.
  - reflexivity.
  - reflexivity.
  - reflexivity.
  - reflexivity.
  - repeat constructor; lia.
  - repeat constructor; lra.
Defined.

(** Writing a parameter twice, and writing two parameters *)
Lemma list_set_twice {A} (l : list A) i a b :
  list_set (list_set l i a) i b = list_set l i b.
Proof.
  revert i. induction l as [|y l IH]; intros [|i]; cbn; try reflexivity.
  now rewrite IH.
Qed.

Lemma list_set_comm {A} (l : list A) i j a b :
  i <> j -> list_set (list_set l i a) j b = list_set (list_set l j b) i a.
Proof.
  revert i j. induction l as [|y l IH]; intros [|i] [|j] H; cbn;
    try reflexivity; try congruence.
  rewrite IH; [reflexivity | congruence].
Qed.

Lemma set_param_twice p r a b :
  set_param (set_param p r a) r b = set_param p r b.
Proof.
  destruct r as [|i|i]; cbn.
  - now destruct (logstd p).
  - destruct (logits_net p); cbn; [|reflexivity]. now rewrite list_set_twice.
  - destruct (mean_net p); cbn; [|reflexivity]. now rewrite list_set_twice.
Qed.

Lemma set_param_comm p r x a b :
  r <> x ->
  set_param (set_param p r a) x b = set_param (set_param p x b) r a.
Proof.
  intros H. destruct r as [|i|i], x as [|j|j]; cbn; try reflexivity;
    try congruence.
  - destruct (logits_net p); cbn; [|reflexivity].
    rewrite list_set_comm; [reflexivity | congruence].
  - destruct (mean_net p); cbn; [|reflexivity].
    rewrite list_set_comm; [reflexivity | congruence].
Qed.

Lemma ParamRef_eqb_neq a b : a <> b -> ParamRef_eqb a b = false.
Proof.
  intros H. destruct (ParamRef_eqb a b) eqn:E; [|reflexivity].
  apply ParamRef_eqb_eq in E. contradiction.
Qed.

Lemma ParamRef_eq_dec (a b : ParamRef) : a = b \/ a <> b.
Proof.
  destruct (ParamRef_eqb a b) eqn:E.
  - left. now apply ParamRef_eqb_eq.
  - right. intros ->. rewrite ParamRef_eqb_refl in E. discriminate.
Qed.

(** [zero_grad] forgets the gradient a parameter held. *)
Lemma clear_grad_set_grad_same p r g :
  clear_grad (set_grad p r g) r = clear_grad p r.
Proof.
  unfold set_grad. destruct (get_param p r) as [v|] eqn:E; [|reflexivity].
  unfold clear_grad. rewrite get_set_param, ParamRef_eqb_refl, E.
  cbn [p_data]. now rewrite set_param_twice.
Qed.

Lemma clear_grad_set_grad_other p r x g :
  r <> x -> clear_grad (set_grad p r g) x = set_grad (clear_grad p x) r g.
Proof.
  intros H. unfold set_grad at 1.
  destruct (get_param p r) as [v|] eqn:E.
  - unfold clear_grad at 1. rewrite get_set_param, (ParamRef_eqb_neq _ _ H).
    unfold set_grad, clear_grad. destruct (get_param p x) as [vx|] eqn:Ex.
    + rewrite get_set_param, ParamRef_eqb_neq by congruence. rewrite E.
      now apply set_param_comm.
    + now rewrite E.
  - unfold set_grad. rewrite get_param_clear_grad, ParamRef_eqb_neq by congruence.
    now rewrite E.
Qed.

Lemma fold_clear_grad_set_grad l : forall p r g,
  In r l ->
  fold_left clear_grad l (set_grad p r g) = fold_left clear_grad l p.
Proof.
  induction l as [|x l IH]; intros p r g Hin; [contradiction|].
  cbn [fold_left]. destruct (ParamRef_eq_dec r x) as [-> | Hne].
  - now rewrite clear_grad_set_grad_same.
  - rewrite clear_grad_set_grad_other by exact Hne.
    apply IH. destruct Hin as [<- | Hin]; [congruence | exact Hin].
Qed.

Lemma optimizer_set_grad p r g : optimizer (set_grad p r g) = optimizer p.
Proof.
  unfold set_grad. destruct (get_param p r); [|reflexivity].
  apply optimizer_set_param.
Qed.

(** [forward] and the loss read parameter values only. *)
Lemma map_p_data_list_set l i v v' :
  nth_error l i = Some v -> p_data v' = p_data v ->
  map p_data (list_set l i v') = map p_data l.
Proof.
  revert i. induction l as [|y l IH]; intros [|i] H D; cbn in *;
    try discriminate.
  - inversion H; subst. now rewrite D.
  - f_equal. now apply IH.
Qed.

Lemma same_net_refl m : same_net m m.
Proof. destruct m; cbn; auto. Qed.

Lemma same_view_set_param p r v v' :
  get_param p r = Some v -> p_data v' = p_data v ->
  same_view p (set_param p r v').
Proof.
  intros E D. unfold same_view.
  destruct r as [|i|i]; cbn in *.
  - rewrite E. cbn. repeat split; try apply same_net_refl. now rewrite D.
  - repeat split; try apply same_net_refl.
    destruct (logits_net p) as [net|]; cbn in *; [|exact I].
    repeat split. now apply (map_p_data_list_set _ _ v).
  - repeat split; try apply same_net_refl.
    destruct (mean_net p) as [net|]; cbn in *; [|exact I].
    repeat split. now apply (map_p_data_list_set _ _ v).
Qed.

Lemma same_view_refl p : same_view p p.
Proof. repeat split; apply same_net_refl. Qed.

Lemma same_view_set_grad p r g : same_view p (set_grad p r g).
Proof.
  unfold set_grad. destruct (get_param p r) as [v|] eqn:E.
  - now apply (same_view_set_param p r v).
  - apply same_view_refl.
Qed.

Lemma Module_call_same ref n' n x :
  fwd n' = fwd n -> bwd n' = bwd n ->
  map p_data (parameters n') = map p_data (parameters n) ->
  Module_call ref n' x = Module_call ref n x.
Proof.
  intros H1 H2 H3. unfold Module_call. now rewrite H1, H2, H3.
Qed.

Lemma as_tensor_same r v' v :
  p_data v' = p_data v -> as_tensor r v' = as_tensor r v.
Proof. intros H. unfold as_tensor. now rewrite H. Qed.

Lemma forward_same_view obs w p p' :
  same_view p p' ->
  fst (MLPPolicy_forward obs (with_self w p'))
  = fst (MLPPolicy_forward obs (with_self w p)).
Proof.
  intros [Hd [Hl [Hm Hs]]]. unfold MLPPolicy_forward.
  rewrite !bind_get_self. cbn [self with_self]. rewrite Hd.
  destruct (discrete p).
  - destruct (logits_net p') as [n'|], (logits_net p) as [n|];
      cbn in Hl; try contradiction; [|reflexivity].
    destruct Hl as [H1 [H2 H3]]. rewrite !bind_attr_Some.
    rewrite !bind_liftG. cbn [grad_enabled with_self].
    rewrite (Module_call_same _ n' n _ H1 H2 H3).
    destruct (Module_call Ref_logits_net n obs (grad_enabled w));
      [|reflexivity].
    rewrite !bind_liftG. cbn [grad_enabled with_self].
    now destruct (Categorical_init _ (grad_enabled w)).
  - destruct (mean_net p') as [n'|], (mean_net p) as [n|];
      cbn in Hm; try contradiction; [|reflexivity].
    destruct Hm as [H1 [H2 H3]]. rewrite !bind_attr_Some.
    rewrite !bind_liftG. cbn [grad_enabled with_self].
    rewrite (Module_call_same _ n' n _ H1 H2 H3).
    destruct (Module_call Ref_mean_net n obs (grad_enabled w));
      [|reflexivity].
    destruct (logstd p') as [v'|], (logstd p) as [v|]; cbn in Hs;
      try discriminate; [|reflexivity].
    rewrite !bind_attr_Some. injection Hs as Hs.
    rewrite (as_tensor_same _ v' v Hs).
    rewrite !bind_liftG. cbn [grad_enabled with_self].
    destruct (torch_exp _ (grad_enabled w)); [|reflexivity].
    rewrite !bind_liftG. cbn [grad_enabled with_self].
    now destruct (Normal_init _ _ (grad_enabled w)).
Qed.

Lemma actor_loss_same_view obs actions advantages w p p' :
  same_view p p' ->
  fst (actor_loss obs actions advantages (with_self w p'))
  = fst (actor_loss obs actions advantages (with_self w p)).
Proof.
  intros Hv. pose proof (forward_same_view (from_numpy obs) w p p' Hv) as F.
  pose proof (reads_forward (from_numpy obs) (with_self w p')) as R1.
  pose proof (reads_forward (from_numpy obs) (with_self w p)) as R2.
  unfold reads in R1, R2. unfold actor_loss. cbn [bind M_Monad].
  destruct (MLPPolicy_forward (from_numpy obs) (with_self w p'))
    as [r1 w1].
  destruct (MLPPolicy_forward (from_numpy obs) (with_self w p))
    as [r2 w2].
  cbn in F, R1, R2. subst r1 w1 w2. destruct r2 as [d|e]; [|reflexivity].
  cbn [get_self self with_self]. destruct Hv as [-> _].
  destruct (discrete p); unfold liftG; cbn [grad_enabled with_self];
    cbn;
    repeat match goal with
           | |- context [match ?x with OK _ => _ | Raise _ => _ end] =>
               destruct x; cbn
           end;
    reflexivity.
Qed.

(** X8: gradients left on the parameters before the call have no influence
    on update.  [zero_grad] discards them before [backward] runs: an update
    that returns gives the same loss and leaves the same state, whatever
    gradient a parameter of the optimizer held when it was called. *)
Theorem update_discards_stale_gradients
  (w : World) (obs actions advantages : ndarray) (r : ParamRef)
  (g : option (tensor R)) (d : dict) (w1 : World) :
  In r (params (optimizer (self w))) ->
  MLPPolicyPG_update obs actions advantages w = (OK d, w1) ->
  MLPPolicyPG_update obs actions advantages
    (with_self w (set_grad (self w) r g))
  = (OK d, w1).
Proof.
  destruct w as [p ge gen]. cbn [self]. intros Hin H.
  set (w := {| self := p; grad_enabled := ge; default_generator := gen |}) in *.
  set (w' := with_self w (set_grad p r g)).
  destruct (update_outcomes obs actions advantages w)
    as [[e [_ E]] | [[loss [_ [_ E]]] | [loss [E0 [R [Dm E]]]]]];
    try (rewrite E in H; discriminate).
  cbv zeta in E. rewrite E in H. inversion H; subst d w1. clear H.
  assert (F : fst (actor_loss obs actions advantages w') = OK loss).
  { unfold w'. rewrite (actor_loss_same_view _ _ _ w p (set_grad p r g)
                          (same_view_set_grad p r g)).
    change (with_self w p) with w. now rewrite E0. }
  destruct (update_outcomes obs actions advantages w')
    as [[e [E1 _]] | [[loss' [E1 [C _]]] | [loss' [E1 [_ [_ E2]]]]]];
    rewrite E1 in F; cbn in F.
  - discriminate.
  - injection F as ->. destruct C as [C | C]; congruence.
  - injection F as ->. cbv zeta in E2. rewrite E2. f_equal.
    cbn [self w' with_self]. rewrite optimizer_set_grad.
    now rewrite (fold_clear_grad_set_grad _ p r g Hin).
Qed.

Lemma update_discards_stale_gradients_witness :
  exists d w1,
    MLPPolicyPG_update (NdFloat (of_mat 1 [[0]; [0]; [0]]))
      (NdFloat (of_mat 1 [[1]; [2]; [3]])) (NdFloat (of_vec [1; 2; 3]))
      (world_of demo_continuous)
    = (OK d, w1)
    /\ MLPPolicyPG_update (NdFloat (of_mat 1 [[0]; [0]; [0]]))
         (NdFloat (of_mat 1 [[1]; [2]; [3]])) (NdFloat (of_vec [1; 2; 3]))
         (with_self (world_of demo_continuous)
            (set_grad demo_continuous Ref_logstd (Some (of_vec [5]))))
       = (OK d, w1).
Proof.
  destruct (actor_loss_continuous (world_of demo_continuous)
              (Linear 1 1 (zeros [1; 1]%nat) (zeros [1%nat]))
              {| p_data := zeros [1%nat]; p_grad := None |}
              (NdFloat (of_mat 1 [[0]; [0]; [0]]))
              (NdFloat (of_mat 1 [[1]; [2]; [3]])) (NdFloat (of_vec [1; 2; 3]))
              [0] [[0]; [0]; [0]] [[1]; [2]; [3]] [1; 2; 3]
              eq_refl eq_refl eq_refl eq_refl demo_continuous_mean)
    as [loss [E [D R]]]; try reflexivity; try (repeat constructor).
  assert (Dm : dim (data loss) = 0%nat) by now rewrite D.
  destruct (update_from_loss _ _ _ _ loss E R Dm) as [w1 H].
  eexists. exists w1. split; [exact H|].
  apply (update_discards_stale_gradients (world_of demo_continuous)
           _ _ _ Ref_logstd (Some (of_vec [5])) _ w1).
  - left. reflexivity.
  - exact H.
Defined.

(** Draws for a batch *)
Lemma reshape_mat {A} (d : A) B m l :
  reshape [B; m] d l = of_mat m (tab2 B m (fun i j => nth (i * m + j) l d)).
Proof.
  cbn [reshape numel_of fold_right]. unfold of_mat, tab2, tab, of_vec.
  f_equal. rewrite map_map. apply map_ext. intros i. f_equal.
  rewrite !map_map. apply map_ext. intros j.
  rewrite skipn_skipn, hd_skipn_nth. do 2 f_equal. lia.
Qed.

Lemma draw_mat stream B m w :
  draw stream [B; m] w
  = (OK (of_mat m (tab2 B m (fun i j =>
                     nth (i * m + j) (draws stream (B * m) w) 0))),
     advance (B * m) w).
Proof.
  unfold draw, advance, draws. rewrite reshape_mat.
  cbn [numel_of fold_right]. now rewrite Nat.mul_1_r.
Qed.

Lemma Normal_rsample_batch loc scale B m mu sg w :
  data loc = of_mat m (tab2 B m mu) ->
  data scale = of_mat m (tab2 B m sg) ->
  exists x,
    Normal_rsample loc scale w = (OK (TFloat x), advance (B * m) w)
    /\ data x
       = of_mat m (tab2 B m (fun i j =>
                     mu i j
                     + nth (i * m + j) (draws normal_draws (B * m) w) 0
                       * sg i j)).
Proof.
  intros Hl Hs.
  set (eps := fun i j => nth (i * m + j) (draws normal_draws (B * m) w) 0).
  destruct (binop_mat Rmult (fun _ y => y) (fun x _ => x)
              (plain_tensor (of_mat m (tab2 B m eps))) scale
              (grad_enabled w) B m eps sg eq_refl Hs)
    as [scaled [E1 [D1 _]]].
  destruct (binop_mat Rplus (fun _ _ => 1) (fun _ _ => 1)
              loc scaled (grad_enabled w) B m mu _ Hl D1)
    as [x [E2 [D2 _]]].
  exists x. split; [|exact D2].
  unfold Normal_rsample. rewrite Hl, shape_of_mat_tab2.
  rewrite (bindM_OK _ _ _ _ _ (draw_mat normal_draws B m w)).
  fold eps.
  assert (G1 : torch_mul (plain_tensor (of_mat m (tab2 B m eps))) scale
                 (grad_enabled (advance (B * m) w)) = OK scaled)
    by exact E1.
  rewrite (bind_liftG_OK _ _ _ _ G1).
  assert (G2 : torch_add loc scaled (grad_enabled (advance (B * m) w)) = OK x)
    by exact E2.
  rewrite (bind_liftG_OK _ _ _ _ G2). reflexivity.
Qed.

Lemma Categorical_sample_batch logits n L w :
  data logits = of_mat n L ->
  Forall (fun row => length row = n) L ->
  (0 < n)%nat ->
  Categorical_sample logits w
  = (OK (TLong (of_vec (tab (length L) (fun i =>
           Z.of_nat (argmax (zip_with Rdiv (softmax_row (nth i L []))
                               (tab n (fun j =>
                                  nth (i * n + j)
                                    (draws exponential_draws
                                       (length L * n) w) 0)))))))),
     advance (length L * n) w).
Proof.
  intros Hd HL Hn. unfold Categorical_sample.
  rewrite Hd, last_dim_of_mat.
  destruct (Nat.eqb_spec n 0) as [E|_]; [lia|].
  rewrite tsoftmax_of_mat, shape_of_mat, length_map.
  rewrite (bindM_OK _ _ _ _ _ (draw_mat exponential_draws (length L) n w)).
  cbn [ret M_Monad]. rewrite tzip_of_mat, to_rows_of_mat, tmap_of_vec.
  do 4 f_equal.
  rewrite (tab_of_list [] L) at 1. rewrite map_tab. unfold tab2.
  rewrite zip_with_tab, map_tab. reflexivity.
Qed.

Lemma nth_rows_length {A} n (S : list (list A)) i :
  Forall (fun row => length row = n) S -> (i < length S)%nat ->
  length (nth i S []) = n.
Proof.
  intros H Hi. rewrite Forall_forall in H. apply H. now apply nth_In.
Qed.

(** X9: [get_action] also takes a batch.  For observations that the network
    maps to one row of scores or of means each, it returns one action per
    row: in discrete mode a vector of indices, each of the range of the
    actions and each drawn with its own row of noise; in continuous mode the
    matrix mean + eps * exp(logstd), logstd being shared by all rows.  The
    generator moves on by rows times columns draws. *)
Theorem get_action_on_batch (w : World) (obs : ndarray) :
  (forall net n S,
      discrete (self w) = true ->
      logits_net (self w) = Some net ->
      fwd net (weights net) (data (from_numpy obs)) = OK (of_mat n S) ->
      Forall (fun row => length row = n) S ->
      (0 < n)%nat ->
      let q := draws exponential_draws (length S * n) w in
      let ks :=
        tab (length S) (fun i =>
          Z.of_nat (argmax (zip_with Rdiv (softmax_row (nth i S []))
                              (tab n (fun j => nth (i * n + j) q 0))))) in
      MLPPolicy_get_action obs w
      = (OK (NdInt (of_vec ks)), advance (length S * n) w)
      /\ Forall (fun k => (0 <= k < Z.of_nat n)%Z) ks)
  /\ (forall net ls sigma Mu,
      discrete (self w) = false ->
      mean_net (self w) = Some net ->
      logstd (self w) = Some ls ->
      p_data ls = of_vec sigma ->
      fwd net (weights net) (data (from_numpy obs))
      = OK (of_mat (length sigma) Mu) ->
      Forall (fun row => length row = length sigma) Mu ->
      let eps := draws normal_draws (length Mu * length sigma) w in
      MLPPolicy_get_action obs w
      = (OK (NdFloat (of_mat (length sigma)
               (tab2 (length Mu) (length sigma) (fun i j =>
                  nth j (nth i Mu []) 0
                  + nth (i * length sigma + j) eps 0 * exp (nth j sigma 0))))),
         advance (length Mu * length sigma) w)).
Proof.
  split.
  - intros net n S Hd Hn Hf HS Hpos q ks.
    destruct (forward_discrete_batch (grad_off w) net (from_numpy obs) n S
                Hd Hn Hf HS) as [logits [E [D _]]].
    assert (HS' : Forall (fun row => length row = n) (map normalize_row S)).
    { apply Forall_forall. intros row Hrow.
      apply in_map_iff in Hrow as [r [<- Hin]]. rewrite length_normalize_row.
      rewrite Forall_forall in HS. now apply HS. }
    split.
    + unfold MLPPolicy_get_action. rewrite no_grad_unfold.
      rewrite (bindM_OK _ _ _ _ _ E), bind_get_self.
      cbn [grad_off self]. rewrite Hd. cbn [sample].
      rewrite (bindM_OK _ _ _ _ _
                 (Categorical_sample_batch logits n _ (grad_off w) D HS' Hpos)).
      cbn [ret M_Monad fst snd to_numpy]. rewrite length_map.
      f_equal. do 3 f_equal. apply tab_ext. intros i Hi.
      change (@nil R) with (normalize_row []) at 1. rewrite map_nth.
      rewrite softmax_normalize; [reflexivity|].
      intros H0. pose proof (nth_rows_length n S i HS Hi) as Hl.
      rewrite H0 in Hl. cbn in Hl. lia.
    + unfold ks, tab. apply Forall_forall. intros k Hk.
      apply in_map_iff in Hk as [i [<- Hi]]. apply in_seq in Hi.
      assert (Hlen : length (zip_with Rdiv (softmax_row (nth i S []))
                              (map (fun j => nth (i * n + j) q 0) (seq 0 n)))
                     = n).
      { rewrite length_zip_with, length_softmax_row, length_map, length_seq.
        rewrite (nth_rows_length n S i HS) by lia. lia. }
      pose proof (argmax_bound
                    (zip_with Rdiv (softmax_row (nth i S []))
                       (map (fun j => nth (i * n + j) q 0) (seq 0 n)))) as Hb.
      rewrite Hlen in Hb. split; [lia|]. apply Nat2Z.inj_lt, Hb.
      intros H0. rewrite H0 in Hlen. cbn in Hlen. lia.
  - intros net ls sigma Mu Hd Hn Hl Hs Hf HM eps.
    destruct (forward_continuous_batch (grad_off w) net ls (from_numpy obs)
                sigma Mu Hd Hn Hl Hs Hf HM)
      as [loc [scale [E [D1 [D2 _]]]]].
    rewrite (tab2_of_mat 0 (length sigma) Mu HM) in D1.
    assert (D2' : data scale
                  = of_mat (length sigma)
                      (tab2 (length Mu) (length sigma)
                         (fun _ j => exp (nth j sigma 0)))).
    { rewrite D2. f_equal. rewrite repeat_tab. unfold tab2. apply tab_ext.
      intros i _. rewrite (tab_of_list 0 sigma) at 1. now rewrite map_tab. }
    destruct (Normal_rsample_batch loc scale _ _ _ _ (grad_off w) D1 D2')
      as [x [E2 D3]].
    unfold MLPPolicy_get_action. rewrite no_grad_unfold.
    rewrite (bindM_OK _ _ _ _ _ E), bind_get_self.
    cbn [grad_off self]. rewrite Hd. cbn [rsample].
    rewrite (bindM_OK _ _ _ _ _ E2).
    cbn [ret M_Monad fst snd to_numpy]. rewrite D3. reflexivity.
Qed.

Lemma get_action_on_batch_witness :
  (exists ks,
      MLPPolicy_get_action (NdFloat (of_mat 1 [[0]; [0]]))
        (world_of demo_discrete)
      = (OK (NdInt (of_vec ks)), advance 4 (world_of demo_discrete))
      /\ Forall (fun k => (0 <= k < 2)%Z) ks)
  /\ (exists A,
      MLPPolicy_get_action (NdFloat (of_mat 1 [[0]; [0]; [0]]))
        (world_of demo_continuous)
      = (OK (NdFloat (of_mat 1 A)), advance 3 (world_of demo_continuous))).
Proof.
  split.
  - eexists.
    apply (proj1 (get_action_on_batch (world_of demo_discrete)
                    (NdFloat (of_mat 1 [[0]; [0]])))
             (Linear 1 2 (zeros [2; 1]%nat) (zeros [2%nat])) 2%nat
             [[0; 0]; [0; 0]]).
    + reflexivity.
    + reflexivity.
    + exact demo_discrete_scores_2.
    + repeat constructor.
    + lia.
  - eexists.
    apply (proj2 (get_action_on_batch (world_of demo_continuous)
                    (NdFloat (of_mat 1 [[0]; [0]; [0]])))
             (Linear 1 1 (zeros [1; 1]%nat) (zeros [1%nat]))
             {| p_data := zeros [1%nat]; p_grad := None |} [0]
             [[0]; [0]; [0]]).
    + reflexivity.
    + reflexivity.
    + reflexivity.
    + reflexivity.
    + exact demo_continuous_mean.
    + repeat constructor.
Defined.

(** X10: in continuous mode, actions whose number of columns differs from
    the action dimension, neither of the two being 1, make update raise
    ValueError (the sample validation of [Normal.log_prob]); the state is
    left as it was. *)
Theorem update_rejects_action_width
  (w : World) (net : Module) (ls : nn_Parameter)
  (obs actions advantages : ndarray)
  (sigma : list R) (Mu : list (list R)) (k : nat) (A : list (list R)) :
  discrete (self w) = false ->
  mean_net (self w) = Some net ->
  logstd (self w) = Some ls ->
  p_data ls = of_vec sigma ->
  fwd net (weights net) (data (from_numpy obs))
  = OK (of_mat (length sigma) Mu) ->
  Forall (fun row => length row = length sigma) Mu ->
  data (from_numpy actions) = of_mat k A ->
  clash k (length sigma) ->
  MLPPolicyPG_update obs actions advantages w = (Raise ValueError, w).
Proof.
  intros Hd Hn Hl Hs Hf HM Ha Hc.
  destruct (forward_continuous_batch w net ls (from_numpy obs) sigma Mu
              Hd Hn Hl Hs Hf HM) as [loc [scale [E1 [D1 _]]]].
  apply update_raises. unfold actor_loss.
  rewrite (bindM_OK _ _ _ _ _ E1), bind_get_self, Hd. cbn [log_prob].
  apply bind_liftG_Raise. apply bindG_Raise.
  unfold Normal_log_prob.
  rewrite Ha, D1, !shape_of_mat, shapes_compatible_2_2.
  now rewrite (compatb_false _ _ Hc).
Qed.

Lemma update_rejects_action_width_witness :
  MLPPolicyPG_update (NdFloat (of_mat 2 [[0; 0]; [0; 0]]))
    (NdFloat (of_mat 3 [[1; 2; 3]; [4; 5; 6]])) (NdFloat (of_vec [1; 1]))
    (world_of {| logits_net := None;
                 mean_net := Some (Linear 2 2 (zeros [2; 2]%nat)
                                     (zeros [2%nat]));
                 logstd := Some {| p_data := zeros [2%nat];
                                   p_grad := None |};
                 optimizer :=
                   demo_optimizer [Ref_logstd; Ref_mean_net 0; Ref_mean_net 1];
                 discrete := false |})
  = (Raise ValueError,
     world_of {| logits_net := None;
                 mean_net := Some (Linear 2 2 (zeros [2; 2]%nat)
                                     (zeros [2%nat]));
                 logstd := Some {| p_data := zeros [2%nat];
                                   p_grad := None |};
                 optimizer :=
                   demo_optimizer [Ref_logstd; Ref_mean_net 0; Ref_mean_net 1];
                 discrete := false |}).
Proof.
  apply (update_rejects_action_width _
           (Linear 2 2 (zeros [2; 2]%nat) (zeros [2%nat]))
           {| p_data := zeros [2%nat]; p_grad := None |}
           _ _ _ [0; 0] [[0; 0]; [0; 0]] 3 [[1; 2; 3]; [4; 5; 6]]).
  - reflexivity.
  - reflexivity.
  - reflexivity.
  - reflexivity.
  - cbn. unfold of_mat, of_vec, dot, zip_with, Rsum. cbn.
    repeat f_equal; lra.
  - repeat constructor.
  - reflexivity.
  - unfold clash. cbn. lia.
Defined.

(** Broadcasting a vector and a matrix against a column *)
Lemma broadcast_shapes_vec_col B :
  broadcast_shapes [B] [B; 1%nat] = Some [B; B].
Proof.
  unfold broadcast_shapes, pad_shape. cbn.
  destruct B as [|[|B]]; reflexivity.
Qed.

Lemma col_tab2 {A} B (g : nat -> nat -> A) :
  tab2 B 1 g = map (fun c => [c]) (tab B (fun i => g i 0%nat)).
Proof. unfold tab2. rewrite map_tab. reflexivity. Qed.

Lemma expand_col_tab2 {A} B n (g : nat -> nat -> A) :
  expand [B; n] (of_mat 1 (tab2 B 1 g))
  = of_mat n (tab2 B n (fun i _ => g i 0%nat)).
Proof.
  rewrite col_tab2.
  rewrite <- (length_tab B (fun i => g i 0%nat)) at 1.
  rewrite expand_col_to_mat. f_equal. rewrite map_tab. unfold tab2.
  apply tab_ext. intros i _. apply repeat_tab.
Qed.

Lemma expand_vec_tab {A} B n (f : nat -> A) :
  expand [B; n] (of_vec (tab n f)) = of_mat n (tab2 B n (fun _ j => f j)).
Proof.
  rewrite <- (length_tab n f) at 1. rewrite expand_vec_to_mat.
  rewrite length_tab. f_equal. now rewrite repeat_tab.
Qed.

Lemma binop_vec_col op dfa dfb a b ge B f g :
  data a = of_vec (tab B f) ->
  data b = of_mat 1 (tab2 B 1 g) ->
  exists t, binop op dfa dfb a b ge = OK t
    /\ data t = of_mat B (tab2 B B (fun i j => op (f j) (g i 0%nat)))
    /\ requires_grad t = ge && (requires_grad a || requires_grad b).
Proof.
  intros Ha Hb.
  destruct (binop_OK op dfa dfb a b ge [B; B]) as [t [E [D [_ [_ R]]]]].
  - rewrite Ha. apply wf_of_vec.
  - rewrite Hb. apply wf_of_mat_tab2.
  - rewrite Ha, Hb, shape_of_vec, length_tab, shape_of_mat_tab2.
    apply broadcast_shapes_vec_col.
  - exists t. split; [exact E|]. split; [|exact R].
    rewrite D, Ha, Hb, expand_vec_tab, expand_col_tab2, tzip_of_mat.
    now rewrite zip_with_tab2.
Qed.

Lemma binop_mat_col op dfa dfb a b ge B n f g :
  data a = of_mat n (tab2 B n f) ->
  data b = of_mat 1 (tab2 B 1 g) ->
  exists t, binop op dfa dfb a b ge = OK t
    /\ data t = of_mat n (tab2 B n (fun i j => op (f i j) (g i 0%nat)))
    /\ requires_grad t = ge && (requires_grad a || requires_grad b).
Proof.
  intros Ha Hb.
  destruct (binop_OK op dfa dfb a b ge [B; n]) as [t [E [D [_ [_ R]]]]].
  - rewrite Ha. apply wf_of_mat_tab2.
  - rewrite Hb. apply wf_of_mat_tab2.
  - rewrite Ha, Hb, !shape_of_mat_tab2. apply broadcast_shapes_mat_col.
  - exists t. split; [exact E|]. split; [|exact R].
    rewrite D, Hb, expand_col_tab2.
    rewrite <- (shape_of_mat_tab2 B n f), <- Ha at 1.
    rewrite expand_same by (rewrite Ha; apply wf_of_mat_tab2).
    now rewrite Ha, tzip_of_mat, zip_with_tab2.
Qed.

(** [Normal.log_prob] of a vector of values under a column of means *)
Lemma Normal_log_prob_vec_col loc scale value ge B mu sg a :
  data loc = of_mat 1 (tab2 B 1 mu) ->
  data scale = of_mat 1 (tab2 B 1 sg) ->
  data value = of_vec (tab B a) ->
  exists lp, Normal_log_prob loc scale value ge = OK lp
    /\ data lp = of_mat B (tab2 B B (fun i j =>
                   normal_log_density (mu i 0%nat) (sg i 0%nat) (a j)))
    /\ requires_grad lp
       = ge && (requires_grad value || requires_grad loc || requires_grad scale).
Proof.
  intros Hl Hs Hv.
  destruct (unop_mat (fun x => x ^ 2) (fun x => 2 * x) scale ge B 1 sg Hs)
    as [var [E1 [D1 R1]]].
  destruct (unop_mat ln (fun x => / x) scale ge B 1 sg Hs)
    as [log_scale [E2 [D2 R2]]].
  destruct (binop_vec_col Rminus (fun _ _ => 1) (fun _ _ => -1) value loc ge
              B a mu Hv Hl) as [diff [E3 [D3 R3]]].
  destruct (unop_mat (fun x => x ^ 2) (fun x => 2 * x) diff ge B B _ D3)
    as [sq [E4 [D4 R4]]].
  destruct (unop_mat Ropp (fun _ => -1) sq ge B B _ D4)
    as [nsq [E5 [D5 R5]]].
  destruct (unop_mat (fun x => 2 * x) (fun _ => 2) var ge B 1 _ D1)
    as [var2 [E6 [D6 R6]]].
  destruct (binop_mat_col Rdiv (fun _ y => / y) (fun x y => - x / (y * y))
              nsq var2 ge B B _ _ D5 D6) as [quot [E7 [D7 R7]]].
  destruct (binop_mat_col Rminus (fun _ _ => 1) (fun _ _ => -1) quot log_scale
              ge B B _ _ D7 D2) as [rest [E8 [D8 R8]]].
  destruct (unop_mat (fun x => x - ln (sqrt (2 * PI))) (fun _ => 1) rest ge
              B B _ D8) as [lp [E9 [D9 R9]]].
  exists lp. split; [|split; [rewrite D9; reflexivity|]].
  - unfold Normal_log_prob. rewrite Hv, Hl, shape_of_vec, shape_of_mat_tab2.
  assert (C : shapes_compatible [length (tab B a)] [B; 1%nat] = true).
  { unfold shapes_compatible. cbn. now rewrite andb_false_r. }
  rewrite C. cbn [negb].
  unfold torch_pow2, torch_log, torch_sub, torch_neg, torch_rmul, torch_div,
    torch_sub_const.
  rewrite (bindG_OK _ _ _ _ E1), (bindG_OK _ _ _ _ E2), (bindG_OK _ _ _ _ E3),
    (bindG_OK _ _ _ _ E4), (bindG_OK _ _ _ _ E5), (bindG_OK _ _ _ _ E6),
    (bindG_OK _ _ _ _ E7), (bindG_OK _ _ _ _ E8).
    exact E9.
  - rewrite R9, R8, R7, R6, R5, R4, R3, R2, R1.
    destruct ge, (requires_grad value), (requires_grad loc),
      (requires_grad scale); reflexivity.
Qed.

(** X11: in continuous mode with one action dimension, actions given as a
    flat vector of length B, not as a B x 1 matrix, are accepted and
    broadcast against the B x 1 means to a B x B matrix: the log-probability
    that update weights with the advantage of row i is the sum of the
    log-densities of all B actions under the mean of row i. *)
Theorem update_broadcasts_flat_actions
  (w : World) (net : Module) (ls : nn_Parameter)
  (obs actions advantages : ndarray)
  (s : R) (Mu : list (list R)) (a d : list R) :
  grad_enabled w = true ->
  discrete (self w) = false ->
  mean_net (self w) = Some net ->
  logstd (self w) = Some ls ->
  p_data ls = of_vec [s] ->
  fwd net (weights net) (data (from_numpy obs)) = OK (of_mat 1 Mu) ->
  Forall (fun row => length row = 1%nat) Mu ->
  data (from_numpy actions) = of_vec a ->
  data (from_numpy advantages) = of_vec d ->
  length a = length Mu ->
  length d = length Mu ->
  exists w',
    MLPPolicyPG_update obs actions advantages w
    = (OK [("Actor Loss"%string,
            NdFloat (Scalar (spec_loss
                               (map (fun row =>
                                       Rsum (map (normal_log_density
                                                    (nth 0 row 0) (exp s)) a))
                                  Mu) d)))],
       w').
Proof.
  intros Hg Hd Hn Hl Hs Hf HM Ha Hadv Hla Hld.
  destruct (forward_continuous_batch w net ls (from_numpy obs) [s] Mu
              Hd Hn Hl Hs Hf HM) as [loc [scale [E1 [D1 [D2 [R1 R2]]]]]].
  set (B := length Mu) in *. cbn [length] in D1, D2.
  rewrite (tab2_of_mat 0 1 Mu HM) in D1. fold B in D1.
  assert (D2' : data scale = of_mat 1 (tab2 B 1 (fun _ _ => exp s))).
  { rewrite D2. f_equal. now rewrite repeat_tab. }
  rewrite (tab_of_list 0 a), Hla in Ha.
  destruct (Normal_log_prob_vec_col loc scale (from_numpy actions)
              (grad_enabled w) B _ _ _ D1 D2' Ha) as [lp [E2 [D3 R3]]].
  destruct (torch_sum_last_OK lp (grad_enabled w)) as [log_p [E3 [D4 R4]]].
  rewrite D3, tsum_last_of_mat in D4.
  destruct (loss_of_log_p log_p (from_numpy advantages) (grad_enabled w)
              _ d D4 Hadv) as [loss [E4 [D5 R5]]].
  { unfold tab2. now rewrite length_map, length_tab. }
  assert (E : actor_loss obs actions advantages w = (OK loss, w)).
  { unfold actor_loss. rewrite (bindM_OK _ _ _ _ _ E1), bind_get_self, Hd.
    cbn [log_prob].
    assert (E23 : (lp0 <- Normal_log_prob loc scale (from_numpy actions) ;;
                   torch_sum_last lp0) (grad_enabled w) = OK log_p).
    { now rewrite (bindG_OK _ _ _ _ E2). }
    rewrite (bind_liftG_OK _ _ _ _ E23). now apply liftG_OK. }
  assert (R : requires_grad loss = true).
  { rewrite R5, R4, R3, R2, Hg, requires_grad_from_numpy.
    now destruct (requires_grad loc). }
  destruct (update_from_loss obs actions advantages w loss E R) as [w' Hw].
  { now rewrite D5. }
  assert (L : map (fun row =>
                     Rsum (map (normal_log_density (nth 0 row 0) (exp s)) a))
                Mu
              = map Rsum
                  (tab2 B B (fun i j =>
                     normal_log_density (nth 0 (nth i Mu []) 0) (exp s)
                       (nth j a 0)))).
  { etransitivity; [apply (f_equal (map _)), (tab_of_list [] Mu)|].
    fold B. unfold tab2. rewrite !map_tab. apply tab_ext. intros i _.
    f_equal.
    etransitivity; [apply (f_equal (map _)), (tab_of_list 0 a)|].
    rewrite Hla. fold B. now rewrite map_tab. }
  exists w'. rewrite Hw, D5, L. reflexivity.
Qed.

Lemma update_broadcasts_flat_actions_witness :
  exists w',
    MLPPolicyPG_update (NdFloat (of_mat 1 [[0]; [0]]))
      (NdFloat (of_vec [1; 2])) (NdFloat (of_vec [1; 1]))
      (world_of demo_continuous)
    = (OK [("Actor Loss"%string,
            NdFloat (Scalar (spec_loss
                               (map (fun row =>
                                       Rsum (map (normal_log_density
                                                    (nth 0 row 0) (exp 0))
                                               [1; 2]))
                                  [[0]; [0]]) [1; 1])))],
       w').
Proof.
  apply (update_broadcasts_flat_actions (world_of demo_continuous)
           (Linear 1 1 (zeros [1; 1]%nat) (zeros [1%nat]))
           {| p_data := zeros [1%nat]; p_grad := None |}
           (NdFloat (of_mat 1 [[0]; [0]])) (NdFloat (of_vec [1; 2]))
           (NdFloat (of_vec [1; 1])) 0 [[0]; [0]] [1; 2] [1; 1]).
  - reflexivity.
  - reflexivity.
  - reflexivity.
  - reflexivity.
  - reflexivity.
  - exact demo_continuous_mean_2.
  - repeat constructor.
  - reflexivity.
  - reflexivity.
  - reflexivity.
  - reflexivity.
Defined.

(** X12: an exception of the network passes through unchanged.  When the
    network raises on the observations, [forward], [get_action] and update
    raise the same exception and leave the state as it was: [get_action]
    has restored the grad mode, and update has neither cleared a gradient
    nor stepped. *)
Theorem network_error_passes_through
  (w : World) (net : Module) (obs : ndarray) (e : exn) :
  (if discrete (self w) then logits_net (self w) else mean_net (self w))
  = Some net ->
  fwd net (weights net) (data (from_numpy obs)) = Raise e ->
  MLPPolicy_forward (from_numpy obs) w = (Raise e, w)
  /\ MLPPolicy_get_action obs w = (Raise e, w)
  /\ forall actions advantages,
       MLPPolicyPG_update obs actions advantages w = (Raise e, w).
Proof.
  intros Hn Hf.
  assert (F : forall w0, self w0 = self w ->
                MLPPolicy_forward (from_numpy obs) w0 = (Raise e, w0)).
  { intros w0 Hs. destruct (discrete (self w)) eqn:Hd.
    - apply (forward_raises_discrete w0 net); rewrite ?Hs; auto.
    - apply (forward_raises_continuous w0 net); rewrite ?Hs; auto. }
  split; [apply F; reflexivity|]. split.
  - unfold MLPPolicy_get_action. rewrite no_grad_unfold.
    rewrite (bindM_Raise _ _ _ _ _ (F (grad_off w) eq_refl)).
    now destruct w.
  - intros actions advantages. apply update_raises. unfold actor_loss.
    now rewrite (bindM_Raise _ _ _ _ _ (F w eq_refl)).
Qed.

Lemma network_error_passes_through_witness :
  MLPPolicy_forward (from_numpy (NdFloat (of_mat 2 [[0; 0]])))
    (world_of demo_continuous)
  = (Raise RuntimeError, world_of demo_continuous)
  /\ MLPPolicy_get_action (NdFloat (of_mat 2 [[0; 0]]))
       (world_of demo_continuous)
     = (Raise RuntimeError, world_of demo_continuous)
  /\ forall actions advantages,
       MLPPolicyPG_update (NdFloat (of_mat 2 [[0; 0]])) actions advantages
         (world_of demo_continuous)
       = (Raise RuntimeError, world_of demo_continuous).
Proof.
  apply (network_error_passes_through (world_of demo_continuous)
           (Linear 1 1 (zeros [1; 1]%nat) (zeros [1%nat]))
           (NdFloat (of_mat 2 [[0; 0]])) RuntimeError).
  - reflexivity.
  - reflexivity.
Defined.

(** The network of a discrete policy is the one the builder returned. *)
Lemma init_discrete_net build_mlp ac_dim ob_dim n_layers layer_size
  learning_rate p :
  MLPPolicy__init__ build_mlp ac_dim ob_dim true n_layers layer_size
    learning_rate = OK p ->
  exists net0,
    build_mlp ob_dim ac_dim n_layers layer_size = OK net0
    /\ logits_net p = Some net0.
Proof.
  unfold MLPPolicy__init__. cbn [bind ret Res_Monad res_bind].
  destruct (build_mlp ob_dim ac_dim n_layers layer_size) as [net|e];
    [|discriminate].
  cbn [res_bind].
  destruct (Adam_init _ learning_rate) as [o|e]; [|discriminate].
  cbn [res_bind]. intros H. injection H as <-. exists net. auto.
Qed.

(** C10: in discrete mode [get_action] on a single observation returns, as
    a 0-dimensional integer array, the index that the sampler draws: the
    position of the largest quotient of a probability softmax(scores) and
    its exponential draw, which is one draw of [torch.multinomial].  That
    index is at least 0 and less than the number of scores; the number of
    scores is [ac_dim] for a policy with the architecture the constructor
    gave it, when the network that [build_mlp] returned yields
    [output_size] scores. *)
Theorem get_action_discrete_index
  (w : World) (net : Module) (x row : list R) :
  discrete (self w) = true ->
  logits_net (self w) = Some net ->
  fwd net (weights net) (of_vec x) = OK (of_vec row) ->
  row <> [] ->
  let k := Z.of_nat (argmax (zip_with Rdiv (softmax_row row)
                               (draws exponential_draws (length row) w))) in
  MLPPolicy_get_action (NdFloat (of_vec x)) w
  = (OK (NdInt (Scalar k)), advance (length row) w)
  /\ (0 <= k < Z.of_nat (length row))%Z
  /\ (forall build_mlp ac_dim ob_dim n_layers layer_size learning_rate p net0,
        MLPPolicy__init__ build_mlp ac_dim ob_dim true n_layers layer_size
          learning_rate = OK p ->
        architecture (self w) = architecture p ->
        build_mlp ob_dim ac_dim n_layers layer_size = OK net0 ->
        (forall r,
            fwd net0 (weights net) (of_vec x) = OK (of_vec r) ->
            length r = Z.to_nat ac_dim) ->
        (0 <= k < ac_dim)%Z).
Proof.
  intros Hd Hn Hf Hne k.
  assert (Hk : (0 <= k < Z.of_nat (length row))%Z).
  { unfold k. split; [apply Nat2Z.is_nonneg|]. apply Nat2Z.inj_lt.
    set (l := zip_with Rdiv (softmax_row row)
                (draws exponential_draws (length row) w)).
    assert (Hl : length l = length row).
    { unfold l. now rewrite length_zip_with, length_softmax_row, length_draws,
        Nat.min_id. }
    rewrite <- Hl. apply argmax_bound.
    intros H. rewrite H in Hl. destruct row; [congruence | discriminate]. }
  split; [exact (get_action_discrete_single w net x row Hd Hn Hf Hne)|].
  split; [exact Hk|].
  intros build_mlp ac_dim ob_dim n_layers layer_size learning_rate p net0
    Hi Ha Hb Hw.
  destruct (init_discrete_net _ _ _ _ _ _ _ Hi) as [net1 [Hb1 Hp]].
  rewrite Hb in Hb1. injection Hb1 as <-.
  apply (f_equal arch_logits_net) in Ha. cbn in Ha. rewrite Hn, Hp in Ha.
  cbn in Ha. injection Ha as Hfw _ _.
  rewrite Hfw in Hf. specialize (Hw row Hf).
  assert (0 < length row)%nat by (destruct row; [congruence | cbn; lia]).
  lia.
Qed.

Lemma get_action_discrete_index_witness :
  let k := Z.of_nat (argmax (zip_with Rdiv (softmax_row [0; 0])
                               (draws exponential_draws 2
                                  (world_of demo_discrete)))) in
  MLPPolicy_get_action (NdFloat (of_vec [0])) (world_of demo_discrete)
  = (OK (NdInt (Scalar k)), advance 2 (world_of demo_discrete))
  /\ (0 <= k < 2)%Z.
Proof.
  destruct (get_action_discrete_index (world_of demo_discrete)
              (Linear 1 2 (zeros [2; 1]%nat) (zeros [2%nat])) [0] [0; 0]
              eq_refl eq_refl demo_discrete_single_scores
              ltac:(discriminate)) as [E [_ B]].
  split; [exact E|].
  apply (B build_affine 2%Z 1%Z 0%Z 64%Z (/ 1000) demo_discrete
           (Linear 1 2 (zeros [2; 1]%nat) (zeros [2%nat]))
           init_demo_discrete eq_refl eq_refl).
  intros r Hr. rewrite demo_discrete_single_scores in Hr.
  assert (H2 : of_vec [0; 0] = of_vec r) by congruence.
  apply (f_equal flatten) in H2. rewrite !flatten_of_vec in H2.
  now subst r.
Defined.

(** What the loss is computed from. *)
Lemma actor_loss_inversion obs actions advantages w loss w' :
  actor_loss obs actions advantages w = (OK loss, w') ->
  exists dist log_p,
    MLPPolicy_forward (from_numpy obs) w = (OK dist, w)
    /\ (if discrete (self w)
        then log_prob dist (from_numpy actions)
        else (lp <- log_prob dist (from_numpy actions) ;; torch_sum_last lp))
         (grad_enabled w) = OK log_p
    /\ (weighted <- torch_mul log_p (from_numpy advantages) ;;
        m <- torch_mean weighted ;;
        torch_neg m) (grad_enabled w) = OK loss.
Proof.
  intros H. unfold actor_loss in H.
  apply bindM_inv in H as [dist [w1 [E1 H]]].
  pose proof (reads_forward (from_numpy obs) w) as R1. unfold reads in R1.
  rewrite E1 in R1. cbn in R1. subst w1.
  rewrite bind_get_self in H.
  apply bindM_inv in H as [log_p [w2 [E2 H]]].
  exists dist, log_p. split; [exact E1|].
  destruct (discrete (self w)); apply liftG_inv in E2 as [E2 ->];
    apply liftG_inv in H as [H _]; auto.
Qed.

(** C9: the loss update returns under "Actor Loss" is computed from the
    distribution that [forward] builds in the state the call starts from,
    and it comes back as a plain array, which carries no graph.  Only then
    are the gradients cleared, the gradients of that loss accumulated and
    the Adam step taken: the state update leaves is the one these three
    produce, in this order, from the state it started from.  Update returns
    in this way whenever that loss is a scalar that requires grad. *)
Theorem update_returns_loss_before_step
  (w : World) (obs actions advantages : ndarray) :
  (forall d w',
      MLPPolicyPG_update obs actions advantages w = (OK d, w') ->
      exists dist log_p loss,
        MLPPolicy_forward (from_numpy obs) w = (OK dist, w)
        /\ (if discrete (self w)
            then log_prob dist (from_numpy actions)
            else (lp <- log_prob dist (from_numpy actions) ;;
                  torch_sum_last lp))
             (grad_enabled w) = OK log_p
        /\ (weighted <- torch_mul log_p (from_numpy advantages) ;;
            m <- torch_mean weighted ;;
            torch_neg m) (grad_enabled w) = OK loss
        /\ actor_loss obs actions advantages w = (OK loss, w)
        /\ d = [("Actor Loss"%string, NdFloat (data loss))]
        /\ let p1 := fold_left clear_grad (params (optimizer (self w)))
                       (self w) in
           let p2 := fold_left accumulate (back loss (Scalar 1)) p1 in
           w' = with_self w (fold_left adam_step_param
                               (params (optimizer p2)) p2))
  /\ (forall loss,
      actor_loss obs actions advantages w = (OK loss, w) ->
      requires_grad loss = true ->
      dim (data loss) = 0%nat ->
      let p1 := fold_left clear_grad (params (optimizer (self w))) (self w) in
      let p2 := fold_left accumulate (back loss (Scalar 1)) p1 in
      MLPPolicyPG_update obs actions advantages w
      = (OK [("Actor Loss"%string, NdFloat (data loss))],
         with_self w (fold_left adam_step_param (params (optimizer p2)) p2))).
Proof.
  split.
  - intros d w' H.
    destruct (update_outcomes obs actions advantages w)
      as [[e [_ E]] | [[loss [_ [_ E]]] | [loss [E0 [_ [_ E]]]]]];
      try (rewrite E in H; discriminate).
    cbv zeta in E. rewrite E in H. inversion H; subst d w'. clear H.
    destruct (actor_loss_inversion _ _ _ _ _ _ E0) as [dist [log_p [F [L1 L2]]]].
    exists dist, log_p, loss. repeat split; assumption.
  - intros loss E0 R Dm p1 p2.
    destruct (update_outcomes obs actions advantages w)
      as [[e [E1 _]] | [[loss' [E1 [C _]]] | [loss' [E1 [_ [_ E]]]]]];
      rewrite E0 in E1.
    + discriminate.
    + injection E1 as <-. destruct C as [C | C]; congruence.
    + injection E1 as <-. exact E.
Qed.

Lemma update_returns_loss_before_step_witness :
  exists loss,
    actor_loss (NdFloat (of_mat 1 [[0]; [0]; [0]]))
      (NdFloat (of_mat 1 [[1]; [2]; [3]])) (NdFloat (of_vec [1; 2; 3]))
      (world_of demo_continuous)
    = (OK loss, world_of demo_continuous)
    /\ let p1 := fold_left clear_grad (params (optimizer demo_continuous))
                   demo_continuous in
       let p2 := fold_left accumulate (back loss (Scalar 1)) p1 in
       MLPPolicyPG_update (NdFloat (of_mat 1 [[0]; [0]; [0]]))
         (NdFloat (of_mat 1 [[1]; [2]; [3]])) (NdFloat (of_vec [1; 2; 3]))
         (world_of demo_continuous)
       = (OK [("Actor Loss"%string, NdFloat (data loss))],
          with_self (world_of demo_continuous)
            (fold_left adam_step_param (params (optimizer p2)) p2)).
Proof.
  destruct (actor_loss_continuous (world_of demo_continuous)
              (Linear 1 1 (zeros [1; 1]%nat) (zeros [1%nat]))
              {| p_data := zeros [1%nat]; p_grad := None |}
              (NdFloat (of_mat 1 [[0]; [0]; [0]]))
              (NdFloat (of_mat 1 [[1]; [2]; [3]])) (NdFloat (of_vec [1; 2; 3]))
              [0] [[0]; [0]; [0]] [[1]; [2]; [3]] [1; 2; 3]
              eq_refl eq_refl eq_refl eq_refl demo_continuous_mean)
    as [loss [E [D R]]]; try reflexivity; try (repeat constructor).
  assert (Dm : dim (data loss) = 0%nat) by now rewrite D.
  exists loss. split; [exact E|].
  exact (proj2 (update_returns_loss_before_step (world_of demo_continuous)
                  (NdFloat (of_mat 1 [[0]; [0]; [0]]))
                  (NdFloat (of_mat 1 [[1]; [2]; [3]]))
                  (NdFloat (of_vec [1; 2; 3])))
           loss E R Dm).
Defined.

(** Which exceptions the tensor operations raise *)
Lemma raises_torch_bind {A B} (m : G A) (k : A -> G B) :
  raises_torch m -> (forall a, raises_torch (k a)) ->
  raises_torch (x <- m ;; k x).
Proof.
  intros Hm Hk ge e. cbn. destruct (m ge) as [a|e0] eqn:E.
  - apply Hk.
  - intros H. injection H as <-. exact (Hm ge e0 E).
Qed.

Lemma raises_torch_ret {A} (a : A) : raises_torch (ret a).
Proof. intros ge e H. discriminate H. Qed.

Lemma raises_torch_raiseG {A} e : torch_error e -> raises_torch (@raiseG A e).
Proof. intros He ge e' H. injection H as <-. exact He. Qed.

Lemma raises_torch_unop f df x : raises_torch (unop f df x).
Proof. intros ge e H. discriminate H. Qed.

Lemma raises_torch_binop f dfa dfb a b : raises_torch (binop f dfa dfb a b).
Proof.
  intros ge e. unfold binop.
  destruct (broadcast_shapes _ _); intros H; [discriminate|].
  injection H as <-. now right.
Qed.

Lemma raises_torch_sum_last x : raises_torch (torch_sum_last x).
Proof. intros ge e H. discriminate H. Qed.

Lemma raises_torch_mean x : raises_torch (torch_mean x).
Proof. intros ge e H. discriminate H. Qed.

Lemma raises_torch_logsumexp x : raises_torch (torch_logsumexp_keep x).
Proof. intros ge e H. discriminate H. Qed.

Lemma raises_torch_expand s x : raises_torch (torch_expand s x).
Proof. intros ge e H. discriminate H. Qed.

Lemma raises_torch_Categorical_init scores :
  raises_torch (Categorical_init scores).
Proof.
  unfold Categorical_init. destruct (dim (data scores) <? 1)%nat.
  - apply raises_torch_raiseG. now left.
  - apply raises_torch_bind; [apply raises_torch_logsumexp|]. intros lse.
    apply raises_torch_bind; [apply raises_torch_binop|]. intros t.
    apply raises_torch_ret.
Qed.

Lemma raises_torch_Normal_init loc scale : raises_torch (Normal_init loc scale).
Proof.
  unfold Normal_init. apply raises_torch_bind.
  - unfold broadcast_all. destruct (broadcast_shapes _ _).
    + apply raises_torch_bind; [apply raises_torch_expand|]. intros a.
      apply raises_torch_bind; [apply raises_torch_expand|]. intros b.
      apply raises_torch_ret.
    + apply raises_torch_raiseG. now right.
  - intros ls. destruct (tall _ _).
    + apply raises_torch_ret.
    + apply raises_torch_raiseG. now left.
Qed.

Lemma raises_torch_Categorical_log_prob logits value :
  raises_torch (Categorical_log_prob logits value).
Proof.
  intros ge e. unfold Categorical_log_prob.
  destruct (negb (shapes_compatible _ _)).
  { intros H. injection H as <-. now left. }
  destruct (negb (tall _ _)).
  { intros H. injection H as <-. now left. }
  destruct (broadcast_shapes _ _); intros H; [discriminate|].
  injection H as <-. now right.
Qed.

Lemma raises_torch_Normal_log_prob loc scale value :
  raises_torch (Normal_log_prob loc scale value).
Proof.
  unfold Normal_log_prob. destruct (negb (shapes_compatible _ _)).
  { apply raises_torch_raiseG. now left. }
  unfold torch_pow2, torch_log, torch_sub, torch_neg, torch_rmul, torch_div,
    torch_sub_const.
  repeat (apply raises_torch_bind;
          [first [apply raises_torch_unop | apply raises_torch_binop]
          | intros ?]).
  apply raises_torch_unop.
Qed.

Lemma raises_torch_log_prob d value : raises_torch (log_prob d value).
Proof.
  destruct d; [apply raises_torch_Categorical_log_prob
              | apply raises_torch_Normal_log_prob].
Qed.

Lemma Module_call_Raise_inv ref net x ge e :
  Module_call ref net x ge = Raise e ->
  fwd net (weights net) (data x) = Raise e.
Proof.
  intros H. destruct (fwd net (weights net) (data x)) as [y|e0] eqn:E.
  - destruct (Module_call_OK ref net x ge y E) as [t [Et _]]. congruence.
  - rewrite (Module_call_Raise ref net x ge e0 E) in H. congruence.
Qed.

(** An exception of [forward] is the network's or one of torch's. *)
Lemma forward_raise_kind obs w e w' net :
  MLPPolicy_forward obs w = (Raise e, w') ->
  (if discrete (self w) then logits_net (self w) else mean_net (self w))
  = Some net ->
  (discrete (self w) = false -> logstd (self w) <> None) ->
  fwd net (weights net) (data obs) = Raise e \/ torch_error e.
Proof.
  unfold MLPPolicy_forward. rewrite bind_get_self. intros H Hn Hl.
  destruct (discrete (self w)).
  - rewrite Hn, bind_attr_Some, bind_liftG in H.
    destruct (Module_call _ net obs (grad_enabled w)) as [scores|e0] eqn:EM.
    + rewrite bind_liftG in H.
      destruct (Categorical_init scores (grad_enabled w)) as [d|e1] eqn:EC;
        [discriminate|].
      injection H as <- _. right.
      exact (raises_torch_Categorical_init scores _ _ EC).
    + injection H as <- _. left. exact (Module_call_Raise_inv _ _ _ _ _ EM).
  - rewrite Hn, bind_attr_Some, bind_liftG in H.
    destruct (Module_call _ net obs (grad_enabled w)) as [loc|e0] eqn:EM.
    + destruct (logstd (self w)) as [ls|]; [|now destruct (Hl eq_refl)].
      rewrite bind_attr_Some, bind_liftG in H.
      destruct (torch_exp _ (grad_enabled w)) as [scale|e1] eqn:EE;
        [|discriminate EE].
      rewrite bind_liftG in H.
      destruct (Normal_init loc scale (grad_enabled w)) as [d|e1] eqn:EN;
        [discriminate|].
      injection H as <- _. right.
      exact (raises_torch_Normal_init loc scale _ _ EN).
    + injection H as <- _. left. exact (Module_call_Raise_inv _ _ _ _ _ EM).
Qed.

(** So is an exception met on the way to the loss. *)
Lemma actor_loss_raise_kind obs actions advantages w e w' net :
  actor_loss obs actions advantages w = (Raise e, w') ->
  (if discrete (self w) then logits_net (self w) else mean_net (self w))
  = Some net ->
  (discrete (self w) = false -> logstd (self w) <> None) ->
  fwd net (weights net) (data (from_numpy obs)) = Raise e \/ torch_error e.
Proof.
  intros H Hn Hl. unfold actor_loss in H. cbn [bind M_Monad] in H.
  pose proof (reads_forward (from_numpy obs) w) as R1. unfold reads in R1.
  destruct (MLPPolicy_forward (from_numpy obs) w) as [[dist|e0] w1] eqn:EF;
    cbn in R1; subst w1.
  2:{ injection H as <- _. exact (forward_raise_kind _ _ _ _ net EF Hn Hl). }
  right. cbn [get_self] in H.
  assert (T : raises_torch
                (if discrete (self w)
                 then log_prob dist (from_numpy actions)
                 else (lp <- log_prob dist (from_numpy actions) ;;
                       torch_sum_last lp))).
  { destruct (discrete (self w)); [apply raises_torch_log_prob|].
    apply raises_torch_bind; [apply raises_torch_log_prob|]. intros lp.
    apply raises_torch_sum_last. }
  assert (T2 : forall log_p,
             raises_torch
               (weighted <- torch_mul log_p (from_numpy advantages) ;;
                m <- torch_mean weighted ;;
                torch_neg m)).
  { intros log_p. apply raises_torch_bind; [apply raises_torch_binop|].
    intros weighted. apply raises_torch_bind; [apply raises_torch_mean|].
    intros m. apply raises_torch_unop. }
  destruct (discrete (self w)); unfold liftG in H; cbn in H, T;
    match type of H with
    | context [match ?m with OK _ => _ | Raise _ => _ end] =>
        destruct m as [log_p|e1] eqn:E1
    end.
  all: try (injection H as <- _; exact (T _ _ E1)).
  all: match type of H with
       | context [match ?m with OK _ => _ | Raise _ => _ end] =>
           destruct m as [x|e2] eqn:E2
       end.
  all: try discriminate H.
  all: injection H as <- _;
    exact (raises_torch_binop Rmult _ _ log_p _ _ _ E2).
Qed.

Lemma clash_sym a b : clash a b -> clash b a.
Proof. unfold clash. intros [H1 [H2 H3]]. repeat split; auto. Qed.

(** Observations and actions of clashing batch sizes *)
Lemma actor_loss_discrete_actions_clash w net obs actions advantages n S av :
  discrete (self w) = true ->
  logits_net (self w) = Some net ->
  fwd net (weights net) (data (from_numpy obs)) = OK (of_mat n S) ->
  Forall (fun row => length row = n) S ->
  data (from_numpy actions) = of_vec av ->
  clash (length S) (length av) ->
  actor_loss obs actions advantages w = (Raise ValueError, w).
Proof.
  intros Hd Hn Hf HS Ha Hc.
  destruct (forward_discrete_batch w net (from_numpy obs) n S Hd Hn Hf HS)
    as [logits [E1 [D1 _]]].
  unfold actor_loss.
  rewrite (bindM_OK _ _ _ _ _ E1), bind_get_self, Hd. cbn [log_prob].
  apply bind_liftG_Raise. unfold Categorical_log_prob.
  rewrite Ha, D1, shape_of_vec. unfold batch_shape_of.
  rewrite shape_of_mat, length_map. cbn [removelast].
  rewrite shapes_compatible_1_1, (compatb_false _ _ (clash_sym _ _ Hc)).
  reflexivity.
Qed.

Lemma actor_loss_continuous_actions_clash w net ls obs actions advantages
  sigma Mu k A :
  discrete (self w) = false ->
  mean_net (self w) = Some net ->
  logstd (self w) = Some ls ->
  p_data ls = of_vec sigma ->
  fwd net (weights net) (data (from_numpy obs))
  = OK (of_mat (length sigma) Mu) ->
  Forall (fun row => length row = length sigma) Mu ->
  data (from_numpy actions) = of_mat k A ->
  clash (length Mu) (length A) ->
  actor_loss obs actions advantages w = (Raise ValueError, w).
Proof.
  intros Hd Hn Hl Hs Hf HM Ha Hc.
  destruct (forward_continuous_batch w net ls (from_numpy obs) sigma Mu
              Hd Hn Hl Hs Hf HM) as [loc [scale [E1 [D1 _]]]].
  unfold actor_loss.
  rewrite (bindM_OK _ _ _ _ _ E1), bind_get_self, Hd. cbn [log_prob].
  apply bind_liftG_Raise. apply bindG_Raise. unfold Normal_log_prob.
  rewrite Ha, D1, !shape_of_mat, shapes_compatible_2_2.
  rewrite (compatb_false _ _ (clash_sym _ _ Hc)), andb_false_r.
  reflexivity.
Qed.

(** One advantage for a whole batch *)
Lemma actor_loss_discrete_one_advantage w net obs actions advantages n S a c :
  discrete (self w) = true ->
  logits_net (self w) = Some net ->
  fwd net (weights net) (data (from_numpy obs)) = OK (of_mat n S) ->
  Forall (fun row => length row = n) S ->
  data (from_numpy actions) = of_vec (map IZR a) ->
  data (from_numpy advantages) = of_vec [c] ->
  length a = length S ->
  (0 < n)%nat ->
  Forall (fun z => (0 <= z < Z.of_nat n)%Z) a ->
  exists loss,
    actor_loss obs actions advantages w = (OK loss, w)
    /\ data loss
       = Scalar (spec_loss (zip_with spec_log_p_discrete S a)
                   (repeat c (length S)))
    /\ requires_grad loss
       = grad_enabled w && negb (length (weights net) =? 0)%nat.
Proof.
  intros Hd Hn Hf HS Ha Hadv Hla Hpos Hr.
  destruct (forward_discrete_batch w net (from_numpy obs) n S Hd Hn Hf HS)
    as [logits [E1 [D1 R1]]].
  destruct (Categorical_log_prob_vec logits (from_numpy actions)
              (grad_enabled w) n (map normalize_row S) a D1 Ha)
    as [log_p [E2 [D2 R2]]]; auto.
  { apply Forall_forall. intros row Hrow.
    apply in_map_iff in Hrow as [r [<- Hin]]. rewrite length_normalize_row.
    rewrite Forall_forall in HS. now apply HS. }
  { now rewrite length_map. }
  rewrite (zip_with_gather_normalize n S a HS Hr) in D2.
  destruct (loss_of_log_p_broadcast log_p (from_numpy advantages)
              (grad_enabled w) _ c D2 Hadv) as [loss [E3 [D3 R3]]].
  exists loss. split; [|split].
  - unfold actor_loss. rewrite (bindM_OK _ _ _ _ _ E1), bind_get_self, Hd.
    cbn [log_prob]. rewrite (bind_liftG_OK _ _ _ _ E2).
    now apply liftG_OK.
  - rewrite D3, length_zip_with, Hla, Nat.min_id. reflexivity.
  - rewrite R3, R2, R1, requires_grad_from_numpy.
    now destruct (grad_enabled w), (negb (length (weights net) =? 0)%nat).
Qed.

Lemma actor_loss_continuous_one_advantage w net ls obs actions advantages
  sigma Mu A c :
  discrete (self w) = false ->
  mean_net (self w) = Some net ->
  logstd (self w) = Some ls ->
  p_data ls = of_vec sigma ->
  fwd net (weights net) (data (from_numpy obs))
  = OK (of_mat (length sigma) Mu) ->
  Forall (fun row => length row = length sigma) Mu ->
  data (from_numpy actions) = of_mat (length sigma) A ->
  Forall (fun row => length row = length sigma) A ->
  data (from_numpy advantages) = of_vec [c] ->
  length A = length Mu ->
  exists loss,
    actor_loss obs actions advantages w = (OK loss, w)
    /\ data loss
       = Scalar (spec_loss (zip_with (spec_log_p_continuous sigma) Mu A)
                   (repeat c (length Mu)))
    /\ requires_grad loss = grad_enabled w.
Proof.
  intros Hd Hn Hl Hs Hf HM Ha HA Hadv HlA.
  destruct (forward_continuous_batch w net ls (from_numpy obs) sigma Mu
              Hd Hn Hl Hs Hf HM) as [loc [scale [E1 [D1 [D2 [R1 R2]]]]]].
  set (B := length Mu) in *. set (D := length sigma) in *.
  rewrite (tab2_of_mat 0 D Mu HM) in D1. fold B in D1.
  rewrite (tab2_of_mat 0 D A HA), HlA in Ha. fold B in Ha.
  assert (D2' : data scale
                = of_mat D (tab2 B D (fun _ j => exp (nth j sigma 0)))).
  { rewrite D2. f_equal. rewrite repeat_tab. unfold tab2.
    apply tab_ext. intros i _. rewrite (tab_of_list 0 sigma) at 1.
    now rewrite map_tab. }
  destruct (Normal_log_prob_mat loc scale (from_numpy actions) (grad_enabled w)
              B D _ _ _ D1 D2' Ha) as [lp [E2 [D3 R3]]].
  destruct (torch_sum_last_OK lp (grad_enabled w)) as [log_p [E3 [D4 R4]]].
  rewrite D3, tsum_last_of_mat in D4.
  destruct (loss_of_log_p_broadcast log_p (from_numpy advantages)
              (grad_enabled w) _ c D4 Hadv) as [loss [E4 [D5 R5]]].
  assert (L : map Rsum
                (tab2 B D (fun i j =>
                   normal_log_density (nth j (nth i Mu []) 0)
                     (exp (nth j sigma 0)) (nth j (nth i A []) 0)))
              = zip_with (spec_log_p_continuous sigma) Mu A).
  { unfold tab2. rewrite map_tab.
    rewrite (zip_with_nth (spec_log_p_continuous sigma) [] [] Mu A B)
      by (auto; reflexivity).
    apply tab_ext. intros i Hi.
    rewrite spec_log_p_continuous_tab; [reflexivity| |].
    + rewrite Forall_forall in HM. apply HM. apply nth_In. exact Hi.
    + rewrite Forall_forall in HA. apply HA. apply nth_In. now rewrite HlA. }
  exists loss. split; [|split].
  - unfold actor_loss. rewrite (bindM_OK _ _ _ _ _ E1), bind_get_self, Hd.
    cbn [log_prob].
    assert (E23 : (lp0 <- Normal_log_prob loc scale (from_numpy actions) ;;
                   torch_sum_last lp0) (grad_enabled w) = OK log_p).
    { now rewrite (bindG_OK _ _ _ _ E2). }
    rewrite (bind_liftG_OK _ _ _ _ E23).
    now apply liftG_OK.
  - rewrite D5, L, length_zip_with, HlA. fold B. now rewrite Nat.min_id.
  - rewrite R5, R4, R3, R2, requires_grad_from_numpy.
    destruct (grad_enabled w), (requires_grad loc); reflexivity.
Qed.

(** C8 (as amended): update has no check of its own on batch sizes; the
    broadcasting rules of torch decide.  The statement is for advantages
    given as a vector and actions given as a vector (discrete mode) or as a
    matrix (continuous mode), and for a network that returns one row per
    observation.

    When two of the three batch sizes differ and neither of the two is 1,
    update raises and leaves the state as it was.  The exception is the
    one the network raised if the network rejects the observations;
    otherwise it is ValueError or RuntimeError, and it is ValueError, from
    the validation of the sample in [log_prob], whenever the batch sizes of
    observations and actions are the two that clash.

    Batch sizes that differ are not always rejected: a single advantage is
    broadcast over the whole batch, and update returns the loss in which
    every row is weighted with it. *)
Theorem update_rejects_clashing_batches
  (w : World) (obs actions advantages : ndarray) :
  (forall net av d B,
      discrete (self w) = true ->
      logits_net (self w) = Some net ->
      batch_preserving net (data (from_numpy obs)) B ->
      data (from_numpy actions) = of_vec av ->
      data (from_numpy advantages) = of_vec d ->
      clash B (length av) \/ clash B (length d)
      \/ clash (length av) (length d) ->
      exists e,
        MLPPolicyPG_update obs actions advantages w = (Raise e, w)
        /\ (fwd net (weights net) (data (from_numpy obs)) = Raise e
            \/ e = ValueError \/ e = RuntimeError))
  /\ (forall net n S av,
      discrete (self w) = true ->
      logits_net (self w) = Some net ->
      fwd net (weights net) (data (from_numpy obs)) = OK (of_mat n S) ->
      Forall (fun row => length row = n) S ->
      data (from_numpy actions) = of_vec av ->
      clash (length S) (length av) ->
      MLPPolicyPG_update obs actions advantages w = (Raise ValueError, w))
  /\ (forall net ls sigma k A d B,
      discrete (self w) = false ->
      mean_net (self w) = Some net ->
      logstd (self w) = Some ls ->
      p_data ls = of_vec sigma ->
      batch_preserving net (data (from_numpy obs)) B ->
      data (from_numpy actions) = of_mat k A ->
      Forall (fun row => length row = k) A ->
      data (from_numpy advantages) = of_vec d ->
      clash B (length A) \/ clash B (length d)
      \/ clash (length A) (length d) ->
      exists e,
        MLPPolicyPG_update obs actions advantages w = (Raise e, w)
        /\ (fwd net (weights net) (data (from_numpy obs)) = Raise e
            \/ e = ValueError \/ e = RuntimeError))
  /\ (forall net ls sigma Mu k A,
      discrete (self w) = false ->
      mean_net (self w) = Some net ->
      logstd (self w) = Some ls ->
      p_data ls = of_vec sigma ->
      fwd net (weights net) (data (from_numpy obs))
      = OK (of_mat (length sigma) Mu) ->
      Forall (fun row => length row = length sigma) Mu ->
      data (from_numpy actions) = of_mat k A ->
      clash (length Mu) (length A) ->
      MLPPolicyPG_update obs actions advantages w = (Raise ValueError, w))
  /\ (forall net n S a c,
      grad_enabled w = true ->
      discrete (self w) = true ->
      logits_net (self w) = Some net ->
      parameters net <> [] ->
      fwd net (weights net) (data (from_numpy obs)) = OK (of_mat n S) ->
      Forall (fun row => length row = n) S ->
      data (from_numpy actions) = of_vec (map IZR a) ->
      data (from_numpy advantages) = of_vec [c] ->
      length a = length S ->
      (0 < n)%nat ->
      Forall (fun z => (0 <= z < Z.of_nat n)%Z) a ->
      exists w',
        MLPPolicyPG_update obs actions advantages w
        = (OK [("Actor Loss"%string,
                NdFloat (Scalar (spec_loss
                                   (zip_with spec_log_p_discrete S a)
                                   (repeat c (length S)))))],
           w'))
  /\ (forall net ls sigma Mu A c,
      grad_enabled w = true ->
      discrete (self w) = false ->
      mean_net (self w) = Some net ->
      logstd (self w) = Some ls ->
      p_data ls = of_vec sigma ->
      fwd net (weights net) (data (from_numpy obs))
      = OK (of_mat (length sigma) Mu) ->
      Forall (fun row => length row = length sigma) Mu ->
      data (from_numpy actions) = of_mat (length sigma) A ->
      Forall (fun row => length row = length sigma) A ->
      data (from_numpy advantages) = of_vec [c] ->
      length A = length Mu ->
      exists w',
        MLPPolicyPG_update obs actions advantages w
        = (OK [("Actor Loss"%string,
                NdFloat (Scalar (spec_loss
                                   (zip_with (spec_log_p_continuous sigma)
                                      Mu A)
                                   (repeat c (length Mu)))))],
           w')).
Proof.
  split; [|split; [|split; [|split; [|split]]]].
  - intros net av d B Hd Hn Hc Ha Hadv Hclash.
    destruct (actor_loss_discrete_clash w net obs actions advantages av d B)
      as [e E]; auto.
    exists e. split; [now apply update_raises|].
    apply (actor_loss_raise_kind obs actions advantages w e w net E).
    + now rewrite Hd.
    + rewrite Hd. discriminate.
  - intros net n S av Hd Hn Hf HS Ha Hc. apply update_raises.
    now apply (actor_loss_discrete_actions_clash w net _ _ _ n S av).
  - intros net ls sigma k A d B Hd Hn Hl Hs Hc Ha HA Hadv Hclash.
    destruct (actor_loss_continuous_clash w net ls obs actions advantages
                sigma k A d B) as [e E]; auto.
    exists e. split; [now apply update_raises|].
    apply (actor_loss_raise_kind obs actions advantages w e w net E).
    + now rewrite Hd.
    + intros _. rewrite Hl. discriminate.
  - intros net ls sigma Mu k A Hd Hn Hl Hs Hf HM Ha Hc. apply update_raises.
    now apply (actor_loss_continuous_actions_clash w net ls _ _ _ sigma Mu k A).
  - intros net n S a c Hg Hd Hn Hp Hf HS Ha Hadv Hla Hpos Hr.
    destruct (actor_loss_discrete_one_advantage w net obs actions advantages
                n S a c) as [loss [E [D R]]]; auto.
    rewrite Hg, (weights_nonempty net Hp) in R.
    destruct (update_from_loss obs actions advantages w loss E R) as [w' Hw].
    { now rewrite D. }
    exists w'. now rewrite Hw, D.
  - intros net ls sigma Mu A c Hg Hd Hn Hl Hs Hf HM Ha HA Hadv HlA.
    destruct (actor_loss_continuous_one_advantage w net ls obs actions
                advantages sigma Mu A c) as [loss [E [D R]]]; auto.
    rewrite Hg in R.
    destruct (update_from_loss obs actions advantages w loss E R) as [w' Hw].
    { now rewrite D. }
    exists w'. now rewrite Hw, D.
Qed.

Lemma update_rejects_clashing_batches_witness :
  (exists e,
      MLPPolicyPG_update (NdFloat (of_mat 1 [[0]; [0]]))
        (NdInt (of_vec [0; 1]%Z)) (NdFloat (of_vec [1; 2; 3]))
        (world_of demo_discrete)
      = (Raise e, world_of demo_discrete)
      /\ (e = ValueError \/ e = RuntimeError))
  /\ MLPPolicyPG_update (NdFloat (of_mat 1 [[0]; [0]]))
       (NdFloat (of_mat 1 [[1]; [2]; [3]])) (NdFloat (of_vec [1; 2]))
       (world_of demo_continuous)
     = (Raise ValueError, world_of demo_continuous)
  /\ (exists w',
      MLPPolicyPG_update (NdFloat (of_mat 1 [[0]; [0]]))
        (NdFloat (of_mat 1 [[1]; [2]])) (NdFloat (of_vec [5]))
        (world_of demo_continuous)
      = (OK [("Actor Loss"%string,
              NdFloat (Scalar (spec_loss
                                 (zip_with (spec_log_p_continuous [0])
                                    [[0]; [0]] [[1]; [2]])
                                 [5; 5])))],
         w')).
Proof.
  split; [|split].
  - destruct (proj1 (update_rejects_clashing_batches (world_of demo_discrete)
                       (NdFloat (of_mat 1 [[0]; [0]]))
                       (NdInt (of_vec [0; 1]%Z)) (NdFloat (of_vec [1; 2; 3])))
                (Linear 1 2 (zeros [2; 1]%nat) (zeros [2%nat]))
                (map IZR [0; 1]%Z) [1; 2; 3] 2%nat
                eq_refl eq_refl demo_discrete_batch_preserving
                eq_refl eq_refl)
      as [e [E K]].
    + right. left. cbn. unfold clash. lia.
    + exists e. split; [exact E|].
      destruct K as [K | K]; [|exact K].
      exfalso. revert K.
      change (data (from_numpy (NdFloat (of_mat 1 [[0]; [0]]))))
        with (of_mat 1 [[0]; [0]]).
      rewrite demo_discrete_scores_2. discriminate.
  - apply (proj1 (proj2 (proj2 (proj2
             (update_rejects_clashing_batches (world_of demo_continuous)
                (NdFloat (of_mat 1 [[0]; [0]]))
                (NdFloat (of_mat 1 [[1]; [2]; [3]]))
                (NdFloat (of_vec [1; 2]))))))
             (Linear 1 1 (zeros [1; 1]%nat) (zeros [1%nat]))
             {| p_data := zeros [1%nat]; p_grad := None |} [0]
             [[0]; [0]] 1%nat [[1]; [2]; [3]]).
    + reflexivity.
    + reflexivity.
    + reflexivity.
    + reflexivity.
    + exact demo_continuous_mean_2.
    + repeat constructor.
    + reflexivity.
    + cbn. unfold clash. lia.
  - apply (proj2 (proj2 (proj2 (proj2 (proj2
             (update_rejects_clashing_batches (world_of demo_continuous)
                (NdFloat (of_mat 1 [[0]; [0]]))
                (NdFloat (of_mat 1 [[1]; [2]]))
                (NdFloat (of_vec [5])))))))
             (Linear 1 1 (zeros [1; 1]%nat) (zeros [1%nat]))
             {| p_data := zeros [1%nat]; p_grad := None |} [0]
             [[0]; [0]] [[1]; [2]] 5).
    + reflexivity.
    + reflexivity.
    + reflexivity.
    + reflexivity.
    + reflexivity.
    + exact demo_continuous_mean_2.
    + repeat constructor.
    + reflexivity.
    + repeat constructor.
    + reflexivity.
    + reflexivity.
Defined.





